(** * GitQuest: the commit analyzer, the seeded composer and the story engine

    A shallow embedding of the parts of the GitQuest sources that the
    specification talks about:

    - [github.js]       : [analyzeCommits] (module [Github]);
    - [music-engine.js] : [SeededRNG] and the choice of the root pitch class
                          in [MusicEngine.init] (module [Music]);
    - [storage.js]      : [saveGame] / [loadGame] (module [Storage]), with
                          what JSON makes of a game state (module [Json]);
    - [ai-engine.js]    : [generateFallbackScene] and [pickClass]
                          (module [Fallback]);
    - [story-engine.js] : the [StoryEngine] class (module [Story]), over the
                          records of module [Model].

    and, besides these:

    - [ai-engine.js]    : [parseAIResponse] (module [Response]);
    - [github.js]       : [parseRepoInput] (module [RepoInput]) and the
                          subject and body of [parseCommit] (module
                          [CommitText]);
    - [storage.js]      : [listSaves] and [deleteGame] (module [Saves]), the
                          settings (module [Settings]) and the cache (module
                          [Cache]);
    - [storage.js]      : the history of visits (module [History]);
    - [music-engine.js] : [buildNotePool] and [buildChords] (module [Score]);
    - [app.js]          : [handleURLRouting], [pushURL] and the parsing step
                          of [startWithRepo] (module [Routing]).

    JavaScript numbers are IEEE 754 binary64 values.  Where the source
    only ever holds an integer of magnitude below 2^53 (counters, lengths,
    hit points, time stamps in milliseconds) the model uses [Z]; where the
    source divides or multiplies by a fraction it uses Rocq's primitive
    binary64 [float], whose operations are the ones of the JavaScript
    engine.  Strings are sequences of 8-bit code units. *)

From Stdlib Require Import ZArith Lia Bool Ascii String.
From Stdlib Require Import PrimFloat Uint63 FloatOps SpecFloat FloatAxioms.
From stdpp Require Import base option list strings gmap pretty sorting.

Local Open Scope string_scope.
Local Open Scope Z_scope.

(** ** JavaScript numbers *)

Module JS.

(** [Number(z)] for an integer [z] with [|z| < 2^63]; exact below 2^53. *)
Definition float_of_Z (z : Z) : float :=
  if z <? 0 then PrimFloat.opp (PrimFloat.of_uint63 (Uint63.of_Z (- z)))
  else PrimFloat.of_uint63 (Uint63.of_Z z).

(** [ToInt32] and [ToUint32] on an integral number. *)
Definition to_int32 (z : Z) : Z := (z + 2 ^ 31) mod 2 ^ 32 - 2 ^ 31.
Definition to_uint32 (z : Z) : Z := z mod 2 ^ 32.

(** [a ^ b]: both operands go through [ToInt32], the result is a signed
    32-bit integer. *)
Definition xor (a b : Z) : Z := to_int32 (Z.lxor (to_int32 a) (to_int32 b)).

(** [a % b] on integral numbers: the sign follows the dividend. *)
Definition rem (a b : Z) : Z := Z.rem a b.

(** [Math.min(a, b)] and [Math.max(a, b)] on binary64 values: a NaN operand
    gives NaN, and of two zeros the negative one is the smaller. *)
Definition Math_min (a b : float) : float :=
  if PrimFloat.is_nan a || PrimFloat.is_nan b then PrimFloat.nan
  else if PrimFloat.ltb a b then a
  else if PrimFloat.ltb b a then b
  else if PrimFloat.get_sign a then a else b.

Definition Math_max (a b : float) : float :=
  if PrimFloat.is_nan a || PrimFloat.is_nan b then PrimFloat.nan
  else if PrimFloat.ltb a b then b
  else if PrimFloat.ltb b a then a
  else if PrimFloat.get_sign a then b else a.

(** [Math.round(x)]: the nearest integer, a tie going towards +infinity; NaN,
    the infinities and the zeros are returned as they are, and a negative
    [x] that rounds to zero gives the negative zero. *)
Definition Math_round (x : float) : float :=
  match Prim2SF x with
  | S754_finite s m e =>
      if 0 <=? e then x
      else
        let k := - e in
        let sm := if s then Z.neg m else Z.pos m in
        let n := (2 * sm + 2 ^ k) / 2 ^ (k + 1) in
        if n =? 0 then (if s then PrimFloat.neg_zero else PrimFloat.zero)
        else float_of_Z n
  | _ => x
  end.

(** [Math.floor(x)] as an integer ([None] on NaN and the infinities). *)
Definition Math_floor (x : float) : option Z :=
  match Prim2SF x with
  | S754_zero _ => Some 0
  | S754_finite s m e =>
      let sm := if s then Z.neg m else Z.pos m in
      Some (if 0 <=? e then sm * 2 ^ e else sm / 2 ^ (- e))
  | _ => None
  end.

(** [String(x)] for the value of a [Math.round]: decimal digits for an
    integer (below 10^21 in magnitude), and the three special spellings. *)
Definition string_of_rounded (x : float) : string :=
  match Math_floor x with
  | Some n => pretty n
  | None =>
      if PrimFloat.is_nan x then "NaN"
      else if PrimFloat.ltb x PrimFloat.zero then "-Infinity" else "Infinity"
  end.

End JS.

(** ** Strings and the regular expressions of the sources *)

Module Str.

Definition chars (s : string) : list ascii := list_ascii_of_string s.

Definition map_chars (f : ascii -> ascii) (s : string) : string :=
  string_of_list_ascii (List.map f (chars s)).

(** [ch.toLowerCase()] on a code unit below 256: A-Z, and the Latin-1
    capitals 0xC0-0xDE but for the multiplication sign 0xD7. *)
Definition lower_char (c : ascii) : ascii :=
  let n := N_of_ascii c in
  if ((65 <=? n) && (n <=? 90))%N then ascii_of_N (n + 32)
  else if ((192 <=? n) && (n <=? 222) && negb (n =? 215))%N then ascii_of_N (n + 32)
  else c.

Definition toLowerCase (s : string) : string := map_chars lower_char s.

(** The case folding of the [i] flag, as far as a pattern of ASCII letters
    can see it: only A-Z and a-z are identified (a code unit of 128 or more
    is never folded onto an ASCII one). *)
Definition fold_char (c : ascii) : ascii :=
  let n := N_of_ascii c in
  if ((65 <=? n) && (n <=? 90))%N then ascii_of_N (n + 32) else c.

Definition fold_case (s : string) : string := map_chars fold_char s.

Definition is_digit (c : ascii) : bool :=
  let n := N_of_ascii c in ((48 <=? n) && (n <=? 57))%N.

(** The patterns of the sources are alternatives of sequences of literal
    characters and [\d]. *)
Inductive atom : Type :=
  | Chr (c : ascii)
  | Dig.

Definition atom_matches (a : atom) (c : ascii) : bool :=
  match a with
  | Chr c' => bool_decide (c' = c)
  | Dig => is_digit c
  end.

Fixpoint match_here (p : list atom) (s : string) : bool :=
  match p with
  | [] => true
  | a :: p' =>
      match s with
      | EmptyString => false
      | String c s' => atom_matches a c && match_here p' s'
      end
  end.

Fixpoint search (p : list atom) (s : string) : bool :=
  match_here p s ||
  match s with
  | EmptyString => false
  | String _ s' => search p s'
  end.

Definition lit (s : string) : list atom := List.map Chr (chars s).

(** [/a|b|c/.test(s)] *)
Definition test (alts : list (list atom)) (s : string) : bool :=
  existsb (fun p => search p s) alts.

(** [/a|b|c/i.test(s)], the alternatives written in lower case. *)
Definition test_i (alts : list (list atom)) (s : string) : bool :=
  test alts (fold_case s).

(** [s.slice(0, n)] *)
Definition slice0 (n : nat) (s : string) : string := String.substring 0 n s.

Definition strlen (s : string) : Z := Z.of_nat (String.length s).

End Str.

(** ** github.js: commit records and [analyzeCommits] *)

Module Github.

Record Author : Type := mkAuthor {
  name : string;
  login : option string;     (* [null] when GitHub knows no account *)
  avatar : option string;
}.

(** The [date] property is a [Date] object when [parseCommit] builds the
    record, and an ISO 8601 string once the record has been through JSON. *)
Inductive DateField : Type :=
  | DateObject (ms : Z)
  | DateString (iso : string).

(** What [parseCommit] returns.  ([stats] is always [null] and is left out.) *)
Record CommitRecord : Type := mkCommit {
  sha : string;
  shortSha : string;
  message : string;
  subject : string;
  body : string;
  author : Author;
  date : DateField;
  hour : nat;
  dayOfWeek : nat;
  timestamp : Z;
}.

Record MusicParams : Type := mkMusic {
  bpm : float;
  voices : Z;
  mode : string;
  complexity : float;
  energy : float;
}.

Record CommitAnalysis : Type := mkAnalysis {
  totalCommits : Z;
  authors : list string;
  authorCount : Z;
  peakHour : Z;
  avgMsgLen : float;
  fixRatio : float;
  featRatio : float;
  refactorRatio : float;
  commitsPerDay : float;
  daySpan : float;
  hashSeed : Z;
  music : MusicParams;
}.

(** [[...new Set(xs)]]: the distinct elements, in the order of their first
    occurrence. *)
Definition uniq (xs : list string) : list string :=
  fold_left (fun seen x => if bool_decide (x ∈ seen) then seen else (seen ++ [x])%list) xs [].

(** A cell of the [hourCounts] array: a count, or [None] for what
    [Math.max] reads as NaN (a hole, or the [undefined + 1] that
    [hourCounts[h]++] stores at an index the array does not have). *)
Definition bump (h : nat) (cells : list (option Z)) : list (option Z) :=
  if bool_decide (h < length cells)%nat
  then alter (fmap Z.succ) h cells
  else (cells ++ replicate (h - length cells) None ++ [None])%list.

(** [Math.max(...cells)]; [None] is NaN.  The counts are not negative, so
    -1 stands for the -Infinity that [Math.max] starts from. *)
Definition max_cells (cells : list (option Z)) : option Z :=
  fold_left (fun acc c =>
               match acc, c with
               | Some a, Some n => Some (Z.max a n)
               | _, _ => None
               end) cells (Some (-1)).

(** [cells.indexOf(v)]: strict equality, so NaN is never found. *)
Fixpoint index_from (i : Z) (v : Z) (cells : list (option Z)) : Z :=
  match cells with
  | [] => -1
  | c :: cells' => if bool_decide (c = Some v) then i else index_from (i + 1) v cells'
  end.

Definition indexOf (v : option Z) (cells : list (option Z)) : Z :=
  match v with
  | Some n => index_from 0 n cells
  | None => -1
  end.

(** [parseInt(s, 16)]: leading white space, a sign, an optional [0x], then
    the longest run of hexadecimal digits; [None] is NaN. *)
Definition hex_digit (c : ascii) : option Z :=
  let n := Z.of_N (N_of_ascii c) in
  if (48 <=? n) && (n <=? 57) then Some (n - 48)
  else if (97 <=? n) && (n <=? 102) then Some (n - 87)
  else if (65 <=? n) && (n <=? 70) then Some (n - 55)
  else None.

Fixpoint hex_run (acc : option Z) (s : string) : option Z :=
  match s with
  | EmptyString => acc
  | String c s' =>
      match hex_digit c with
      | Some d => hex_run (Some (16 * default 0 acc + d)) s'
      | None => acc
      end
  end.

Definition is_space (c : ascii) : bool :=
  let n := N_of_ascii c in
  (((9 <=? n) && (n <=? 13)) || (n =? 32) || (n =? 160))%N.

Fixpoint trim_start (s : string) : string :=
  match s with
  | String c s' => if is_space c then trim_start s' else s
  | EmptyString => s
  end.

Definition parseInt16 (s : string) : option Z :=
  let s1 := trim_start s in
  let '(neg, s2) :=
    match s1 with
    | String "-" r => (true, r)
    | String "+" r => (false, r)
    | _ => (false, s1)
    end in
  let s3 :=
    match s2 with
    | String "0" (String "x" r) => r
    | String "0" (String "X" r) => r
    | _ => s2
    end in
  (fun n => if neg : bool then - n else n) <$> hex_run None s3.

(** A NaN operand of [^] counts as 0. *)
Definition nan_to_zero (v : option Z) : Z := default 0 v.

Definition fix_like : list (list Str.atom) :=
  [Str.lit "fix"; Str.lit "bug"; Str.lit "patch"; Str.lit "hotfix"].
Definition feat_like : list (list Str.atom) :=
  [Str.lit "feat"; Str.lit "add"; Str.lit "new"; Str.lit "implement"].
Definition refactor_like : list (list Str.atom) :=
  [Str.lit "refactor"; Str.lit "clean"; Str.lit "improve"; Str.lit "update"].

Definition count (p : CommitRecord -> bool) (commits : list CommitRecord) : Z :=
  Z.of_nat (length (List.filter p commits)).

Definition fdiv (a b : float) : float := PrimFloat.div a b.
Definition fmul (a b : float) : float := PrimFloat.mul a b.
Definition fadd (a b : float) : float := PrimFloat.add a b.
Definition num (z : Z) : float := JS.float_of_Z z.

Definition analyzeCommits (commits : list CommitRecord) : option CommitAnalysis :=
  match commits, last commits with
  | first :: _, Some last_commit =>
      let authors := uniq (List.map (fun c => name (author c)) commits) in
      let totalCommits := Z.of_nat (length commits) in
      (* Time distribution *)
      let hourCounts :=
        fold_left (fun cells c => bump (hour c) cells) commits (replicate 24 (Some 0)) in
      let peakHour := indexOf (max_cells hourCounts) hourCounts in
      (* Message analysis *)
      let avgMsgLen :=
        fdiv (num (fold_left (fun s c => s + Str.strlen (subject c)) commits 0))
             (num totalCommits) in
      let fixCount := count (fun c => Str.test_i fix_like (subject c)) commits in
      let featCount := count (fun c => Str.test_i feat_like (subject c)) commits in
      let refactorCount := count (fun c => Str.test_i refactor_like (subject c)) commits in
      (* Commit frequency (commits per day) *)
      let oldest := timestamp last_commit in
      let newest := timestamp first in
      let daySpan :=
        JS.Math_max (num 1) (fdiv (num (newest - oldest)) (num (1000 * 60 * 60 * 24))) in
      let commitsPerDay := fdiv (num totalCommits) daySpan in
      (* Hash-based seed *)
      let hashSeed :=
        fold_left (fun acc c => JS.xor acc (nan_to_zero (parseInt16 (Str.slice0 8 (sha c)))))
                  (take 5 commits) 0 in
      Some {|
        totalCommits := totalCommits;
        authors := authors;
        authorCount := Z.of_nat (length authors);
        peakHour := peakHour;
        avgMsgLen := avgMsgLen;
        fixRatio := fdiv (num fixCount) (num totalCommits);
        featRatio := fdiv (num featCount) (num totalCommits);
        refactorRatio := fdiv (num refactorCount) (num totalCommits);
        commitsPerDay := commitsPerDay;
        daySpan := daySpan;
        hashSeed := hashSeed;
        music := {|
          bpm := JS.Math_round (fadd (num 60) (JS.Math_min (num 80) (fmul commitsPerDay (num 8))));
          voices := Z.min 4 (Z.max 1 (Z.of_nat (length authors)));
          mode := if (6 <=? peakHour) && (peakHour <=? 18) then "major" else "minor";
          complexity :=
            JS.Math_min (num 1)
              (fmul (fdiv (num (fixCount + refactorCount)) (num (Z.max 1 totalCommits))) (num 3));
          energy := JS.Math_min (num 1) (fdiv commitsPerDay (num 10));
        |};
      |}
  | _, _ => None   (* [if (!commits.length) return null] *)
  end.

(** The [hashSeed] of [analyzeCommits], on its own: the fold of [^] over the
    first five commits. *)
Definition seed_of (cs : list CommitRecord) : Z :=
  fold_left (fun acc c => JS.xor acc (nan_to_zero (parseInt16 (Str.slice0 8 (sha c)))))
            (take 5 cs) 0.

End Github.

(** ** music-engine.js: the seeded generator and the root pitch class *)

Module Music.

Definition ROOTS : list string :=
  ["C"; "C#"; "D"; "D#"; "E"; "F"; "F#"; "G"; "G#"; "A"; "A#"; "B"].

(** [arr[i]] for an integral number [i]: [undefined] ([None]) outside the
    array, in particular at a negative index. *)
Definition at_index {A} (arr : list A) (i : Z) : option A :=
  if i <? 0 then None else arr !! Z.to_nat i.

Record SeededRNG : Type := mkRNG { seed : Z }.

(** [constructor(seed) { this.seed = seed >>> 0; }] *)
Definition new_SeededRNG (s : Z) : SeededRNG := {| seed := JS.to_uint32 s |}.

(** [next()]: the new generator and the value returned.  The product and
    the sum stay below 2^53 (lemma [next_is_exact]), so the binary64
    arithmetic of the source computes them without rounding. *)
Definition next_seed (s : Z) : Z := JS.to_uint32 (s * 1664525 + 1013904223).

Definition next (r : SeededRNG) : SeededRNG * float :=
  let s' := next_seed (seed r) in
  ({| seed := s' |}, PrimFloat.div (JS.float_of_Z s') (JS.float_of_Z 4294967295)).

(** [nextInt(min, max)] and [pick(arr)] *)
Definition nextInt (lo hi : Z) (r : SeededRNG) : SeededRNG * option Z :=
  let '(r', x) := next r in
  (r', (fun n => n + lo) <$> JS.Math_floor (PrimFloat.mul x (JS.float_of_Z (hi - lo + 1)))).

Definition pick {A} (arr : list A) (r : SeededRNG) : SeededRNG * option A :=
  let '(r', i) := nextInt 0 (Z.of_nat (length arr) - 1) r in
  (r', i ≫= at_index arr).

(** The value returned by the [n]-th call of [next()]. *)
Fixpoint nth_next (n : nat) (r : SeededRNG) : float :=
  match n with
  | O => snd (next r)
  | S n' => nth_next n' (fst (next r))
  end.

(** The key chosen by [init(style, analysis)]:
    [rootIdx = analysis.hashSeed % 12; root = ROOTS[rootIdx]]. *)
Definition rootIdx (a : Github.CommitAnalysis) : Z := JS.rem (Github.hashSeed a) 12.
Definition root (a : Github.CommitAnalysis) : option string := at_index ROOTS (rootIdx a).

End Music.

(** ** The data the story engine holds *)

Module Model.

(** The style tag; [other] is any tag that has no entry in the style tables
    of the sources, which then fall back to the [dnd] entry. *)
Inductive Style : Type := dnd | scifi | horror | other.

Record Repo : Type := mkRepo { owner : string; repo_name : string }.

Record Choice : Type := mkChoice { label : string; text : string }.

(** [isEpilogue] is present (and true) on the epilogue scene only. *)
Record Scene : Type := mkScene {
  narrative : string;
  choices : list Choice;
  isEpilogue : bool;
}.

(** A property that an object literal sets to the value of an expression:
    it holds that value, or it holds [undefined].  Once the object has been
    through JSON a property that held [undefined] is not there any more;
    reading it still gives [undefined], while [in], [Object.keys] and a deep
    comparison tell the two apart. *)
Inductive Property (A : Type) : Type :=
  | Missing
  | HoldsUndefined
  | Holds (a : A).
Arguments Missing {A}.
Arguments HoldsUndefined {A}.
Arguments Holds {A} a.

(** The property set to a value that may be [undefined] ([None]). *)
Definition held {A} (v : option A) : Property A :=
  match v with
  | Some a => Holds a
  | None => HoldsUndefined
  end.

(** The value read from a property. *)
Definition read {A} (p : Property A) : option A :=
  match p with
  | Holds a => Some a
  | _ => None
  end.

(** [{ narrative, choice, commitSha }] *)
Record HistoryEntry : Type := mkEntry {
  h_narrative : string;
  h_choice : Property string;
  h_commitSha : Property string;
}.

Record QuestEntry : Type := mkQuest { q_text : string; q_chapter : Z }.

(** A JavaScript value the engine stores but never looks into (the
    [analysis] argument of [startGame]). *)
#[warnings="-register-all"]
Inductive Value : Type :=
  | Undefined
  | Null
  | Bool (b : bool)
  | Num (x : float)
  | Int (n : Z)                 (* an integral number, |n| < 2^53 *)
  | Str (s : string)
  | DateV (ms : Z)
  | Arr (items : list Value)
  | Obj (props : list (string * Value)).

Record GameState : Type := mkState {
  repo : Repo;
  style : Style;
  commits : list Github.CommitRecord;
  analysis : Value;
  commitIndex : Z;
  chapter : Z;
  hp : Z;
  maxHp : Z;
  xp : Z;
  level : Z;
  inventory : list string;
  questLog : list QuestEntry;
  history : list HistoryEntry;
  currentScene : option Scene;
  startedAt : Z;
  savedAt : option Z;           (* [null] until the first save *)
}.

Definition set_commitIndex (v : Z) (s : GameState) : GameState :=
  mkState (repo s) (style s) (commits s) (analysis s) v (chapter s) (hp s) (maxHp s)
          (xp s) (level s) (inventory s) (questLog s) (history s) (currentScene s)
          (startedAt s) (savedAt s).
Definition set_chapter (v : Z) (s : GameState) : GameState :=
  mkState (repo s) (style s) (commits s) (analysis s) (commitIndex s) v (hp s) (maxHp s)
          (xp s) (level s) (inventory s) (questLog s) (history s) (currentScene s)
          (startedAt s) (savedAt s).
Definition set_hp (v : Z) (s : GameState) : GameState :=
  mkState (repo s) (style s) (commits s) (analysis s) (commitIndex s) (chapter s) v (maxHp s)
          (xp s) (level s) (inventory s) (questLog s) (history s) (currentScene s)
          (startedAt s) (savedAt s).
Definition set_maxHp (v : Z) (s : GameState) : GameState :=
  mkState (repo s) (style s) (commits s) (analysis s) (commitIndex s) (chapter s) (hp s) v
          (xp s) (level s) (inventory s) (questLog s) (history s) (currentScene s)
          (startedAt s) (savedAt s).
Definition set_xp (v : Z) (s : GameState) : GameState :=
  mkState (repo s) (style s) (commits s) (analysis s) (commitIndex s) (chapter s) (hp s) (maxHp s)
          v (level s) (inventory s) (questLog s) (history s) (currentScene s)
          (startedAt s) (savedAt s).
Definition set_level (v : Z) (s : GameState) : GameState :=
  mkState (repo s) (style s) (commits s) (analysis s) (commitIndex s) (chapter s) (hp s) (maxHp s)
          (xp s) v (inventory s) (questLog s) (history s) (currentScene s)
          (startedAt s) (savedAt s).
Definition set_inventory (v : list string) (s : GameState) : GameState :=
  mkState (repo s) (style s) (commits s) (analysis s) (commitIndex s) (chapter s) (hp s) (maxHp s)
          (xp s) (level s) v (questLog s) (history s) (currentScene s)
          (startedAt s) (savedAt s).
Definition set_questLog (v : list QuestEntry) (s : GameState) : GameState :=
  mkState (repo s) (style s) (commits s) (analysis s) (commitIndex s) (chapter s) (hp s) (maxHp s)
          (xp s) (level s) (inventory s) v (history s) (currentScene s)
          (startedAt s) (savedAt s).
Definition set_history (v : list HistoryEntry) (s : GameState) : GameState :=
  mkState (repo s) (style s) (commits s) (analysis s) (commitIndex s) (chapter s) (hp s) (maxHp s)
          (xp s) (level s) (inventory s) (questLog s) v (currentScene s)
          (startedAt s) (savedAt s).
Definition set_currentScene (v : option Scene) (s : GameState) : GameState :=
  mkState (repo s) (style s) (commits s) (analysis s) (commitIndex s) (chapter s) (hp s) (maxHp s)
          (xp s) (level s) (inventory s) (questLog s) (history s) v
          (startedAt s) (savedAt s).
Definition set_savedAt (v : option Z) (s : GameState) : GameState :=
  mkState (repo s) (style s) (commits s) (analysis s) (commitIndex s) (chapter s) (hp s) (maxHp s)
          (xp s) (level s) (inventory s) (questLog s) (history s) (currentScene s)
          (startedAt s) v.

(** How the analyzer's result sits in memory: the object literal that
    [analyzeCommits] returns, property by property. *)
Definition value_of_analysis (a : Github.CommitAnalysis) : Value :=
  Obj [ ("totalCommits", Int (Github.totalCommits a));
        ("authors", Arr (List.map Str (Github.authors a)));
        ("authorCount", Int (Github.authorCount a));
        ("peakHour", Int (Github.peakHour a));
        ("avgMsgLen", Num (Github.avgMsgLen a));
        ("fixRatio", Num (Github.fixRatio a));
        ("featRatio", Num (Github.featRatio a));
        ("refactorRatio", Num (Github.refactorRatio a));
        ("commitsPerDay", Num (Github.commitsPerDay a));
        ("daySpan", Num (Github.daySpan a));
        ("hashSeed", Int (Github.hashSeed a));
        ("music", Obj [ ("bpm", Num (Github.bpm (Github.music a)));
                        ("voices", Int (Github.voices (Github.music a)));
                        ("mode", Str (Github.mode (Github.music a)));
                        ("complexity", Num (Github.complexity (Github.music a)));
                        ("energy", Num (Github.energy (Github.music a))) ]) ].

(** [analyzeCommits(commits)] as the caller stores it: [null] for no commits. *)
Definition analysis_value (r : option Github.CommitAnalysis) : Value :=
  match r with
  | Some a => value_of_analysis a
  | None => Null
  end.

End Model.

(** ** JSON: what [JSON.parse(JSON.stringify(x))] makes of a value *)

Module Json.
Import Model.

(** Decimal digits of [n >= 0], padded with zeros on the left to [w]. *)
Definition pad (w : nat) (n : Z) : string :=
  let d := pretty n in
  string_of_list_ascii (replicate (w - String.length d) "0"%char) ++ d.

(** Year, month and day of the proleptic Gregorian calendar for a day
    number counted from 1970-01-01. *)
Definition civil_from_days (z0 : Z) : Z * Z * Z :=
  let z := z0 + 719468 in
  let era := z / 146097 in
  let doe := z - era * 146097 in
  let yoe := (doe - doe / 1460 + doe / 36524 - doe / 146096) / 365 in
  let doy := doe - (365 * yoe + yoe / 4 - yoe / 100) in
  let mp := (5 * doy + 2) / 153 in
  let d := doy - (153 * mp + 2) / 5 + 1 in
  let m := if mp <? 10 then mp + 3 else mp - 9 in
  let y := yoe + era * 400 + (if m <=? 2 then 1 else 0) in
  (y, m, d).

(** [new Date(ms).toISOString()], which is what [JSON.stringify] writes
    for a [Date]. *)
Definition toISOString (ms : Z) : string :=
  let days := ms / 86400000 in
  let r := ms mod 86400000 in
  let '(y, m, d) := civil_from_days days in
  let year :=
    if (0 <=? y) && (y <=? 9999) then pad 4 y
    else (if y <? 0 then "-" else "+") ++ pad 6 (Z.abs y) in
  year ++ "-" ++ pad 2 m ++ "-" ++ pad 2 d ++ "T" ++
  pad 2 (r / 3600000) ++ ":" ++ pad 2 (r / 60000 mod 60) ++ ":" ++
  pad 2 (r / 1000 mod 60) ++ "." ++ pad 3 (r mod 1000) ++ "Z".

Definition is_finite (x : float) : bool :=
  negb (PrimFloat.is_nan x) && negb (PrimFloat.is_infinity x).

(** A number: NaN and the infinities are written as [null], the negative
    zero as [0]; every other binary64 value is read back as it was. *)
Definition number (x : float) : Value :=
  if is_finite x then Num (if PrimFloat.is_zero x then PrimFloat.zero else x) else Null.

(** A value: a [Date] comes back as its ISO string; [undefined] is written
    as [null] inside an array and drops its property inside an object. *)
Fixpoint roundtrip (v : Value) : Value :=
  match v with
  | Num x => number x
  | DateV ms => Str (toISOString ms)
  | Arr items =>
      Arr (List.map (fun e => match e with Undefined => Null | _ => roundtrip e end) items)
  | Obj props =>
      Obj (List.flat_map
             (fun kv => match snd kv with
                        | Undefined => []
                        | _ => [(fst kv, roundtrip (snd kv))]
                        end) props)
  | _ => v
  end.

Definition date_field (d : Github.DateField) : Github.DateField :=
  match d with
  | Github.DateObject ms => Github.DateString (toISOString ms)
  | Github.DateString s => Github.DateString s
  end.

Definition commit (c : Github.CommitRecord) : Github.CommitRecord :=
  Github.mkCommit (Github.sha c) (Github.shortSha c) (Github.message c) (Github.subject c)
                  (Github.body c) (Github.author c) (date_field (Github.date c))
                  (Github.hour c) (Github.dayOfWeek c) (Github.timestamp c).

(** A property of an object: one that holds [undefined] is not written. *)
Definition property {A} (p : Property A) : Property A :=
  match p with
  | HoldsUndefined => Missing
  | _ => p
  end.

(** An entry of [history]: [choice] is [undefined] when the selection was no
    choice of the scene, [commitSha] when the game has no commits. *)
Definition history_entry (e : HistoryEntry) : HistoryEntry :=
  mkEntry (h_narrative e) (property (h_choice e)) (property (h_commitSha e)).

(** The game state: strings, integers, [null]s and booleans are read back
    as they were written, so only the commits' dates, the properties of the
    history entries that held [undefined] and the opaque [analysis]
    change. *)
Definition game_state (s : GameState) : GameState :=
  mkState (repo s) (style s) (List.map commit (commits s)) (roundtrip (analysis s))
          (commitIndex s) (chapter s) (hp s) (maxHp s) (xp s) (level s) (inventory s)
          (questLog s) (List.map history_entry (history s)) (currentScene s) (startedAt s)
          (savedAt s).

End Json.

(** ** storage.js: the save slots of [localStorage] *)

Module Storage.
Import Model.

Definition SAVE_PREFIX : string := "gitquest:save:".

(** The part of [localStorage] under [SAVE_PREFIX]: only [saveGame] writes
    there, so every item is the JSON text of a game state, which the model
    keeps as the state that text parses to.  ([setItem] is taken not to run
    out of quota.) *)
Abbreviation Store := (gmap string GameState).

(** [saveGame(slot, state)], [now] being the [Date.now()] it reads:
    [setItem(key, JSON.stringify({ ...state, savedAt: Date.now() }))]. *)
Definition saveGame (slot : string) (st : GameState) (now : Z) (ls : Store) : Store :=
  <[SAVE_PREFIX ++ slot := Json.game_state (set_savedAt (Some now) st)]> ls.

(** [loadGame(slot)]: [null] ([None]) when the slot holds nothing. *)
Definition loadGame (slot : string) (ls : Store) : option GameState :=
  ls !! (SAVE_PREFIX ++ slot).

End Storage.

(** ** ai-engine.js: the deterministic fallback producer *)

Module Fallback.
Import Model.

Definition quote : string := String (ascii_of_nat 34) EmptyString.

(** A result of [Math.random()]: a binary64 number in [0, 1). *)
Definition in01 (r : float) : bool := PrimFloat.leb 0%float r && PrimFloat.ltb r 1%float.

Record Draw : Type := mkDraw { draw : float; draw_range : in01 draw = true }.

(** [Math.floor(r * n)], the product being the binary64 one.  The product of
    a draw and of a length is a finite number, so that [Math.floor] has a
    value ([floor_mul_defined] below shows it for the lengths the engine
    uses). *)
Definition floor_mul (r : Draw) (n : Z) : Z :=
  default 0 (JS.Math_floor (PrimFloat.mul (draw r) (JS.float_of_Z n))).

(** [Math.round(80 + r * 20)] *)
Definition integrity (r : Draw) : float :=
  JS.Math_round (PrimFloat.add (JS.float_of_Z 80) (PrimFloat.mul (draw r) (JS.float_of_Z 20))).

Definition pickClass (c : Github.CommitRecord) : string :=
  let msg := Str.toLowerCase (Github.subject c) in
  if Str.test [Str.lit "fix"; Str.lit "bug"] msg then "Paladin"
  else if Str.test [Str.lit "feat"; Str.lit "add"] msg then "Wizard"
  else if Str.test [Str.lit "refactor"] msg then "Druid"
  else if Str.test [Str.lit "test"] msg then "Ranger"
  else if Str.test [Str.lit "doc"] msg then "Bard"
  else "Adventurer".

Definition percent (i total : nat) : string :=
  JS.string_of_rounded
    (JS.Math_round
       (PrimFloat.mul (PrimFloat.div (JS.float_of_Z (Z.of_nat i)) (JS.float_of_Z (Z.of_nat total)))
                      (JS.float_of_Z 100))).

Section Templates.
Variables (c : Github.CommitRecord) (i total : nat) (r : Draw).

Let subject := Github.subject c.
Let name := Github.name (Github.author c).

Definition templates_dnd : list string :=
  [ "The ancient chronicles speak of " ++ quote ++ subject ++ quote ++ ". " ++ name ++
    " the " ++ pickClass c ++ " stands at a crossroads, their quest " ++ percent i total ++
    "% complete. The realm holds its breath.";
    "A great deed was wrought this day: " ++ quote ++ subject ++ quote ++ ". The wizard " ++
    name ++ " has altered the very fabric of the realm. Dark forces stir in response.";
    "The guild records note that " ++ name ++ " has completed " ++ quote ++ subject ++ quote ++
    ". Heroes gather to decide the next course of action." ].

Definition templates_scifi : list string :=
  [ "MISSION LOG " ++ pretty (Z.of_nat i + 1) ++ "/" ++ pretty (Z.of_nat total) ++
    ": Crew member " ++ name ++ " reports: " ++ quote ++ subject ++ quote ++
    ". Ship systems nominal. Awaiting orders.";
    "ALERT: " ++ name ++ " has executed protocol " ++ quote ++ subject ++ quote ++
    ". System integrity at " ++ JS.string_of_rounded (integrity r) ++
    "%. Multiple response vectors available.";
    "TRANSMISSION RECEIVED from " ++ name ++ ": " ++ quote ++ subject ++ quote ++
    ". The crew awaits your command, Captain." ].

Definition templates_horror : list string :=
  [ "The log entry reads, in " ++ name ++ "'s trembling hand: " ++ quote ++ subject ++ quote ++
    ". Something has changed. You can feel it in the walls.";
    name ++ " did something. The entry says " ++ quote ++ subject ++ quote ++
    ". That was three days ago. No one has seen them since.";
    "You find a note: " ++ quote ++ subject ++ quote ++ " — signed by " ++ name ++
    ". The ink is still fresh. Or is that something else?" ].

(** [templates[style] || templates.dnd] *)
Definition templates (st : Style) : list string :=
  match st with
  | scifi => templates_scifi
  | horror => templates_horror
  | dnd | other => templates_dnd
  end.
End Templates.

(** [choiceSets[style] || choiceSets.dnd] *)
Definition choiceSets (st : Style) : list Choice :=
  match st with
  | scifi =>
      [ mkChoice "A" "Execute primary mission objective";
        mkChoice "B" "Run diagnostics and assess the situation";
        mkChoice "C" "Contact command for further instructions" ]
  | horror =>
      [ mkChoice "A" "Go deeper. You need to know the truth.";
        mkChoice "B" "Stay where you are. Moving feels wrong.";
        mkChoice "C" "Try to leave. While you still can." ]
  | dnd | other =>
      [ mkChoice "A" "Draw your sword and face what lies ahead";
        mkChoice "B" "Consult the ancient scrolls for guidance";
        mkChoice "C" "Seek allies before proceeding" ]
  end.

(** [generateFallbackScene({ commit, style, currentCommitIndex, total })],
    given the one [Math.random()] its templates read.  [None] is the
    [TypeError] of reading [commit.subject] on an [undefined] commit.  The
    index is the position of [commit] in the list, hence a natural number;
    [pool[i % pool.length]] is then always an element of the pool. *)
Definition generateFallbackScene
    (commit : option Github.CommitRecord) (st : Style) (currentCommitIndex total : nat)
    (r : Draw) : option Scene :=
  match commit with
  | None => None
  | Some c =>
      let pool := templates c currentCommitIndex total r st in
      match pool !! (currentCommitIndex mod length pool)%nat with
      | Some narrative => Some (mkScene narrative (choiceSets st) false)
      | None => None
      end
  end.

End Fallback.

(** ** story-engine.js: the game state machine *)

Module Story.
Import Model Fallback.

(** What [await aiEngine.generateScene(...)] comes back with: the scene that
    [parseAIResponse] made of the model's answer, or an exception (no
    engine, no network, an answer that cannot be read; in local mode the
    [catch] of [generateViaLocal] calls [generateFallbackScene] with the two
    prompts for arguments, which throws in its turn). *)
Inductive AIOutcome : Type :=
  | AIReturns (narrative : string) (choices : list Choice)
  | AIThrows.

(** The argument of [makeChoice].  [renderChoices] in ui.js calls its
    [onChoice] with the position of the button that was pressed
    ([onChoice(i)]) or with the text typed into the free-text field
    ([onChoice(text)]), and [onChoiceMade] in app.js hands either to
    [storyEngine.makeChoice]. *)
Inductive Selection : Type :=
  | SelIndex (i : Z)
  | SelText (t : string).

(** What the observers ([onSceneReady], [onStatsUpdate], [onQuestUpdate])
    are sent once the page has installed them, and what the narrative
    producer is asked. *)
Inductive Event : Type :=
  | SceneRequested (index : Z) (playerChoice : option string)
  | SceneReady (sc : Scene) (c : option Github.CommitRecord)
  | StatsUpdate (hp maxHp xp level : Z) (inventory : list string)
  | QuestUpdate (quests : list QuestEntry).

(** An asynchronous method that waits for the narrative producer. *)
Inductive Task : Type := StartGameTask | MakeChoiceTask.

(** The engine object, the browser around it ([localStorage], the stream
    of [Math.random()] results, the stream of [Date.now()] readings) and
    the call that is suspended at its [await], if any. *)
Record Sys : Type := mkSys {
  state : option GameState;             (* [this.state] *)
  generating : bool;                    (* [this.generating] *)
  suspended : option Task;
  localStorage : gmap string GameState;
  rand : nat -> Draw;
  rand_pos : nat;
  clock : nat -> Z;
  clock_pos : nat;
  log : list Event;                     (* most recent last *)
}.

(** *** Statements: state passing with exceptions; what a statement did to
    the state before it threw stays done. *)

Inductive Result (A : Type) : Type :=
  | Ok (a : A)
  | Throw (err : string).
Arguments Ok {A} a.
Arguments Throw {A} err.

Definition M (A : Type) : Type := Sys -> Result A * Sys.

Definition ret {A} (a : A) : M A := fun σ => (Ok a, σ).

Definition bind {A B} (m : M A) (k : A -> M B) : M B :=
  fun σ => match m σ with
           | (Ok a, σ') => k a σ'
           | (Throw e, σ') => (Throw e, σ')
           end.

Definition throw {A} (e : string) : M A := fun σ => (Throw e, σ).

(** [try { m } finally { f }] *)
Definition finally {A} (m : M A) (f : Sys -> Sys) : M A :=
  fun σ => let '(r, σ') := m σ in (r, f σ').

Notation "'let*' x ':=' m 'in' k" := (bind m (fun x => k))
  (at level 10, x name, m at level 100, k at level 200).
Notation "m ';;' k" := (bind m (fun _ => k))
  (at level 100, k at level 200, right associativity).

Definition get : M Sys := fun σ => (Ok σ, σ).
Definition modify (f : Sys -> Sys) : M unit := fun σ => (Ok tt, f σ).

Definition with_state (v : option GameState) (σ : Sys) : Sys :=
  mkSys v (generating σ) (suspended σ) (localStorage σ) (rand σ) (rand_pos σ)
        (clock σ) (clock_pos σ) (log σ).
Definition with_generating (v : bool) (σ : Sys) : Sys :=
  mkSys (state σ) v (suspended σ) (localStorage σ) (rand σ) (rand_pos σ)
        (clock σ) (clock_pos σ) (log σ).
Definition with_suspended (v : option Task) (σ : Sys) : Sys :=
  mkSys (state σ) (generating σ) v (localStorage σ) (rand σ) (rand_pos σ)
        (clock σ) (clock_pos σ) (log σ).
Definition with_localStorage (v : gmap string GameState) (σ : Sys) : Sys :=
  mkSys (state σ) (generating σ) (suspended σ) v (rand σ) (rand_pos σ)
        (clock σ) (clock_pos σ) (log σ).
Definition with_rand_pos (v : nat) (σ : Sys) : Sys :=
  mkSys (state σ) (generating σ) (suspended σ) (localStorage σ) (rand σ) v
        (clock σ) (clock_pos σ) (log σ).
Definition with_clock_pos (v : nat) (σ : Sys) : Sys :=
  mkSys (state σ) (generating σ) (suspended σ) (localStorage σ) (rand σ) (rand_pos σ)
        (clock σ) v (log σ).
Definition with_log (v : list Event) (σ : Sys) : Sys :=
  mkSys (state σ) (generating σ) (suspended σ) (localStorage σ) (rand σ) (rand_pos σ)
        (clock σ) (clock_pos σ) v.

Definition TypeError : string := "TypeError".

(** Reading and writing [this.state.*]; a [TypeError] when [this.state] is
    [null]. *)
Definition this_state : M GameState :=
  fun σ => match state σ with
           | Some st => (Ok st, σ)
           | None => (Throw TypeError, σ)
           end.

Definition update (f : GameState -> GameState) : M unit :=
  fun σ => match state σ with
           | Some st => (Ok tt, with_state (Some (f st)) σ)
           | None => (Throw TypeError, σ)
           end.

Definition Math_random : M Draw :=
  fun σ => (Ok (rand σ (rand_pos σ)), with_rand_pos (S (rand_pos σ)) σ).

Definition Date_now : M Z :=
  fun σ => (Ok (clock σ (clock_pos σ)), with_clock_pos (S (clock_pos σ)) σ).

Definition emit (e : Event) : M unit :=
  modify (fun σ => with_log (log σ ++ [e])%list σ).

(** *** [scene.choices[choiceIndex]] *)

(** What reading a property of the [choices] array gives. *)
Inductive Looked : Type :=
  | LUndefined
  | LChoice (c : Choice)
  | LNumber (n : Z)              (* the [length] property *)
  | LInherited (name : string).  (* a method the array inherits *)

(** The property names an array inherits from [Array.prototype] and
    [Object.prototype].  The set depends on the engine: this is the one of
    ECMAScript 2025 with its Annex B; the names up to [flatMap] are there in
    every engine that runs the sources (which use optional chaining, so
    ECMAScript 2020). *)
Definition inherited_names : list string :=
  [ "constructor"; "toString"; "toLocaleString"; "valueOf"; "hasOwnProperty";
    "isPrototypeOf"; "propertyIsEnumerable"; "__proto__";
    "__defineGetter__"; "__defineSetter__"; "__lookupGetter__"; "__lookupSetter__";
    "concat"; "join"; "pop"; "push"; "reverse"; "shift"; "unshift"; "slice"; "splice";
    "sort"; "indexOf"; "lastIndexOf"; "every"; "some"; "forEach"; "map"; "filter";
    "reduce"; "reduceRight"; "find"; "findIndex"; "fill"; "copyWithin"; "entries";
    "keys"; "values"; "includes"; "flat"; "flatMap";
    "at"; "findLast"; "findLastIndex"; "toReversed"; "toSorted"; "toSpliced"; "with" ].

Fixpoint digits_value (acc : Z) (s : string) : option Z :=
  match s with
  | EmptyString => Some acc
  | String c s' =>
      if Str.is_digit c then digits_value (10 * acc + (Z.of_N (N_of_ascii c) - 48)) s'
      else None
  end.

(** A property name that is an array index: the canonical decimal spelling
    of a natural number. *)
Definition array_index (t : string) : option Z :=
  match t with
  | EmptyString => None
  | _ => match digits_value 0 t with
         | Some n => if bool_decide (pretty n = t) then Some n else None
         | None => None
         end
  end.

Definition get_property (arr : list Choice) (key : Selection) : Looked :=
  match key with
  | SelIndex i => from_option LChoice LUndefined (Music.at_index arr i)
  | SelText t =>
      match array_index t with
      | Some i => from_option LChoice LUndefined (Music.at_index arr i)
      | None =>
          if bool_decide (t = "length") then LNumber (Z.of_nat (length arr))
          else if bool_decide (t ∈ inherited_names) then LInherited t
          else LUndefined
      end
  end.

(** [!!v] *)
Definition truthy (v : Looked) : bool :=
  match v with
  | LUndefined => false
  | LChoice _ => true
  | LNumber n => negb (n =? 0)
  | LInherited _ => true
  end.

(** [v.text] *)
Definition text_of (v : Looked) : option string :=
  match v with
  | LChoice c => Some (text c)
  | _ => None
  end.

(** *** The engine *)

(** The object literal of [createInitialState], [t] being the
    [Date.now()] it reads. *)
Definition initial (rp : Repo) (st : Style) (cs : list Github.CommitRecord) (an : Value)
    (t : Z) : GameState :=
  {| repo := rp; style := st; commits := cs; analysis := an;
     commitIndex := 0; chapter := 1;
     hp := 100; maxHp := 100; xp := 0; level := 1;
     inventory := []; questLog := [];
     history := []; currentScene := None;
     startedAt := t; savedAt := None |}.

Definition createInitialState
    (rp : Repo) (st : Style) (cs : list Github.CommitRecord) (an : Value) : M GameState :=
  let* t := Date_now in
  ret (initial rp st cs an t).

Definition XP_PER_LEVEL : list Z := [0; 100; 250; 450; 700; 1000; 1400; 1900; 2500; 3200].

(** [a || b] on numbers that may be [undefined]: [b] when [a] is
    [undefined] or 0. *)
Definition or_number (a : option Z) (b : Z) : Z :=
  match a with
  | Some n => if n =? 0 then b else n
  | None => b
  end.

(** [pop()]: drops the last element. *)
Definition pop {A} (l : list A) : list A := removelast l.

Definition addQuestEntry (txt : string) : M unit :=
  update (fun s => set_questLog (mkQuest txt (chapter s) :: questLog s) s);;
  let* s := this_state in
  (if bool_decide (10 < length (questLog s))%nat
   then update (fun s => set_questLog (pop (questLog s)) s) else ret tt);;
  let* s := this_state in
  emit (QuestUpdate (questLog s)).

(** [items[style] || items.dnd] *)
Definition items (st : Style) : list string :=
  match st with
  | scifi => ["Energy Cell"; "Neural Chip"; "Plasma Rifle"; "Nano-med Kit"; "Quantum Drive"]
  | horror => ["Torn Page"; "Rusty Key"; "Strange Amulet"; "Faded Photo"; "Cracked Mirror"]
  | dnd | other =>
      ["Magic Scroll"; "Enchanted Sword"; "Ancient Tome"; "Healing Potion"; "Dragon Scale"]
  end.

(** The binary64 value the literal [0.6] denotes. *)
Definition zero_point_six : float := 0x1.3333333333333p-1%float.

(** [Math.random() > 0.6] *)
Definition above_0_6 (r : Draw) : bool := PrimFloat.ltb zero_point_six (draw r).

Definition fix_pattern : list (list Str.atom) := [Str.lit "fix"; Str.lit "bug"; Str.lit "patch"].
Definition feat_pattern : list (list Str.atom) := [Str.lit "feat"; Str.lit "add"; Str.lit "new"].
Definition refactor_pattern : list (list Str.atom) := [Str.lit "refactor"; Str.lit "clean"].
Definition release_pattern : list (list Str.atom) :=
  [Str.lit "release"; Str.lit "version"; [Str.Chr "v"; Str.Dig]].
Definition merge_pattern : list (list Str.atom) := [Str.lit "merge"].

(** [commit?.subject?.toLowerCase() || ''] *)
Definition lowered_subject (commit : option Github.CommitRecord) : string :=
  match commit with
  | Some c => Str.toLowerCase (Github.subject c)
  | None => ""
  end.

(** [index === 0 ? -10 : index === 2 ? 5 : 0]; a text is no number. *)
Definition hpDelta (index : Selection) : Z :=
  match index with
  | SelIndex 0 => -10
  | SelIndex 2 => 5
  | _ => 0
  end.

(** [this.state.commits[this.state.commitIndex]] *)
Definition current_commit (s : GameState) : option Github.CommitRecord :=
  Music.at_index (commits s) (commitIndex s).

(** [applyChoiceConsequences(choice, index)]; the source does not read
    [choice]. *)
Definition applyChoiceConsequences (choice : Looked) (index : Selection) : M unit :=
  let* s0 := this_state in
  let sty := style s0 in
  let commit := current_commit s0 in
  (* XP gain (always) *)
  let* r := Math_random in
  let xpGain := 20 + floor_mul r 30 in
  update (fun s => set_xp (xp s + xpGain) s);;
  (* Level up check *)
  let* s1 := this_state in
  let nextLevelXp := or_number (Music.at_index XP_PER_LEVEL (level s1)) 9999 in
  (if (nextLevelXp <=? xp s1) && (level s1 <? 10) then
     update (fun s => set_level (level s + 1) s);;
     update (fun s => set_maxHp (maxHp s + 10) s);;
     update (fun s => set_hp (Z.min (hp s + 20) (maxHp s)) s);;
     let* s2 := this_state in
     addQuestEntry ("Level " ++ pretty (level s2) ++ " reached!")
   else ret tt);;
  (* HP changes based on commit type *)
  let msg := lowered_subject commit in
  (if Str.test fix_pattern msg then
     update (fun s => set_hp (Z.max 1 (Z.min (maxHp s) (hp s + hpDelta index))) s)
   else ret tt);;
  (* Inventory items from notable commits *)
  (if Str.test feat_pattern msg then
     let* r2 := Math_random in
     if above_0_6 r2 then
       let pool := items sty in
       let* r3 := Math_random in
       match Music.at_index pool (floor_mul r3 (Z.of_nat (length pool))) with
       | Some item =>
           let* s3 := this_state in
           if negb (bool_decide (item ∈ inventory s3)) && bool_decide (length (inventory s3) < 8)%nat
           then update (fun s => set_inventory (inventory s ++ [item])%list s)
           else ret tt
       | None => ret tt      (* not taken: the index is within the pool *)
       end
     else ret tt
   else ret tt);;
  (* Quest log entries *)
  (if Str.test refactor_pattern msg then addQuestEntry "The Great Restructuring begins..."
   else ret tt);;
  (if Str.test release_pattern msg then addQuestEntry "A new era dawns!" else ret tt);;
  (if Str.test merge_pattern msg then addQuestEntry "Factions united (or divided)" else ret tt);;
  (* Notify UI *)
  let* s := this_state in
  emit (StatsUpdate (hp s) (maxHp s) (xp s) (level s) (inventory s)).

(** *** Saving and loading *)

Definition saveGame (slot : string) : M unit :=
  let* σ := get in
  match state σ with
  | None => ret tt
  | Some _ =>
      let* t := Date_now in
      update (set_savedAt (Some t));;
      let* s := this_state in
      let* now := Date_now in
      modify (fun σ => with_localStorage (Storage.saveGame slot s now (localStorage σ)) σ)
  end.

Definition loadGame (slot : string) : M GameState :=
  let* σ := get in
  match Storage.loadGame slot (localStorage σ) with
  | None => throw "Save not found"
  | Some saved => modify (with_state (Some saved));; ret saved
  end.

(** *** Scenes *)

(** [aiEngine.generateScene] reads [commits[currentCommitIndex] || commits[0]]
    and builds the prompt from it before it asks the model, so with no
    commits it throws whatever the model would have said. *)
Definition generateScene (cs : list Github.CommitRecord) (answer : AIOutcome) : AIOutcome :=
  match cs with
  | [] => AIThrows
  | _ => answer
  end.

(** [generateNextScene], up to its [await]: [false] when the guard returned
    at once, [true] when the producer has been asked. *)
Definition generateNextScene_request (playerChoice : option string) : M bool :=
  let* σ := get in
  if generating σ then ret false
  else
    modify (with_generating true);;
    let* σ1 := get in
    match state σ1 with
    | None =>
        (* [this.state.commits] throws in the [try] and again in the
           [catch]; the [finally] clears the flag *)
        modify (with_generating false);; throw TypeError
    | Some s => emit (SceneRequested (commitIndex s) playerChoice);; ret true
    end.

(** The inner [try]/[catch] once the producer has answered. *)
Definition produced_scene (answer : AIOutcome) : M Scene :=
  let* s := this_state in
  match generateScene (commits s) answer with
  | AIReturns n cs => ret (mkScene n cs false)
  | AIThrows =>
      match current_commit s with
      | None => throw TypeError
      | Some c =>
          let* r := Math_random in
          match generateFallbackScene (Some c) (style s) (Z.to_nat (commitIndex s))
                                      (length (commits s)) r with
          | Some sc => ret sc
          | None => throw TypeError
          end
      end
  end.

(** [generateNextScene] from its [await] on. *)
Definition generateNextScene_resume (answer : AIOutcome) : M unit :=
  finally
    (let* scene := produced_scene answer in
     update (set_currentScene (Some scene));;
     let* s := this_state in
     emit (SceneReady scene (current_commit s)))
    (with_generating false).

Definition epilogue_text (s : GameState) : string :=
  let n := pretty (Z.of_nat (length (commits s))) in
  match style s with
  | scifi =>
      "MISSION COMPLETE. All " ++ n ++ " mission logs have been processed. The ship's journey is recorded in the annals of the fleet. Your decisions have shaped the future of the crew. Final Status: HP " ++
      pretty (hp s) ++ "/" ++ pretty (maxHp s) ++ " | Rank: " ++ pretty (level s) ++
      " | Merit: " ++ pretty (xp s)
  | horror =>
      "It's over. Or is it? You've witnessed all " ++ n ++ " events in this cursed repository. You survived. Most don't. The code remains. It always remains. HP: " ++
      pretty (hp s) ++ "/" ++ pretty (maxHp s) ++ " | Sanity: " ++ pretty (level s * 10) ++ "%"
  | dnd | other =>
      "The chronicles are complete. " ++ n ++ " quests have been recorded in the great tome. The realm stands transformed by your choices. Your legend will be sung for ages to come. HP: " ++
      pretty (hp s) ++ "/" ++ pretty (maxHp s) ++ " | Level: " ++ pretty (level s) ++
      " | XP: " ++ pretty (xp s)
  end.

Definition epilogue_choices : list Choice :=
  [ mkChoice "A" "Begin a new quest with another repository";
    mkChoice "B" "Replay this adventure with a different style";
    mkChoice "C" "Return to the beginning" ].

Definition generateEpilogue : M unit :=
  let* s := this_state in
  let scene := mkScene (epilogue_text s) epilogue_choices true in
  update (set_currentScene (Some scene));;
  emit (SceneReady scene None).

(** *** Turns *)

(** How a call of an asynchronous method stands when it gives control back. *)
Inductive Outcome : Type :=
  | Ignored      (* a guard returned at once *)
  | Epilogue     (* [makeChoice] showed the epilogue and returned *)
  | Awaiting     (* suspended at the [await] of the narrative producer *)
  | Completed.   (* ran to its end *)

(** [makeChoice(choiceIndex)] up to the [await] inside [generateNextScene]. *)
Definition makeChoice_call (choiceIndex : Selection) : M Outcome :=
  let* σ := get in
  match state σ with
  | None => ret Ignored
  | Some st =>
      if generating σ then ret Ignored
      else
        match currentScene st with
        | None => ret Ignored
        | Some scene =>
            let choice := get_property (choices scene) choiceIndex in
            if negb (truthy choice) then ret Ignored
            else
              (* Record history *)
              update (fun s =>
                        set_history
                          (history s ++ [mkEntry (narrative scene) (held (text_of choice))
                                                 (held (Github.sha <$> current_commit s))])%list
                          s);;
              (* Apply choice consequences *)
              applyChoiceConsequences choice choiceIndex;;
              (* Advance to next commit *)
              update (fun s =>
                        set_commitIndex
                          (Z.min (commitIndex s + 1) (Z.of_nat (length (commits s)) - 1)) s);;
              (* Update chapter every ~10 commits *)
              update (fun s => set_chapter (commitIndex s / 10 + 1) s);;
              (* Check end condition *)
              let* s := this_state in
              if (Z.of_nat (length (commits s)) - 1 <=? commitIndex s)
                 && bool_decide (1 < length (history s))%nat
              then generateEpilogue;; ret Epilogue
              else
                (* Generate next scene *)
                let* asked := generateNextScene_request (text_of choice) in
                if asked : bool
                then modify (with_suspended (Some MakeChoiceTask));; ret Awaiting
                else saveGame "auto";; ret Completed
        end
  end.

(** [startGame(repo, style, commits, analysis)] up to the same [await]. *)
Definition startGame_call
    (rp : Repo) (st : Style) (cs : list Github.CommitRecord) (an : Value) : M Outcome :=
  let* s := createInitialState rp st cs an in
  modify (with_state (Some s));;
  let* asked := generateNextScene_request None in
  if asked : bool
  then modify (with_suspended (Some StartGameTask));; ret Awaiting
  else ret Completed.

(** The producer answers: the suspended call runs from its [await] to its
    end ([makeChoice] then saves under the slot [auto]). *)
Definition resume (answer : AIOutcome) : M unit :=
  let* σ := get in
  match suspended σ with
  | None => ret tt
  | Some task =>
      modify (with_suspended None);;
      generateNextScene_resume answer;;
      match task with
      | MakeChoiceTask => saveGame "auto"
      | StartGameTask => ret tt
      end
  end.

(** A whole call, nothing else happening while it waits. *)
Definition makeChoice (choiceIndex : Selection) (answer : AIOutcome) : M Outcome :=
  let* o := makeChoice_call choiceIndex in
  match o with
  | Awaiting => resume answer;; ret Completed
  | _ => ret o
  end.

Definition startGame
    (rp : Repo) (st : Style) (cs : list Github.CommitRecord) (an : Value)
    (answer : AIOutcome) : M Outcome :=
  let* o := startGame_call rp st cs an in
  match o with
  | Awaiting => resume answer;; ret Completed
  | _ => ret o
  end.

(** *** Runs of the engine *)

(** What can happen to the engine, one event of the page at a time.
    (Loading a slot is not among them: what [localStorage] holds when the
    page opens is not the engine's to decide.) *)
Inductive Action : Type :=
  | Start (rp : Repo) (st : Style) (cs : list Github.CommitRecord) (an : Value)
  | Choose (choiceIndex : Selection)
  | Answer (answer : AIOutcome)
  | Save (slot : string).

Definition perform (a : Action) (σ : Sys) : Sys :=
  match a with
  | Start rp st cs an => snd (startGame_call rp st cs an σ)
  | Choose sel => snd (makeChoice_call sel σ)
  | Answer ans => snd (resume ans σ)
  | Save slot => snd (saveGame slot σ)
  end.

(** The engine as [new StoryEngine()] leaves it, in any browser. *)
Definition fresh (σ : Sys) : Prop :=
  state σ = None /\ generating σ = false /\ suspended σ = None.

Inductive reachable : Sys -> Prop :=
  | reach_fresh σ : fresh σ -> reachable σ
  | reach_step σ a : reachable σ -> reachable (perform a σ).

(** *** What a turn does, in the words of the specification *)

(** The threshold [XP_PER_LEVEL[level] || 9999] of the current level. *)
Definition nextLevelXp (s : GameState) : Z :=
  or_number (Music.at_index XP_PER_LEVEL (level s)) 9999.

(** The level-up test, on the experience after the gain. *)
Definition levels_up (xp' : Z) (s : GameState) : bool :=
  (nextLevelXp s <=? xp') && (level s <? 10).

(** The hit points after the rule on fix-like commits. *)
Definition hp_rule (index : Selection) (msg : string) (maxHp' hp' : Z) : Z :=
  if Str.test fix_pattern msg then Z.max 1 (Z.min maxHp' (hp' + hpDelta index)) else hp'.

(** The item a feat-like commit offers, if the draws are lucky. *)
Definition offered_item (sty : Style) (msg : string) (r2 r3 : Draw) : option string :=
  if Str.test feat_pattern msg && above_0_6 r2
  then Music.at_index (items sty) (floor_mul r3 (Z.of_nat (length (items sty))))
  else None.

Definition inventory_rule (inv : list string) (offer : option string) : list string :=
  match offer with
  | Some item =>
      if negb (bool_decide (item ∈ inv)) && bool_decide (length inv < 8)%nat
      then (inv ++ [item])%list else inv
  | None => inv
  end.

(** The state with its statistics, inventory and quest log blanked: what
    [applyChoiceConsequences] leaves alone. *)
Definition without_stats (s : GameState) : GameState :=
  set_questLog [] (set_inventory [] (set_level 0 (set_xp 0 (set_maxHp 0 (set_hp 0 s))))).

(** What [applyChoiceConsequences(choice, index)] makes of the state [s],
    [r1], [r2] and [r3] being the results of [Math.random()] it reads. *)
Record Consequences (index : Selection) (r1 r2 r3 : Draw) (s s' : GameState) : Prop := {
  cq_xp : xp s' = xp s + 20 + floor_mul r1 30;
  cq_level : level s' = if levels_up (xp s') s then level s + 1 else level s;
  cq_maxHp : maxHp s' = if levels_up (xp s') s then maxHp s + 10 else maxHp s;
  cq_hp : hp s' = hp_rule index (lowered_subject (current_commit s)) (maxHp s')
                          (if levels_up (xp s') s then Z.min (hp s + 20) (maxHp s + 10)
                           else hp s);
  cq_inventory : inventory s' =
                 inventory_rule (inventory s)
                   (offered_item (style s) (lowered_subject (current_commit s)) r2 r3);
  cq_rest : without_stats s' = without_stats s;
}.

(** The state once the turn is recorded in [history]. *)
Definition recorded (scene : Scene) (choice : Looked) (s : GameState) : GameState :=
  set_history (history s ++ [mkEntry (narrative scene) (held (text_of choice))
                                     (held (Github.sha <$> current_commit s))])%list s.

(** The cursor moved on by one commit and the chapter recomputed. *)
Definition advanced (s : GameState) : GameState :=
  let s1 := set_commitIndex (Z.min (commitIndex s + 1) (Z.of_nat (length (commits s)) - 1)) s in
  set_chapter (commitIndex s1 / 10 + 1) s1.

(** The end condition of [makeChoice]. *)
Definition at_end (s : GameState) : bool :=
  (Z.of_nat (length (commits s)) - 1 <=? commitIndex s) && bool_decide (1 < length (history s))%nat.

Definition epilogue_scene (s : GameState) : Scene :=
  mkScene (epilogue_text s) epilogue_choices true.

(** The selection names a choice of the scene on show, and no generation
    is in flight: the call is not turned away by a guard. *)
Definition accepted (choiceIndex : Selection) (σ : Sys) : Prop :=
  generating σ = false /\
  exists s scene, state σ = Some s /\ currentScene s = Some scene /\
                  truthy (get_property (choices scene) choiceIndex) = true.

(** The selection is the position of one of the choices on show. *)
Definition names_choice (choiceIndex : Selection) (scene : Scene) : Prop :=
  match choiceIndex with
  | SelIndex i => 0 <= i < Z.of_nat (length (choices scene))
  | SelText t => exists i, array_index t = Some i /\ 0 <= i < Z.of_nat (length (choices scene))
  end.

(** The state but for the scene on show and the save stamp. *)
Definition progress (s : GameState) : GameState :=
  set_savedAt None (set_currentScene None s).

(** What holds of the game state in every run. *)
Record Inv (s : GameState) : Prop := {
  inv_hp : 1 <= hp s <= maxHp s;
  inv_level : 1 <= level s <= 10;
  inv_xp : 0 <= xp s;
  inv_inventory_size : (length (inventory s) <= 8)%nat;
  inv_inventory_nodup : NoDup (inventory s);
  inv_cursor : commits s <> [] -> 0 <= commitIndex s < Z.of_nat (length (commits s));
}.

(** A scene as the specification wants it. *)
Definition well_formed (sc : Scene) : Prop :=
  narrative sc <> "" /\ length (choices sc) = 3%nat.

End Story.

(** * Fixtures for the examples *)

Import Model Fallback Story.

Definition commit_8f3a : Github.CommitRecord :=
  {| Github.sha := "8f3a91c2d4e5f60718293a4b5c6d7e8f90a1b2c3";
     Github.shortSha := "8f3a91c";
     Github.message := "Fix crash on load";
     Github.subject := "Fix crash on load";
     Github.body := "";
     Github.author := Github.mkAuthor "Ada" None None;
     Github.date := Github.DateObject 1700000000000;
     Github.hour := 22;
     Github.dayOfWeek := 2;
     Github.timestamp := 1700000000000 |}.

Definition commit_26f5 : Github.CommitRecord :=
  {| Github.sha := "26f5b720d4e5f60718293a4b5c6d7e8f90a1b2c3";
     Github.shortSha := "26f5b72";
     Github.message := "Add new feature v2";
     Github.subject := "Add new feature v2";
     Github.body := "";
     Github.author := Github.mkAuthor "Bob" None None;
     Github.date := Github.DateObject 1690000000000;
     Github.hour := 4;
     Github.dayOfWeek := 6;
     Github.timestamp := 1690000000000 |}.

Definition commit_c0de : Github.CommitRecord :=
  {| Github.sha := "c0de5eed00112233445566778899aabbccddeeff";
     Github.shortSha := "c0de5ee";
     Github.message := "Initial commit";
     Github.subject := "Initial commit";
     Github.body := "";
     Github.author := Github.mkAuthor "Ada" None None;
     Github.date := Github.DateObject 1680000000000;
     Github.hour := 10;
     Github.dayOfWeek := 2;
     Github.timestamp := 1680000000000 |}.

Definition three_commits : list Github.CommitRecord := [commit_8f3a; commit_26f5; commit_c0de].

Definition draw_0_7 : Draw := mkDraw 0x1.6666666666666p-1%float eq_refl.

(** The draws 0.6 and the largest number below 1. *)
Definition draw_0_6 : Draw := mkDraw 0x1.3333333333333p-1%float eq_refl.
Definition draw_last : Draw := mkDraw 0x1.fffffffffffffp-1%float eq_refl.

(** A clock that is one millisecond further at each of its first readings. *)
Definition ticking (n : nat) : Z :=
  match n with
  | 0%nat => 1700000000000
  | 1%nat => 1700000000001
  | 2%nat => 1700000000002
  | 3%nat => 1700000000003
  | 4%nat => 1700000000004
  | _ => 1700000000005
  end.

(** A browser with an engine just built: nothing saved, every
    [Math.random()] giving 0.7. *)
Definition browser : Sys :=
  mkSys None false None ∅ (fun _ => draw_0_7) 0 ticking 0 [].

Definition the_repo : Repo := mkRepo "YogliB" "gitquest".

(** The game started on the three commits, the producer having thrown. *)
Definition started : Sys :=
  snd (startGame the_repo scifi three_commits
                 (analysis_value (Github.analyzeCommits three_commits)) AIThrows browser).

(** The game state of an engine that has one. *)
Definition game_of (σ : Sys) : GameState :=
  default (initial the_repo dnd [] Null 0) (state σ).


(** The scene an engine has on show. *)
Definition scene_of (σ : Sys) : Scene :=
  default (mkScene "" [] false) (currentScene (game_of σ)).

(** The engine while [startGame] waits for the first scene. *)
Definition starting : Sys :=
  perform (Start the_repo horror three_commits Null) browser.

(** * More of the engine and of the page *)

(** ** What a run keeps *)

(** What ties the fields of a game state to one another: [maxHp] and
    [level], [level] and [xp], [chapter] and the cursor, the cursor and the
    history; and the bound of the quest log. *)
Record Ledger (s : GameState) : Prop := {
  led_maxHp : maxHp s = 90 + 10 * level s;
  led_floor : forall t, Music.at_index XP_PER_LEVEL (level s - 1) = Some t -> t <= xp s;
  led_ceiling : forall t, Music.at_index XP_PER_LEVEL (level s) = Some t -> xp s < t;
  led_questLog : (length (questLog s) <= 10)%nat;
  led_chapter : chapter s = commitIndex s / 10 + 1;
  led_cursor : commits s <> [] ->
               commitIndex s = Z.min (Z.of_nat (length (history s)))
                                     (Z.of_nat (length (commits s)) - 1);
}.

(** [generating] is set exactly while a call waits for the producer. *)
Definition one_in_flight (σ : Sys) : Prop :=
  generating σ = true <-> exists task, suspended σ = Some task.

(** [getCurrentCommit()] *)
Definition getCurrentCommit (σ : Sys) : option Github.CommitRecord :=
  match state σ with
  | None => None
  | Some s => current_commit s
  end.

(** What the page does with the engine: an [Action], or [loadGame(slot)]
    from the menu of saved games. *)
Inductive PageAction : Type :=
  | Engine (a : Action)
  | Load (slot : string).

Definition page_perform (a : PageAction) (σ : Sys) : Sys :=
  match a with
  | Engine a => perform a σ
  | Load slot => snd (loadGame slot σ)
  end.

(** Every game in [localStorage] is within the bounds of a run. *)
Definition saves_sound (σ : Sys) : Prop :=
  forall key s, localStorage σ !! key = Some s -> Inv s /\ Ledger s.

(** The engines that the page can bring about, loads included, from a
    fresh engine over a store of sound saves. *)
Inductive reachable_with_loads : Sys -> Prop :=
  | rl_fresh σ : fresh σ -> saves_sound σ -> reachable_with_loads σ
  | rl_step σ a : reachable_with_loads σ -> reachable_with_loads (page_perform a σ).

(** The first turn of the game played, the producer having thrown. *)
Definition after_first_turn : Sys := snd (makeChoice (SelIndex 0) AIThrows started).

(** The first turn played, a new game started, and the slot [auto] loaded:
    the game is back where the first turn left it. *)
Definition reloaded : Sys :=
  page_perform (Load "auto")
    (page_perform (Engine (Start the_repo dnd three_commits Null)) after_first_turn).

(** A save of the game after its first turn, with eight items in the pack
    (a save is what [localStorage] holds, whoever wrote it); and the engine
    that has loaded it, at the commit that adds a feature. *)
Definition full_pack : list string :=
  ["Energy Cell"; "Neural Chip"; "Plasma Rifle"; "Quantum Drive";
   "Magic Scroll"; "Enchanted Sword"; "Ancient Tome"; "Healing Potion"].

Definition packed : Sys :=
  snd (loadGame "auto"
         (with_localStorage
            {[ Storage.SAVE_PREFIX ++ "auto" :=
                 set_inventory full_pack (game_of after_first_turn) ]} browser)).

(** ** The answer of the narrative producer *)

Module Response.
Import Model.

(** [s.trimEnd()] and [s.trim()]: the white space of [\s] taken off. *)
Fixpoint trim_end (s : string) : string :=
  match s with
  | EmptyString => EmptyString
  | String c s' =>
      match trim_end s' with
      | EmptyString => if Github.is_space c then EmptyString else String c EmptyString
      | t => String c t
      end
  end.

Definition trim (s : string) : string := trim_end (Github.trim_start s).

(** [[ABC]] *)
Definition is_label (c : ascii) : bool :=
  bool_decide (c = "A"%char) || bool_decide (c = "B"%char) || bool_decide (c = "C"%char).

(** [\[([ABC])\]] at the head of [s]: the letter and what follows. *)
Definition marker (s : string) : option (ascii * string) :=
  match s with
  | String c0 (String c (String c2 rest)) =>
      if bool_decide (c0 = "["%char) && is_label c && bool_decide (c2 = "]"%char)
      then Some (c, rest) else None
  | _ => None
  end.

(** The lookahead [(?=\[[ABC]\]|$)]. *)
Definition at_boundary (s : string) : bool :=
  match s with
  | EmptyString => true
  | _ => bool_decide (is_Some (marker s))
  end.

(** [(.+?)] before that lookahead, its first character taken: the fewest
    further characters ([.] is any character, under the [s] flag) after
    which the lookahead holds, and the rest of the text. *)
Fixpoint lazy_rest (s : string) : string * string :=
  if at_boundary s then (EmptyString, s)
  else match s with
       | EmptyString => (EmptyString, EmptyString)
       | String c s' => let '(b, r) := lazy_rest s' in (String c b, r)
       end.

(** The last character of [s]. *)
Fixpoint last_char (s : string) : option ascii :=
  match s with
  | EmptyString => None
  | String c EmptyString => Some c
  | String _ s' => last_char s'
  end.

(** The whole pattern at the head of [s]: the label, the second group and
    the text after the match.  [\s*] takes all the white space there is; when
    nothing is left for [.+?] it gives its last character back. *)
Definition match_here (s : string) : option (ascii * string * string) :=
  match marker s with
  | None => None
  | Some (l, r1) =>
      match Github.trim_start r1 with
      | String c r2 => let '(b, rest) := lazy_rest r2 in Some (l, String c b, rest)
      | EmptyString =>
          match last_char r1 with
          | Some w => Some (l, String w EmptyString, EmptyString)
          | None => None
          end
      end
  end.

(** The [while ((match = choiceRegex.exec(text)) !== null)] loop: [skip] is
    the number of characters up to [lastIndex], where the next search
    starts. *)
Fixpoint exec_all (skip : nat) (s : string) : list (ascii * string) :=
  match s with
  | EmptyString => []
  | String _ s' =>
      match skip with
      | S k => exec_all k s'
      | O =>
          match match_here s with
          | Some (l, b, rest) => (l, b) :: exec_all (String.length s' - String.length rest) s'
          | None => exec_all 0 s'
          end
      end
  end.

(** [text.search(/\[A\]/)]; [None] is -1. *)
Definition starts_A (s : string) : bool :=
  match s with
  | String c0 (String c1 (String c2 _)) =>
      bool_decide (c0 = "["%char) && bool_decide (c1 = "A"%char) && bool_decide (c2 = "]"%char)
  | _ => false
  end.

Fixpoint search_A (s : string) : option nat :=
  if starts_A s then Some 0%nat
  else match s with
       | EmptyString => None
       | String _ s' => S <$> search_A s'
       end.

(** The choices pushed when the loop found none. *)
Definition default_choices : list Choice :=
  [ mkChoice "A" "Press forward boldly";
    mkChoice "B" "Proceed with caution";
    mkChoice "C" "Seek more information" ].

(** [parseAIResponse(text)] *)
Definition parseAIResponse (text : string) : Scene :=
  let found :=
    List.map (fun m => mkChoice (String (fst m) EmptyString) (trim (snd m))) (exec_all 0 text) in
  let narrative :=
    match search_A text with
    | Some (S n) => trim (Str.slice0 (S n) text)
    | _ => trim text
    end in
  mkScene narrative (match found with [] => default_choices | _ => found end) false.

(** No [[A]], [[B]] or [[C]] anywhere in [s]. *)
Fixpoint marker_free (s : string) : bool :=
  match s with
  | EmptyString => true
  | String _ s' => negb (bool_decide (is_Some (marker s))) && marker_free s'
  end.

(** An answer in the format the prompts ask for: a label in brackets before
    each choice. *)
Definition tagged (item : ascii * string) : string :=
  String "[" (String (fst item) (String "]" (snd item))).

(** The choices of an answer, one after the other. *)
Fixpoint format (items : list (ascii * string)) : string :=
  match items with
  | [] => EmptyString
  | item :: items' => tagged item ++ format items'
  end.

(** A choice of such an answer: a label of the three, and a text that is
    not blank and holds no marker. *)
Definition well_tagged (item : ascii * string) : Prop :=
  is_label (fst item) = true /\ marker_free (snd item) = true /\ trim (snd item) <> "".

End Response.

(** ** The repository field *)

Module RepoInput.
Import Model.

(** [c === '/'] *)
Definition is_slash (c : ascii) : bool := bool_decide (c = "/"%char).

(** [[^/]+], greedy: the longest run of characters other than the slash at
    the head of [s], and what follows it. *)
Fixpoint segment (s : string) : string * string :=
  match s with
  | EmptyString => (EmptyString, EmptyString)
  | String c s' =>
      if is_slash c then (EmptyString, s)
      else let '(a, r) := segment s' in (String c a, r)
  end.

(** [s] with the literal [p] taken off its head. *)
Fixpoint strip_prefix (p s : string) : option string :=
  match p with
  | EmptyString => Some s
  | String a p' =>
      match s with
      | String b s' => if bool_decide (a = b) then strip_prefix p' s' else None
      | EmptyString => None
      end
  end.

(** [([^/]+)\/([^/]+)] at the head of [s]: the two groups and the rest. *)
Definition two_segments (s : string) : option (string * string * string) :=
  match segment s with
  | (String c o, String _ r2) =>       (* a run that is not empty, then the slash *)
      match segment r2 with
      | (String d p, r3) => Some (String c o, String d p, r3)
      | _ => None
      end
  | _ => None
  end.

(** [/github\.com\/([^/]+)\/([^/]+)/] at the head of [s]. *)
Definition url_here (s : string) : option (string * string) :=
  match strip_prefix "github.com/" s with
  | Some r => (fun m => (m.1.1, m.1.2)) <$> two_segments r
  | None => None
  end.

(** [input.match(/github\.com\/([^/]+)\/([^/]+)/)]: the leftmost match. *)
Fixpoint url_match (s : string) : option (string * string) :=
  match url_here s with
  | Some m => Some m
  | None =>
      match s with
      | EmptyString => None
      | String _ s' => url_match s'
      end
  end.

(** [input.match(/^([^/]+)\/([^/]+)$/)] *)
Definition short_match (s : string) : option (string * string) :=
  match two_segments s with
  | Some (o, p, EmptyString) => Some (o, p)
  | _ => None
  end.

(** [s.replace(/\/$/, '')] *)
Fixpoint drop_final_slash (s : string) : string :=
  match s with
  | EmptyString => EmptyString
  | String c EmptyString => if is_slash c then EmptyString else s
  | String c s' => String c (drop_final_slash s')
  end.

(** [parseRepoInput(input)]; [None] is [null]. *)
Definition parseRepoInput (input : string) : option Repo :=
  let input := drop_final_slash (Response.trim input) in
  match url_match input with
  | Some (o, p) => Some (mkRepo o p)
  | None =>
      match short_match input with
      | Some (o, p) => Some (mkRepo o p)
      | None => None
      end
  end.

(** No slash in [s]. *)
Fixpoint no_slash (s : string) : bool :=
  match s with
  | EmptyString => true
  | String c s' => negb (is_slash c) && no_slash s'
  end.

(** The name of an owner or of a repository: not empty, no slash. *)
Definition name_like (s : string) : Prop := s <> "" /\ no_slash s = true.

(** What may follow a path segment: nothing, or a slash and more. *)
Definition ends_segment (r : string) : Prop := r = "" \/ exists r', r = String "/" r'.

(** The number of slashes in [s]. *)
Fixpoint slashes (s : string) : nat :=
  match s with
  | EmptyString => 0
  | String c s' => ((if is_slash c then 1 else 0) + slashes s')%nat
  end.

(** No letter [g] in [s]: [github.com] cannot start inside it. *)
Fixpoint no_g (s : string) : bool :=
  match s with
  | EmptyString => true
  | String c s' => negb (bool_decide (c = "g"%char)) && no_g s'
  end.

(** What stands before [github.com] in the address of a repository page. *)
Definition origins : list string :=
  [ ""; "https://"; "http://"; "https://www."; "http://www."; "www." ].

End RepoInput.

(** ** The saved games *)

Module Saves.
Import Model.

(** [key.replace(p, "")]: the first occurrence of the text [p] taken out. *)
Fixpoint remove_first (p s : string) : string :=
  match RepoInput.strip_prefix p s with
  | Some rest => rest
  | None =>
      match s with
      | EmptyString => EmptyString
      | String c s' => String c (remove_first p s')
      end
  end.

(** [key.startsWith(p)] *)
Definition startsWith (p s : string) : bool :=
  match RepoInput.strip_prefix p s with
  | Some _ => true
  | None => false
  end.

(** [b.savedAt - a.savedAt] reads [null] as 0. *)
Definition stamp (entry : string * GameState) : Z := default 0 (savedAt entry.2).

(** [saves.sort((a, b) => b.savedAt - a.savedAt)].  The sort is stable and
    the comparator orders by a number, so the result is the one list that is
    in descending order and keeps entries of equal stamp as they were. *)
Fixpoint insert_save (x : string * GameState) (l : list (string * GameState)) :
    list (string * GameState) :=
  match l with
  | [] => [x]
  | y :: l' => if stamp y <=? stamp x then x :: l else y :: insert_save x l'
  end.

(** The sort, by insertion from the right, which keeps the order of equal
    stamps. *)
Definition sort_saves (l : list (string * GameState)) : list (string * GameState) :=
  foldr insert_save [] l.

(** [listSaves()], [keys] being the keys of [localStorage] in the order in
    which [localStorage.key(i)] gives them. *)
Definition listSaves (keys : list string) (ls : Storage.Store) : list (string * GameState) :=
  sort_saves
    (flat_map
       (fun key =>
          if negb (bool_decide (key = "")) && startsWith Storage.SAVE_PREFIX key
          then match ls !! key with
               | Some data => [(remove_first Storage.SAVE_PREFIX key, data)]
               | None => []     (* not taken: [key(i)] names an item *)
               end
          else [])
       keys).

(** [deleteGame(slot)] *)
Definition deleteGame (slot : string) (ls : Storage.Store) : Storage.Store :=
  delete (Storage.SAVE_PREFIX ++ slot) ls.

(** The order of the list: no entry is older than the one after it. *)
Definition newest_first : relation (string * GameState) := fun a b => stamp b <= stamp a.

(** [keys] has the key of every saved game, and no key under the prefix of
    the saves that names none. *)
Definition lists (keys : list string) (ls : Storage.Store) : Prop :=
  forall key, startsWith Storage.SAVE_PREFIX key = true -> key ∈ keys <-> is_Some (ls !! key).

End Saves.

(** A store holding one game, saved in the slot [slot1]. *)
Definition one_save : Storage.Store :=
  Storage.saveGame "slot1" (initial the_repo dnd three_commits Null 0) 5 ∅.

(** ** The settings *)

Module Settings.
Import Model.

(** The item [KEYS.SETTINGS] of [localStorage]: only [saveSettings] writes
    it, so a text that [JSON.parse] reads is the text of an object, kept as
    the properties it parses to. *)
Inductive Item : Type :=
  | Absent                                  (* no item, or the empty text *)
  | Unreadable                              (* a text [JSON.parse] refuses *)
  | Object (props : gmap string Value).

(** [getSettings()]: the object parsed from the item, the empty object
    when there is none or [JSON.parse] throws. *)
Definition getSettings (it : Item) : gmap string Value :=
  match it with
  | Object props => props
  | _ => ∅
  end.

(** [JSON.parse(JSON.stringify(o))] for an object given by its own
    properties. *)
Definition json_object (props : gmap string Value) : gmap string Value :=
  omap (fun v => match v with Undefined => None | _ => Some (Json.roundtrip v) end) props.

(** [saveSettings(settings)]: in [{ ...current, ...settings }] a property
    of [settings] wins. *)
Definition saveSettings (settings : gmap string Value) (it : Item) : Item :=
  Object (json_object (settings ∪ getSettings it)).

(** [v ?? d] *)
Definition nullish_or (v d : Value) : Value :=
  match v with
  | Undefined | Null => d
  | _ => v
  end.

(** The names every object inherits from [Object.prototype]. *)
Definition inherited : list string :=
  ["constructor"; "__proto__"; "hasOwnProperty"; "isPrototypeOf"; "propertyIsEnumerable";
   "toLocaleString"; "toString"; "valueOf"; "__defineGetter__"; "__defineSetter__";
   "__lookupGetter__"; "__lookupSetter__"].

(** [getSetting(key, defaultVal)]; [None] stands for what [Object.prototype]
    gives under an inherited name, a function or an object, which [Value]
    does not represent. *)
Definition getSetting (key : string) (defaultVal : Value) (it : Item) : option Value :=
  match getSettings it !! key with
  | Some v => Some (nullish_or v defaultVal)
  | None => if bool_decide (key ∈ inherited) then None else Some defaultVal
  end.

(** The item holds what JSON reads back. *)
Definition json_item (it : Item) : Prop :=
  forall k v, getSettings it !! k = Some v -> v <> Undefined /\ Json.roundtrip v = v.

End Settings.

(** ** The cache *)

Module Cache.
Import Model.

(** What [JSON.parse] makes of the text of an item: the value written, or
    nothing when it cannot read the text (the empty string, which the
    readers take for no item, counts as unreadable). *)
Inductive Read (A : Type) : Type :=
  | Unreadable
  | Parsed (a : A).
Arguments Unreadable {A}.
Arguments Parsed {A} a.

(** The object [{ value, expires }] of [setCache], as JSON reads it back. *)
Record Entry : Type := mkCached { value : Value; expires : Z }.

(** The part of [localStorage] that the cache uses (the items under
    [CACHE_PREFIX], by cache key, and the item [CACHE_INDEX]) and the
    browser's answers to [setItem]: [room n] says whether the [n]-th call
    finds room, a call that finds none throwing [QuotaExceededError]. *)
Record Browser : Type := mkBrowser {
  entries : gmap string (Read Entry);
  index : option (Read (list string));
  room : nat -> bool;
  writes : nat;
}.

Definition with_entries (v : gmap string (Read Entry)) (b : Browser) : Browser :=
  mkBrowser v (index b) (room b) (writes b).

Definition with_index (v : option (Read (list string))) (b : Browser) : Browser :=
  mkBrowser (entries b) v (room b) (writes b).

(** [localStorage.setItem(...)]: [true] when the item was written, [false]
    when the call threw. *)
Definition setItem (write : Browser -> Browser) (b : Browser) : bool * Browser :=
  let b' := mkBrowser (entries b) (index b) (room b) (S (writes b)) in
  if room b (writes b) then (true, write b') else (false, b').

(** [localStorage.removeItem(KEYS.CACHE_PREFIX + k)] *)
Definition removeItem (k : string) (b : Browser) : Browser :=
  with_entries (delete k (entries b)) b.

(** [_getCacheIndex()]: the empty list when there is no index or
    [JSON.parse] throws. *)
Definition _getCacheIndex (b : Browser) : list string :=
  match index b with
  | Some (Parsed keys) => keys
  | _ => []
  end.

Definition MAX_CACHE : nat := 10.

(** [_updateCacheIndex(key)]: the key goes to the head of the index, the
    keys from the tenth on are dropped with their entries, and the index is
    written; [false] when that write threw. *)
Definition _updateCacheIndex (key : string) (b : Browser) : bool * Browser :=
  let index := key :: filter (fun k => k <> key) (_getCacheIndex b) in
  let toRemove := drop MAX_CACHE index in            (* [index.splice(MAX_CACHE)] *)
  let b1 := fold_left (fun b k => removeItem k b) toRemove b in
  setItem (with_index (Some (Parsed (take MAX_CACHE index)))) b1.

(** [_removeFromCacheIndex(key)]; [false] when the write threw. *)
Definition _removeFromCacheIndex (key : string) (b : Browser) : bool * Browser :=
  setItem (with_index (Some (Parsed (filter (fun k => k <> key) (_getCacheIndex b))))) b.

(** [deleteCache(key)]; [false] when it threw. *)
Definition deleteCache (key : string) (b : Browser) : bool * Browser :=
  _removeFromCacheIndex key (removeItem key b).

(** [clearAllCache()]: the entries that the index lists are removed, then
    the index. *)
Definition clearAllCache (b : Browser) : Browser :=
  with_index None (fold_left (fun b k => removeItem k b) (_getCacheIndex b) b).

(** [setCache(key, value, ttlMs)], [now] being the [Date.now()] it reads;
    the [catch] block clears the cache when either write throws. *)
Definition setCache (key : string) (v : Value) (ttlMs now : Z) (b : Browser) : Browser :=
  let expires := now + ttlMs in
  let '(stored, b1) :=
    setItem (fun b => with_entries (<[key := Parsed (mkCached (Json.roundtrip v) expires)]>
                                      (entries b)) b) b in
  if stored then
    let '(indexed, b2) := _updateCacheIndex key b1 in
    if indexed then b2 else clearAllCache b2
  else clearAllCache b1.

(** The [ttlMs] of a call that gives none: one hour. *)
Definition default_ttl : Z := 3600000.

(** [getCache(key)], [now] being the [Date.now()] it reads when there is an
    entry: the value returned ([Null] for none) and the browser. *)
Definition getCache (key : string) (now : Z) (b : Browser) : Value * Browser :=
  match entries b !! key with
  | Some (Parsed e) =>
      if expires e <? now then (Null, snd (deleteCache key b)) else (value e, b)
  | _ => (Null, b)
  end.

(** A use of the cache. *)
Inductive Use : Type :=
  | SetCache (key : string) (v : Value) (ttlMs now : Z)
  | GetCache (key : string) (now : Z)
  | DeleteCache (key : string)
  | ClearAllCache.

(** The browser after a use. *)
Definition use (u : Use) (b : Browser) : Browser :=
  match u with
  | SetCache key v ttl now => setCache key v ttl now b
  | GetCache key now => snd (getCache key now b)
  | DeleteCache key => snd (deleteCache key b)
  | ClearAllCache => clearAllCache b
  end.

(** The index lists every entry, once, and is not longer than [MAX_CACHE]. *)
Record tidy (b : Browser) : Prop := {
  tidy_nodup : NoDup (_getCacheIndex b);
  tidy_length : (length (_getCacheIndex b) <= MAX_CACHE)%nat;
  tidy_indexed : forall k, is_Some (entries b !! k) -> k ∈ _getCacheIndex b;
}.

(** Every [setItem] finds room. *)
Definition never_full (b : Browser) : Prop := forall n, room b n = true.

(** A browser that has nothing cached. *)
Definition empty (room : nat -> bool) : Browser := mkBrowser ∅ None room 0.

(** The index of [_updateCacheIndex(key)] before it is cut to size. *)
Definition pushed (key : string) (b : Browser) : list string :=
  key :: filter (fun k => k <> key) (_getCacheIndex b).

(** The browser after the first write of [setCache] has found room. *)
Definition stored (key : string) (v : Value) (expires : Z) (b : Browser) : Browser :=
  mkBrowser (<[key := Parsed (mkCached (Json.roundtrip v) expires)]> (entries b))
            (index b) (room b) (S (writes b)).

(** One [setCache(key, value, ttlMs)] after the other, each item giving the
    key, the value, [ttlMs] and the time of its call. *)
Definition set_each (items : list (string * Value * Z * Z)) (b : Browser) : Browser :=
  fold_left (fun b i => setCache i.1.1.1 i.1.1.2 i.1.2 i.2 b) items b.

End Cache.

(** ** The notes of the score *)

Module Score.
Import Model.

(** The keys of [SCALES], and the intervals of each scale in semitones. *)
Inductive ScaleName : Type := major | minor | dorian | phrygian | diminished | pentatonic.

Definition SCALES (name : ScaleName) : list Z :=
  match name with
  | major => [0; 2; 4; 5; 7; 9; 11]
  | minor => [0; 2; 3; 5; 7; 8; 10]
  | dorian => [0; 2; 3; 5; 7; 9; 10]
  | phrygian => [0; 1; 3; 5; 7; 8; 10]
  | diminished => [0; 2; 3; 5; 6; 8; 9; 11]
  | pentatonic => [0; 2; 4; 7; 9]
  end.

(** [ROOTS.indexOf(root)], [None] being [undefined]. *)
Definition indexOf (root : option string) : Z :=
  match root with
  | Some r =>
      match list_find (fun x => x = r) Music.ROOTS with
      | Some (i, _) => Z.of_nat i
      | None => -1
      end
  | None => -1
  end.

(** [`${ROOTS[(rootIdx + interval) % 12]}${oct}`]; an [interval] read
    outside its scale is [undefined] ([None]), which makes the index NaN. *)
Definition note (rootIdx : Z) (interval : option Z) (oct : Z) : string :=
  default "undefined"
          (interval ≫= fun i => Music.at_index Music.ROOTS (JS.rem (rootIdx + i) 12))
  ++ pretty oct.

(** The values of [oct] in [for (let oct = lo; oct <= hi; oct++)]. *)
Definition octaves (lo hi : Z) : list Z :=
  List.map (fun i => lo + Z.of_nat i) (seq 0 (Z.to_nat (hi - lo + 1))).

(** [buildNotePool(root, scale, baseOctave, octaveRange)] *)
Definition buildNotePool (root : option string) (scale : list Z) (baseOctave : Z)
           (octaveRange : Z * Z) : list string :=
  let rootIdx := indexOf root in
  flat_map (fun oct => List.map (fun interval => note rootIdx (Some interval) oct) scale)
           (octaves (fst octaveRange) (snd octaveRange)).

(** [buildChords(root, scale, octave, rng, style)], which does not use
    [rng]. *)
Definition buildChords (root : option string) (scale : list Z) (octave : Z) (style : Style) :
    list (list string) :=
  let rootIdx := indexOf root in
  let chordDegrees := match style with horror => [0; 1; 6] | _ => [0; 3; 4; 5] end in
  let chords :=
    List.map (fun degree =>
                let intervals :=
                  [Music.at_index scale degree;
                   Music.at_index scale (JS.rem (degree + 2) (Z.of_nat (length scale)));
                   Music.at_index scale (JS.rem (degree + 4) (Z.of_nat (length scale)))] in
                List.map (fun interval => note rootIdx interval octave) intervals)
             chordDegrees in
  (chords ++ chords)%list.

(** A pitch name: one of the twelve [ROOTS] followed by an octave number. *)
Definition pitch (oct : Z) (n : string) : Prop :=
  exists name, name ∈ Music.ROOTS /\ n = name ++ pretty oct.

End Score.

(** ** Counts over the commits *)

Module Tally.
Import Github.

(** The number of commits made in the hour [h]. *)
Definition commits_at (h : nat) (cs : list CommitRecord) : Z :=
  count (fun c => bool_decide (hour c = h)) cs.

(** The number that [parseInt(c.sha.slice(0, 8), 16)] contributes. *)
Definition sha_word (prefix : string) : Z := nan_to_zero (parseInt16 prefix).

End Tally.

(** ** The history of visits *)

Module History.
Import Model.

(** The item [KEYS.HISTORY] of [localStorage]: only [addToHistory] writes
    it, so a text that [JSON.parse] reads is the text of an array of
    objects, kept as the properties of each. *)
Inductive Item : Type :=
  | Absent                                  (* no item, or the empty text *)
  | Unreadable                              (* a text [JSON.parse] refuses *)
  | Entries (entries : list (gmap string Value)).

(** [getHistory()] *)
Definition getHistory (it : Item) : list (gmap string Value) :=
  match it with
  | Entries entries => entries
  | _ => []
  end.

(** [{ ...entry, timestamp: Date.now() }] *)
Definition stamped (entry : gmap string Value) (now : Z) : gmap string Value :=
  <["timestamp" := Int now]> entry.

(** [addToHistory(entry)], [now] being the [Date.now()] it reads: the item
    holds what JSON reads back from [history.slice(0, 20)]. *)
Definition addToHistory (entry : gmap string Value) (now : Z) (it : Item) : Item :=
  Entries (List.map Settings.json_object (take 20 (stamped entry now :: getHistory it))).

(** One [addToHistory] after the other, each with the time of its call. *)
Definition add_each (calls : list (gmap string Value * Z)) (it : Item) : Item :=
  fold_left (fun it c => addToHistory c.1 c.2 it) calls it.

(** The item holds what [addToHistory] leaves: at most twenty entries, as
    JSON reads them back. *)
Definition kept (it : Item) : Prop :=
  Forall (fun e => Settings.json_object e = e) (getHistory it) /\
  (length (getHistory it) <= 20)%nat.

End History.

(** ** The address of the page *)

Module Routing.
Import Model RepoInput.

(** What the page does next: show the landing screen, show it with the
    error of an invalid repository, show the style screen for a repository,
    or begin the adventure in a style.  In the last two cases
    [startWithRepo] has set [app.currentRepo] and pushed the address of the
    repository. *)
Inductive Route : Type :=
  | Landing
  | InvalidRepo
  | ChooseStyle (r : Repo)
  | Begin (r : Repo) (style : string).

(** [s.split('/')] *)
Fixpoint split (s : string) : list string :=
  match s with
  | EmptyString => [EmptyString]
  | String c s' =>
      if is_slash c then EmptyString :: split s'
      else match split s' with
           | x :: xs => String c x :: xs
           | [] => [String c EmptyString]
           end
  end.

(** [s.replace(/^\//, '')] *)
Definition drop_first_slash (s : string) : string :=
  match s with
  | String c s' => if is_slash c then s' else s
  | EmptyString => EmptyString
  end.

(** [path.split('/').filter(Boolean)] for the [path] of [pathname]. *)
Definition parts (pathname : string) : list string :=
  filter (fun x => x <> "") (split (drop_final_slash (drop_first_slash pathname))).

(** [pushURL(owner, repo, style)]: the path given to [pushState]. *)
Definition pushURL (owner repo : string) (style : option string) : string :=
  match style with
  | Some st =>
      if bool_decide (st = "") then "/" ++ owner ++ "/" ++ repo
      else "/" ++ owner ++ "/" ++ repo ++ "/" ++ st
  | None => "/" ++ owner ++ "/" ++ repo
  end.

(** [startWithRepo(input, autoStyle)] *)
Definition startWithRepo (input : string) (autoStyle : option string) : Route :=
  match parseRepoInput input with
  | None => InvalidRepo
  | Some parsed =>
      match autoStyle with
      | Some st => if bool_decide (st = "") then ChooseStyle parsed else Begin parsed st
      | None => ChooseStyle parsed
      end
  end.

Definition STYLES : list string := ["dnd"; "scifi"; "horror"].

(** The characters that the browser leaves as they are in the path of an
    address: the ASCII letters and digits, [-], [.], [_] and [~].  (Of the
    others some are percent-encoded, a [?] or a [#] ends the path, and a
    backslash is read as a slash.) *)
Definition unreserved (c : ascii) : bool :=
  let n := N_of_ascii c in
  (((48 <=? n) && (n <=? 57)) || ((65 <=? n) && (n <=? 90)) || ((97 <=? n) && (n <=? 122))
   || (n =? 45) || (n =? 46) || (n =? 95) || (n =? 126))%N.

Fixpoint unreserved_only (s : string) : bool :=
  match s with
  | EmptyString => true
  | String c s' => unreserved c && unreserved_only s'
  end.

(** A segment that [window.location.pathname] gives back as [pushState]
    received it: unreserved characters only, and neither [.] nor [..],
    which the browser resolves. *)
Definition kept_segment (s : string) : bool :=
  unreserved_only s && negb (bool_decide (s = ".")) && negb (bool_decide (s = "..")).

(** [handleURLRouting()], [pathname] being [window.location.pathname]. *)
Definition handleURLRouting (pathname : string) : Route :=
  match parts pathname with
  | owner :: repo :: rest =>
      match head rest with                                   (* [parts[2] || null] *)
      | Some style =>
          if bool_decide (style ∈ STYLES)
          then startWithRepo (owner ++ "/" ++ repo) (Some style)
          else startWithRepo (owner ++ "/" ++ repo) None
      | None => startWithRepo (owner ++ "/" ++ repo) None
      end
  | _ => Landing
  end.

End Routing.

(** ** The text of a commit *)

Module CommitText.
Import Model.

(** The line feed, and the text ['\n']. *)
Definition LF : ascii := ascii_of_nat 10.
Definition nl : string := String LF EmptyString.

(** [s.split('\n')] *)
Fixpoint split_lines (s : string) : list string :=
  match s with
  | EmptyString => [EmptyString]
  | String c s' =>
      if bool_decide (c = LF) then EmptyString :: split_lines s'
      else match split_lines s' with
           | x :: xs => String c x :: xs
           | [] => [String c EmptyString]
           end
  end.

(** [lines.join('\n')] *)
Fixpoint join_lines (lines : list string) : string :=
  match lines with
  | [] => EmptyString
  | [x] => x
  | x :: rest => x ++ nl ++ join_lines rest
  end.

(** The [subject] and the [body] that [parseCommit] gives to a commit whose
    message is [message], [None] being a message that is missing:
    [(c.message || '').split('\n')[0].slice(0, 120)] and
    [(c.message || '').split('\n').slice(2).join('\n').trim()]. *)
Definition subject_of (message : option string) : string :=
  Str.slice0 120 (default EmptyString (head (split_lines (default EmptyString message)))).

Definition body_of (message : option string) : string :=
  Response.trim (join_lines (drop 2 (split_lines (default EmptyString message)))).

(** No line feed in [s]. *)
Fixpoint one_line (s : string) : bool :=
  match s with
  | EmptyString => true
  | String c s' => negb (bool_decide (c = LF)) && one_line s'
  end.

End CommitText.

(** ** Binary64 rounding

    An invariant of the right shifts of [SpecFloat], for the lemmas on the
    draws. *)

(** The state of a right shift of [m0] by [n] bits: the quotient, and a
    round bit that is set only when the bits shifted out make at least half
    a unit. *)
Definition shifted (m0 n : Z) (mrs : shr_record) : Prop :=
  shr_m mrs = m0 / 2 ^ n /\ (shr_r mrs = true -> 2 ^ n <= 2 * (m0 mod 2 ^ n)).


(** * Properties *)

(** ** JavaScript arithmetic *)

Lemma to_uint32_range (z : Z) : 0 <= JS.to_uint32 z < 2 ^ 32.
Proof. unfold JS.to_uint32. apply Z.mod_pos_bound. lia. Qed.

Lemma to_int32_range (z : Z) : - 2 ^ 31 <= JS.to_int32 z < 2 ^ 31.
Proof.
  unfold JS.to_int32.
  pose proof (Z.mod_pos_bound (z + 2 ^ 31) (2 ^ 32) ltac:(lia)). lia.
Qed.

Lemma to_int32_id (z : Z) : - 2 ^ 31 <= z < 2 ^ 31 -> JS.to_int32 z = z.
Proof. intros H. unfold JS.to_int32. rewrite Z.mod_small; lia. Qed.

Lemma xor_range (a b : Z) : - 2 ^ 31 <= JS.xor a b < 2 ^ 31.
Proof. apply to_int32_range. Qed.

Example Math_round_half_up :
  JS.Math_round 2.5%float = 3%float /\ JS.Math_round (-2.5)%float = (-2)%float /\
  JS.Math_round (-0.25)%float = PrimFloat.neg_zero.
Proof. vm_compute. auto. Qed.

(** 29/200*100 is 14.499999999999998 in binary64 and rounds to 14. *)
Example percent_29_of_200 : Fallback.percent 29 200 = "14".
Proof. vm_compute. reflexivity. Qed.

(** ** The commit analyzer *)

Section Analyzer.
Import Github.

Lemma analyzeCommits_empty : analyzeCommits [] = None.
Proof. reflexivity. Qed.

Lemma analyzeCommits_total (cs : list CommitRecord) :
  cs <> [] -> is_Some (analyzeCommits cs).
Proof.
  intros Hne. unfold analyzeCommits.
  destruct cs as [|c cs]; [done|].
  destruct (last (c :: cs)) eqn:Hlast; [eauto|].
  apply last_None in Hlast. discriminate.
Qed.

Lemma analyzeCommits_hashSeed (cs : list CommitRecord) (a : CommitAnalysis) :
  analyzeCommits cs = Some a -> hashSeed a = seed_of cs.
Proof.
  unfold analyzeCommits. destruct cs as [|c cs]; [done|].
  destruct (last (c :: cs)); [|done]. intros [= <-]. reflexivity.
Qed.

Lemma seed_of_range (cs : list CommitRecord) : - 2 ^ 31 <= seed_of cs < 2 ^ 31.
Proof.
  unfold seed_of. generalize (take 5 cs). intros l.
  assert (H0 : - 2 ^ 31 <= 0 < 2 ^ 31) by lia. revert H0. generalize 0.
  induction l as [|c l IH]; intros acc Hacc; simpl; [exact Hacc|].
  apply IH, xor_range.
Qed.

(** The analysis reads the name of the author, the hour, the subject, the
    time stamp and the hash of a commit, and nothing else: commits that
    have been through JSON give the same analysis. *)
Lemma fold_left_fmap {A B C} (f : A -> C -> A) (g : B -> C) (l : list B) (a : A) :
  fold_left f (List.map g l) a = fold_left (fun a x => f a (g x)) l a.
Proof. revert a. induction l as [|x l IH]; intros a; simpl; [done|]. apply IH. Qed.

Lemma count_fmap (p : CommitRecord -> bool) (g : CommitRecord -> CommitRecord)
      (l : list CommitRecord) :
  count p (List.map g l) = count (fun c => p (g c)) l.
Proof.
  unfold count. f_equal.
  induction l as [|x l IH]; simpl; [done|].
  destruct (p (g x)); simpl; rewrite IH; reflexivity.
Qed.

Lemma analyzeCommits_json (cs : list CommitRecord) :
  analyzeCommits (List.map Json.commit cs) = analyzeCommits cs.
Proof.
  unfold analyzeCommits.
  destruct cs as [|c cs]; [reflexivity|].
  cbn [List.map].
  assert (Hl : last (Json.commit c :: List.map Json.commit cs)
               = Json.commit <$> last (c :: cs)).
  { change (Json.commit c :: List.map Json.commit cs) with (Json.commit <$> (c :: cs)).
    apply fmap_last. }
  rewrite Hl. clear Hl.
  destruct (last (c :: cs)) as [l|]; [|reflexivity].
  change (Json.commit c :: List.map Json.commit cs) with (List.map Json.commit (c :: cs)).
  cbn [fmap option_fmap option_map].
  rewrite !length_map, List.map_map.
  rewrite !firstn_map.
  rewrite !fold_left_fmap, !count_fmap.
  reflexivity.
Qed.
End Analyzer.

(** C1.  [analyzeCommits] is a function of the commit sequence alone: on a
    non-empty sequence it returns an analysis, and a second call on the same
    sequence returns the same analysis, with the same [hashSeed] and the
    same music parameters ([bpm], [voices], [mode], [complexity], [energy]). *)
Theorem analyzeCommits_deterministic (cs1 cs2 : list Github.CommitRecord) :
  cs1 <> [] -> cs1 = cs2 ->
  exists a1 a2,
    Github.analyzeCommits cs1 = Some a1 /\ Github.analyzeCommits cs2 = Some a2 /\
    a1 = a2 /\
    Github.hashSeed a1 = Github.hashSeed a2 /\
    Github.bpm (Github.music a1) = Github.bpm (Github.music a2) /\
    Github.voices (Github.music a1) = Github.voices (Github.music a2) /\
    Github.mode (Github.music a1) = Github.mode (Github.music a2) /\
    Github.complexity (Github.music a1) = Github.complexity (Github.music a2) /\
    Github.energy (Github.music a1) = Github.energy (Github.music a2).
Proof.
  intros Hne <-.
  destruct (analyzeCommits_total cs1 Hne) as [a Ha].
  exists a, a. rewrite Ha. repeat split; reflexivity.
Qed.

Lemma analyzeCommits_deterministic_witness :
  exists a1 a2,
    Github.analyzeCommits [commit_8f3a; commit_26f5] = Some a1 /\
    Github.analyzeCommits [commit_8f3a; commit_26f5] = Some a2 /\
    a1 = a2 /\
    Github.hashSeed a1 = Github.hashSeed a2 /\
    Github.bpm (Github.music a1) = Github.bpm (Github.music a2) /\
    Github.voices (Github.music a1) = Github.voices (Github.music a2) /\
    Github.mode (Github.music a1) = Github.mode (Github.music a2) /\
    Github.complexity (Github.music a1) = Github.complexity (Github.music a2) /\
    Github.energy (Github.music a1) = Github.energy (Github.music a2).
Proof.
  apply (analyzeCommits_deterministic [commit_8f3a; commit_26f5]); [discriminate|reflexivity].
Defined.

(** ** The root pitch class *)

(** [ROOTS[hashSeed % 12]] is a pitch class exactly when the remainder is not
    negative, that is when the seed is not negative or is a multiple of 12. *)
Lemma root_defined_iff (a : Github.CommitAnalysis) :
  is_Some (Music.root a) <-> 0 <= Github.hashSeed a \/ Github.hashSeed a mod 12 = 0.
Proof.
  unfold Music.root, Music.rootIdx, Music.at_index, JS.rem.
  set (h := Github.hashSeed a).
  destruct (Z.ltb_spec (Z.rem h 12) 0) as [Hlt|Hge].
  - split; [intros [? ?]; discriminate|].
    intros H. exfalso. Z.to_euclidean_division_equations. lia.
  - split.
    + intros _. Z.to_euclidean_division_equations. lia.
    + intros _. apply lookup_lt_is_Some.
      change (length Music.ROOTS) with 12%nat.
      Z.to_euclidean_division_equations. lia.
Qed.

(** C9.  A repository whose only commit has a hash starting with 8f3a91c2:
    [parseInt] gives 0x8f3a91c2, the [^] makes it the signed 32-bit integer
    -1891987006, [%] keeps the sign, and [ROOTS[-10]] is [undefined]. *)
Theorem root_undefined_for_negative_seed :
  exists a,
    Github.analyzeCommits [commit_8f3a] = Some a /\
    Github.hashSeed a = -1891987006 /\
    Music.rootIdx a = -10 /\
    Music.root a = None.
Proof. eexists. split; [reflexivity|]. vm_compute. auto. Qed.

(** ** The seeded generator *)

(** The arithmetic of [next()] stays within the integers that binary64
    holds exactly. *)
Lemma next_is_exact (s : Z) :
  0 <= s < 2 ^ 32 -> 0 <= s * 1664525 + 1013904223 < 2 ^ 53.
Proof. lia. Qed.

Lemma new_SeededRNG_range (s : Z) : 0 <= Music.seed (Music.new_SeededRNG s) < 2 ^ 32.
Proof. apply to_uint32_range. Qed.

Lemma next_seed_range (r : Music.SeededRNG) : 0 <= Music.seed (fst (Music.next r)) < 2 ^ 32.
Proof. apply to_uint32_range. Qed.

(** The generator reaches every state from its predecessor; 0xFFFFFFFF is
    the successor of 653637408. *)
Lemma next_seed_max : Music.next_seed 653637408 = 4294967295.
Proof. reflexivity. Qed.

(** C10.  [new SeededRNG(653637408).next()] returns exactly 1: the state
    becomes 0xFFFFFFFF, which [next()] divides by 0xFFFFFFFF.  The value is
    not below 1, and [pick] then reads one past the end of its array. *)
Theorem SeededRNG_next_returns_one :
  Music.next (Music.new_SeededRNG 653637408) = (Music.mkRNG 4294967295, 1%float) /\
  PrimFloat.ltb (Music.nth_next 0 (Music.new_SeededRNG 653637408)) 1%float = false /\
  snd (Music.pick ["major"; "minor"; "dorian"] (Music.new_SeededRNG 653637408)) = None.
Proof. vm_compute. auto. Qed.

(** The same seed comes out of the analyzer for a repository whose only
    commit has a hash starting with 26f5b720. *)
Lemma seed_26f5b720 : Github.seed_of [commit_26f5] = 653637408.
Proof. reflexivity. Qed.

(** ** The story engine *)

Ltac run := cbv beta iota delta
                [bind ret get modify update this_state emit Math_random Date_now throw
                 state generating suspended localStorage rand rand_pos clock clock_pos log
                 with_state with_generating with_suspended with_localStorage with_rand_pos
                 with_clock_pos with_log fst snd
                 set_xp set_hp set_maxHp set_level set_inventory set_questLog set_history
                 set_commitIndex set_chapter set_currentScene set_savedAt
                 xp level style commits commitIndex repo analysis chapter hp maxHp
                 inventory questLog history currentScene startedAt savedAt].

Ltac run_in H := cbv beta iota delta
                [bind ret get modify update this_state emit Math_random Date_now throw
                 state generating suspended localStorage rand rand_pos clock clock_pos log
                 with_state with_generating with_suspended with_localStorage with_rand_pos
                 with_clock_pos with_log fst snd
                 set_xp set_hp set_maxHp set_level set_inventory set_questLog set_history
                 set_commitIndex set_chapter set_currentScene set_savedAt
                 xp level style commits commitIndex repo analysis chapter hp maxHp
                 inventory questLog history currentScene startedAt savedAt] in H.

Ltac fields := cbn [set_xp set_hp set_maxHp set_level set_inventory set_questLog set_history
                    set_commitIndex set_chapter set_currentScene set_savedAt
                    xp level style commits commitIndex repo analysis chapter hp maxHp
                    inventory questLog history currentScene startedAt savedAt].

Lemma addQuestEntry_run txt st g su ls rd rp ck cp lg :
  exists ql lg',
    addQuestEntry txt (mkSys (Some st) g su ls rd rp ck cp lg)
    = (Ok tt, mkSys (Some (set_questLog ql st)) g su ls rd rp ck cp lg').
Proof.
  unfold addQuestEntry. run.
  destruct (bool_decide _); run; eauto.
Qed.

Lemma quest_if_run (c : bool) txt st g su ls rd rp ck cp lg :
  exists ql lg',
    (if c then addQuestEntry txt else ret tt) (mkSys (Some st) g su ls rd rp ck cp lg)
    = (Ok tt, mkSys (Some (set_questLog ql st)) g su ls rd rp ck cp lg').
Proof.
  destruct c; [apply addQuestEntry_run|].
  exists (questLog st), lg. destruct st; reflexivity.
Qed.

Ltac quest_step :=
  match goal with
  | |- context [addQuestEntry ?t (mkSys (Some ?s) ?g ?su ?ls ?rd ?rp ?ck ?cp ?lg)] =>
      let ql := fresh "ql" in let lg' := fresh "lg" in let E := fresh "E" in
      destruct (addQuestEntry_run t s g su ls rd rp ck cp lg) as (ql & lg' & E);
      rewrite E; clear E
  | |- context [(if ?c then addQuestEntry ?t else ?k)
                  (mkSys (Some ?s) ?g ?su ?ls ?rd ?rp ?ck ?cp ?lg)] =>
      let ql := fresh "ql" in let lg' := fresh "lg" in let E := fresh "E" in
      destruct (quest_if_run c t s g su ls rd rp ck cp lg) as (ql & lg' & E);
      change k with (@ret unit tt);
      rewrite E; clear E
  end.

Lemma applyChoiceConsequences_run choice index st g su ls rd rp ck cp lg :
  exists st' rp' lg',
    applyChoiceConsequences choice index (mkSys (Some st) g su ls rd rp ck cp lg)
    = (Ok tt, mkSys (Some st') g su ls rd rp' ck cp lg') /\
    Consequences index (rd rp) (rd (S rp)) (rd (S (S rp))) st st'.
Proof.
  destruct st as [rpo sty cs an idx ch h mh x lv inv ql hist scn t0 sv].
  unfold applyChoiceConsequences. run.
  set (msg := lowered_subject _).
  assert (Hlu : levels_up (x + (20 + floor_mul (rd rp) 30))
                  (mkState rpo sty cs an idx ch h mh x lv inv ql hist scn t0 sv)
                = ((or_number (Music.at_index XP_PER_LEVEL lv) 9999 <=?
                      x + (20 + floor_mul (rd rp) 30)) && (lv <? 10))) by reflexivity.
  assert (Hfinish : forall st' rp' lg',
            Consequences index (rd rp) (rd (S rp)) (rd (S (S rp)))
              (mkState rpo sty cs an idx ch h mh x lv inv ql hist scn t0 sv) st' ->
            exists st'' rp'' lg'',
              (Ok tt, mkSys (Some st') g su ls rd rp' ck cp lg')
              = (Ok tt, mkSys (Some st'') g su ls rd rp'' ck cp lg'') /\
              Consequences index (rd rp) (rd (S rp)) (rd (S (S rp)))
                (mkState rpo sty cs an idx ch h mh x lv inv ql hist scn t0 sv) st'')
    by (intros st' rp' lg' H; exists st', rp', lg'; split; [reflexivity|exact H]).
  destruct (_ && (lv <? 10)) eqn:Elu in |- *;
    run; try quest_step; run;
    (destruct (Str.test fix_pattern msg) eqn:Efix); run;
    (destruct (Str.test feat_pattern msg) eqn:Efeat); run;
    try (destruct (above_0_6 (rd (S rp))) eqn:Eab; run);
    try (destruct (Music.at_index (items sty) _) as [item|] eqn:Eitem; run);
    try (destruct (negb (bool_decide (item ∈ inv)) && _) eqn:Ecap; run);
    do 3 (quest_step; run);
    apply Hfinish; constructor; fields;
    unfold hp_rule, inventory_rule, offered_item; fields;
    change (lowered_subject _) with msg;
    rewrite ?Hlu, ?Elu, ?Efix, ?Efeat, ?Eab; cbn [andb negb];
    rewrite ?Eitem, ?Ecap;
    try reflexivity; try lia.
Qed.

(** *** The draws

    [Math.random() * n] is a binary64 product, rounded to nearest.  The
    lemmas below follow the rounding of [SpecFloat] far enough to show that
    the product of a number of [0, 1) and of a small integer [n] stays below
    [n], so that [Math.floor] of it is an index from 0 to [n - 1]. *)
Lemma digits2_pos_bounds (m : positive) :
  2 ^ (Zpos (digits2_pos m) - 1) <= Zpos m < 2 ^ Zpos (digits2_pos m).
Proof.
  induction m as [m IH|m IH|]; cbn [digits2_pos].
  - rewrite Pos2Z.inj_succ, Z.pow_succ_r by lia.
    replace (Z.succ (Zpos (digits2_pos m)) - 1) with (Z.succ (Zpos (digits2_pos m) - 1)) by lia.
    rewrite Z.pow_succ_r by lia. lia.
  - rewrite Pos2Z.inj_succ, Z.pow_succ_r by lia.
    replace (Z.succ (Zpos (digits2_pos m)) - 1) with (Z.succ (Zpos (digits2_pos m) - 1)) by lia.
    rewrite Z.pow_succ_r by lia. lia.
  - cbn. lia.
Qed.

Lemma shifted_step (m0 n : Z) (mrs : shr_record) :
  0 <= m0 -> 0 <= n -> shifted m0 n mrs -> shifted m0 (n + 1) (shr_1 mrs).
Proof.
  intros Hm Hn [Hq _].
  assert (Hp : 0 < 2 ^ n) by (apply Z.pow_pos_nonneg; lia).
  assert (Hq0 : 0 <= m0 / 2 ^ n) by (apply Z.div_pos; lia).
  assert (E : 2 ^ (n + 1) = 2 ^ n * 2) by (rewrite Z.pow_add_r by lia; reflexivity).
  pose proof (Z.div_mod m0 (2 ^ n) ltac:(lia)) as Hdm.
  pose proof (Z.mod_pos_bound m0 (2 ^ n) Hp) as Hmb.
  assert (Hdiv : m0 / 2 ^ (n + 1) = m0 / 2 ^ n / 2)
    by (rewrite E, Z.div_div by lia; reflexivity).
  destruct mrs as [m r s]. cbn [shr_m] in Hq. subst m.
  unfold shifted. rewrite Hdiv.
  assert (Hodd : forall q', m0 / 2 ^ n = 2 * q' + 1 -> 0 <= q' ->
                            2 ^ (n + 1) <= 2 * (m0 mod 2 ^ (n + 1))).
  { intros q' Eq Hq'.
    assert (Em : m0 mod 2 ^ (n + 1) = 2 ^ n + m0 mod 2 ^ n).
    { symmetry. apply (Z.mod_unique_pos m0 (2 ^ (n + 1)) q'); nia. }
    rewrite Em, E. lia. }
  destruct (m0 / 2 ^ n) as [|[p|p|]|p] eqn:Eq; cbn [shr_1 shr_m shr_r]; try lia.
  - split; [reflexivity|discriminate].
  - split.
    + change (Z.pos p~1) with (2 * Z.pos p + 1). apply Z.div_unique with 1; lia.
    + intros _. apply (Hodd (Zpos p)); lia.
  - split.
    + change (Z.pos p~0) with (2 * Z.pos p). apply Z.div_unique with 0; lia.
    + discriminate.
  - split; [reflexivity|]. intros _. apply (Hodd 0); lia.
Qed.

Lemma shifted_iter (m0 : Z) (p : positive) :
  0 <= m0 ->
  forall n mrs, 0 <= n -> shifted m0 n mrs -> shifted m0 (n + Zpos p) (SpecFloat.iter_pos shr_1 p mrs).
Proof.
  intros Hm. induction p as [p IH|p IH|]; intros n mrs Hn H; cbn [SpecFloat.iter_pos].
  - replace (n + Z.pos p~1) with (n + 1 + Zpos p + Zpos p) by lia.
    apply IH; [lia|]. apply IH; [lia|]. apply shifted_step; assumption.
  - replace (n + Z.pos p~0) with (n + Zpos p + Zpos p) by lia.
    apply IH; [lia|]. apply IH; assumption.
  - apply shifted_step; assumption.
Qed.

(** A shift followed by rounding to nearest: the exponent reached, and the
    mantissa, which stands for no more than the number shifted plus half a
    unit of the new exponent. *)
Lemma shr_round (m0 e e' : Z) :
  0 <= m0 ->
  let mrs := fst (shr (Build_shr_record m0 false false) e (e' - e)) in
  let m1 := round_nearest_even (shr_m mrs) (loc_of_shr_record mrs) in
  snd (shr (Build_shr_record m0 false false) e (e' - e)) = Z.max e e' /\
  0 <= shr_m mrs /\ shr_m mrs * 2 ^ (Z.max e e' - e) <= m0 /\
  0 <= m1 /\ 2 * m1 * 2 ^ (Z.max e e' - e) <= 2 * m0 + 2 ^ (Z.max e e' - e).
Proof.
  intros Hm. cbv zeta. unfold shr.
  destruct (e' - e) as [|p|p] eqn:En; cbn [fst snd shr_m loc_of_shr_record round_nearest_even].
  - replace (Z.max e e') with e by lia. rewrite Z.sub_diag. cbn. lia.
  - replace (Z.max e e') with (e + Zpos p) by lia.
    replace (e + Zpos p - e) with (Zpos p) by lia.
    pose proof (shifted_iter m0 p Hm 0 (Build_shr_record m0 false false) ltac:(lia)) as H.
    change (0 + Zpos p) with (Zpos p) in H.
    destruct H as [Hq Hr].
    { split; [cbn; rewrite Z.div_1_r; reflexivity|discriminate]. }
    assert (Hp : 0 < 2 ^ Zpos p) by (apply Z.pow_pos_nonneg; lia).
    pose proof (Z.div_mod m0 (2 ^ Zpos p) ltac:(lia)) as Hdm.
    pose proof (Z.mod_pos_bound m0 (2 ^ Zpos p) Hp) as Hmb.
    assert (Hq0 : 0 <= m0 / 2 ^ Zpos p) by (apply Z.div_pos; lia).
    destruct (SpecFloat.iter_pos shr_1 p _) as [m r s]. cbn [shr_m shr_r] in *. subst m.
    split; [reflexivity|]. split; [exact Hq0|]. split; [nia|].
    destruct r, s; cbn [loc_of_shr_record round_nearest_even];
      try destruct (Z.even _); try specialize (Hr eq_refl); split; nia.
  - replace (Z.max e e') with e by lia. rewrite Z.sub_diag. cbn. lia.
Qed.

(** The result of rounding the positive number [m0 * 2^e] to binary64. *)
Lemma binary_round_aux_pos (m0 : positive) (e : Z) :
  exists m1 m2 e1 e2,
    e1 = Z.max e (fexp prec emax (Zpos (digits2_pos m0) + e)) /\
    0 <= m1 /\ 2 * m1 * 2 ^ (e1 - e) <= 2 * Zpos m0 + 2 ^ (e1 - e) /\
    e2 = Z.max e1 (fexp prec emax (Zdigits2 m1 + e1)) /\
    0 <= m2 /\ m2 * 2 ^ (e2 - e1) <= m1 /\
    binary_round_aux prec emax false (Zpos m0) e loc_Exact
    = match m2 with
      | Z0 => S754_zero false
      | Zpos m => if e2 <=? emax - prec then S754_finite false m e2 else S754_infinity false
      | Zneg _ => S754_nan
      end.
Proof.
  unfold binary_round_aux, shr_fexp. cbn [shr_record_of_loc Zdigits2].
  remember (fexp prec emax (Zpos (digits2_pos m0) + e)) as f1 eqn:Ef1.
  pose proof (shr_round (Zpos m0) e f1 ltac:(lia)) as H1. cbv zeta in H1.
  destruct (shr {| shr_m := Zpos m0; shr_r := false; shr_s := false |} e (f1 - e))
    as [mrs1 e1]. cbn [fst snd] in H1. destruct H1 as (He1 & _ & _ & Hm1 & Hb1).
  remember (round_nearest_even (shr_m mrs1) (loc_of_shr_record mrs1)) as m1 eqn:Em1.
  remember (fexp prec emax (Zdigits2 m1 + e1)) as f2 eqn:Ef2.
  pose proof (shr_round m1 e1 f2 Hm1) as H2. cbv zeta in H2.
  destruct (shr {| shr_m := m1; shr_r := false; shr_s := false |} e1 (f2 - e1))
    as [mrs2 e2]. cbn [fst snd] in H2. destruct H2 as (He2 & Hm2 & Hb2 & _ & _).
  exists m1, (shr_m mrs2), e1, e2.
  rewrite <- He1 in Hb1. rewrite <- He2 in Hb2.
  split; [exact He1|]. split; [exact Hm1|]. split; [exact Hb1|].
  split; [rewrite <- Ef2; exact He2|]. split; [exact Hm2|]. split; [exact Hb2|].
  reflexivity.
Qed.

(** A number of [0, 1): a zero, or a positive number below 1 with its 53
    bits at most. *)
Lemma in01_cases (x : float) :
  in01 x = true ->
  (exists s, Prim2SF x = S754_zero s) \/
  (exists m e, Prim2SF x = S754_finite false m e /\ Zpos m < 2 ^ 53 /\ e <= -53).
Proof.
  unfold in01. rewrite leb_spec, ltb_spec. intros H. apply andb_prop in H as [H0 H1].
  pose proof (Prim2SF_valid x) as Hv.
  change (Prim2SF 0%float) with (S754_zero false) in H0.
  change (Prim2SF 1%float) with (S754_finite false 4503599627370496 (-52)) in H1.
  destruct (Prim2SF x) as [s|s| |s m e]; [left; eauto| | |].
  - destruct s; discriminate.
  - discriminate.
  - right. destruct s; [discriminate|]. exists m, e. split; [reflexivity|].
    cbn [valid_binary] in Hv. unfold bounded, canonical_mantissa, fexp in Hv.
    apply andb_prop in Hv as [Hc _]. apply Z.eqb_eq in Hc.
    pose proof (digits2_pos_bounds m) as Hd.
    unfold SFltb, SFcompare in H1.
    destruct (Z.compare_spec e (-52)) as [->|Hlt|Hgt]; [| |discriminate].
    + exfalso.
      rewrite Pos.compare_cont_spec in H1.
      destruct (Pos.compare_spec m 4503599627370496) as [Ec|Ec|Ec]; try discriminate.
      apply Pos2Z.pos_lt_pos in Ec.
      assert (Hm : Zpos m < 2 ^ 52) by (change (2 ^ 52) with 4503599627370496; exact Ec).
      assert (Hdig : Zpos (digits2_pos m) <= 52).
      { destruct (Z.le_gt_cases (Zpos (digits2_pos m)) 52) as [|Hgt]; [assumption|exfalso].
        assert (2 ^ 52 <= 2 ^ (Zpos (digits2_pos m) - 1)) by (apply Z.pow_le_mono_r; lia).
        lia. }
      unfold emin in Hc. change prec with 53 in Hc. change emax with 1024 in Hc. lia.
    + unfold emin in Hc. change prec with 53 in Hc. change emax with 1024 in Hc.
      assert (Hdig : Zpos (digits2_pos m) <= 53) by lia.
      split; [|lia].
      eapply Z.lt_le_trans; [apply Hd|]. apply Z.pow_le_mono_r; lia.
Qed.

Lemma pow2_pos (k : Z) : 0 <= k -> 0 < 2 ^ k.
Proof. intros. apply Z.pow_pos_nonneg; lia. Qed.

Lemma pow2_split (a b : Z) : 0 <= a -> 0 <= b -> 2 ^ (a + b) = 2 ^ a * 2 ^ b.
Proof. intros. apply Z.pow_add_r; assumption. Qed.

(** The digits of a number below a power of two. *)
Lemma digits_below (m : Z) (k : Z) : 0 <= m -> 0 <= k -> m < 2 ^ k -> Zdigits2 m <= k.
Proof.
  intros Hm Hk H. destruct m as [|p|p]; cbn [Zdigits2]; [lia| |lia].
  pose proof (digits2_pos_bounds p) as [Hd _].
  destruct (Z.le_gt_cases (Zpos (digits2_pos p)) k) as [|Hgt]; [assumption|exfalso].
  assert (2 ^ k <= 2 ^ (Zpos (digits2_pos p) - 1)) by (apply Z.pow_le_mono_r; lia).
  lia.
Qed.

(** The product of a number of [0, 1) and of the integer [n], as binary64
    arithmetic rounds it, is below [n]: the product is short of [n] by more
    than half a unit in the last place. *)
Lemma mul_below (x c : float) (n J : Z) (my : positive) (ey : Z) :
  in01 x = true ->
  Prim2SF c = S754_finite false my ey -> ey <= 0 -> Zpos my = n * 2 ^ (- ey) ->
  1 <= J <= 53 -> 2 ^ (J - 1) < n <= 2 ^ J ->
  (exists s, Prim2SF (x * c) = S754_zero s) \/
  (exists m e, Prim2SF (x * c) = S754_finite false m e /\ e <= 0 /\ Zpos m < n * 2 ^ (- e)).
Proof.
  intros Hx Hc Hey Hmy HJ Hn. rewrite mul_spec, Hc. unfold SF64mul.
  destruct (in01_cases x Hx) as [(s & ->)|(mx & ex & -> & Hmx & Hex)]; [left; cbn; eauto|].
  cbn [SFmul xorb].
  destruct (binary_round_aux_pos (mx * my) (ex + ey))
    as (m1 & m2 & e1 & e2 & He1 & Hm1 & Hb1 & He2 & Hm2 & Hb2 & ->).
  remember (ex + ey) as e eqn:Ee.
  remember (Zpos (digits2_pos (mx * my))) as dP eqn:EdP.
  pose proof (digits2_pos_bounds (mx * my)) as [HdP _]. rewrite <- EdP in HdP.
  rewrite Pos2Z.inj_mul in HdP, Hb1. rewrite Hmy in HdP, Hb1.
  (* the powers involved *)
  set (B := 2 ^ (- ey)) in *.
  set (A' := 2 ^ (- ex - 53)).
  assert (HB : 0 < B) by (apply pow2_pos; lia).
  assert (HA' : 0 < A') by (apply pow2_pos; lia).
  assert (EA : 2 ^ (- ex) = 2 ^ 53 * A')
    by (unfold A'; rewrite <- pow2_split by lia; f_equal; lia).
  assert (Ee' : 2 ^ (- e) = 2 ^ 53 * A' * B).
  { rewrite <- EA. unfold B. rewrite <- pow2_split by lia. f_equal. lia. }
  assert (Hn0 : 0 < n) by (pose proof (pow2_pos (J - 1) ltac:(lia)); lia).
  (* the exact product is short of [n] *)
  assert (Hshort : Zpos mx * (n * B) + n * B * A' <= n * 2 ^ (- e)).
  { rewrite Ee'. assert (Zpos mx <= Zpos mx * A') by nia.
    assert (Zpos mx * A' <= (2 ^ 53 - 1) * A') by nia.
    assert (0 < n * B) by nia. nia. }
  (* the exponent of the first rounding *)
  assert (HPJ : Zpos mx * (n * B) < 2 ^ (J - e)).
  { replace (J - e) with (J + - e) by lia. rewrite pow2_split by lia.
    assert (0 < n * B * A') by nia.
    assert (n * 2 ^ (- e) <= 2 ^ J * 2 ^ (- e)).
    { apply Z.mul_le_mono_nonneg_r; [|lia]. pose proof (pow2_pos (- e) ltac:(lia)). lia. }
    lia. }
  assert (HdJ : dP + e <= J).
  { assert (2 ^ (dP - 1) < 2 ^ (J - e)) by lia.
    apply Z.pow_lt_mono_r_iff in H; lia. }
  assert (He1J : e1 <= J - 53).
  { rewrite He1. unfold fexp, emin. change prec with 53. change emax with 1024. lia. }
  (* half a unit in the last place is less than what the product is short of *)
  assert (Hhalf : 2 ^ (e1 - e) < 2 * (n * B * A')).
  { assert (2 ^ (e1 - e) <= 2 ^ (J - 53 - e)) by (apply Z.pow_le_mono_r; lia).
    replace (J - 53 - e) with ((J - 1) + (1 + ((- ex - 53) + - ey))) in H by lia.
    rewrite pow2_split in H by lia. rewrite pow2_split in H by lia.
    rewrite pow2_split in H by lia. fold A' B in H. change (2 ^ 1) with 2 in H.
    assert (0 < A' * B) by nia. nia. }
  assert (Hp1 : 0 < 2 ^ (e1 - e)) by (apply pow2_pos; lia).
  assert (Hm1n : m1 < n * 2 ^ (- e1)).
  { assert (E : 2 ^ (- e) = 2 ^ (- e1) * 2 ^ (e1 - e))
      by (rewrite <- pow2_split by lia; f_equal; lia).
    rewrite E in Hshort. pose proof (pow2_pos (- e1) ltac:(lia)). nia. }
  assert (Hd1 : Zdigits2 m1 + e1 <= J).
  { assert (m1 < 2 ^ (J - e1)).
    { replace (J - e1) with (J + - e1) by lia. rewrite pow2_split by lia.
      pose proof (pow2_pos (- e1) ltac:(lia)). nia. }
    pose proof (digits_below m1 (J - e1) Hm1 ltac:(lia) H). lia. }
  assert (He2J : e1 <= e2 <= J - 53).
  { rewrite He2. unfold fexp, emin. change prec with 53. change emax with 1024. lia. }
  assert (Hm2n : m2 < n * 2 ^ (- e2)).
  { assert (E : 2 ^ (- e1) = 2 ^ (- e2) * 2 ^ (e2 - e1))
      by (rewrite <- pow2_split by lia; f_equal; lia).
    rewrite E in Hm1n. pose proof (pow2_pos (- e2) ltac:(lia)).
    pose proof (pow2_pos (e2 - e1) ltac:(lia)). nia. }
  destruct m2 as [|m|m]; [left; eauto| |lia].
  right. exists m, e2.
  assert (El : (e2 <=? emax - prec) = true)
    by (apply Z.leb_le; change prec with 53; change emax with 1024; lia).
  rewrite El. split; [reflexivity|]. split; [lia|exact Hm2n].
Qed.

(** [Math.floor(r * n)] is an index below [n], whatever the draw [r]. *)
Lemma floor_below (x c : float) (n J : Z) (my : positive) (ey : Z) :
  in01 x = true ->
  Prim2SF c = S754_finite false my ey -> ey <= 0 -> Zpos my = n * 2 ^ (- ey) ->
  1 <= J <= 53 -> 2 ^ (J - 1) < n <= 2 ^ J ->
  exists k, JS.Math_floor (PrimFloat.mul x c) = Some k /\ 0 <= k < n.
Proof.
  intros Hx Hc Hey Hmy HJ Hn. unfold JS.Math_floor.
  destruct (mul_below x c n J my ey Hx Hc Hey Hmy HJ Hn)
    as [(s & ->)|(m & e & -> & He & Hm)].
  - exists 0. split; [reflexivity|].
    pose proof (pow2_pos (J - 1) ltac:(lia)). lia.
  - destruct (Z.leb_spec 0 e) as [H0|H0].
    + assert (e = 0) as -> by lia. exists (Zpos m * 2 ^ 0). split; [reflexivity|].
      change (2 ^ (- 0)) with 1 in Hm. change (2 ^ 0) with 1. lia.
    + exists (Zpos m / 2 ^ (- e)). split; [reflexivity|].
      pose proof (pow2_pos (- e) ltac:(lia)) as Hp. split.
      * apply Z.div_pos; lia.
      * apply Z.div_lt_upper_bound; [exact Hp|]. rewrite Z.mul_comm. exact Hm.
Qed.

(** The two products of the engine: the gain of experience and the index
    into a pool of five items. *)
Lemma floor_mul_30 (r : Draw) :
  JS.Math_floor (PrimFloat.mul (draw r) (JS.float_of_Z 30)) = Some (floor_mul r 30) /\
  0 <= floor_mul r 30 < 30.
Proof.
  destruct (floor_below (draw r) (JS.float_of_Z 30) 30 5 8444249301319680 (-48)
              (draw_range r) eq_refl ltac:(lia) eq_refl ltac:(lia) ltac:(cbn; lia))
    as (k & E & Hk).
  unfold floor_mul. rewrite E. split; [reflexivity|exact Hk].
Qed.

Lemma floor_mul_5 (r : Draw) :
  JS.Math_floor (PrimFloat.mul (draw r) (JS.float_of_Z 5)) = Some (floor_mul r 5) /\
  0 <= floor_mul r 5 < 5.
Proof.
  destruct (floor_below (draw r) (JS.float_of_Z 5) 5 3 5629499534213120 (-50)
              (draw_range r) eq_refl ltac:(lia) eq_refl ltac:(lia) ltac:(cbn; lia))
    as (k & E & Hk).
  unfold floor_mul. rewrite E. split; [reflexivity|exact Hk].
Qed.

(** [Math.floor] has a value at each product the engine forms. *)
Lemma floor_mul_defined (r : Draw) (sty : Style) :
  JS.Math_floor (PrimFloat.mul (draw r) (JS.float_of_Z 30)) = Some (floor_mul r 30) /\
  JS.Math_floor (PrimFloat.mul (draw r) (JS.float_of_Z (Z.of_nat (length (items sty)))))
  = Some (floor_mul r (Z.of_nat (length (items sty)))).
Proof.
  split; [apply floor_mul_30|]. destruct sty; apply floor_mul_5.
Qed.

(** The index drawn for an item is within the pool. *)
Lemma floor_mul_in_pool (r : Draw) (sty : Style) :
  0 <= floor_mul r (Z.of_nat (length (items sty))) < Z.of_nat (length (items sty)).
Proof. destruct sty; apply floor_mul_5. Qed.

Lemma floor_mul_range (r : Draw) : 0 <= floor_mul r 30 < 30.
Proof. apply floor_mul_30. Qed.

Lemma xp_gain_range (r : Draw) : 20 <= 20 + floor_mul r 30 <= 49.
Proof. pose proof (floor_mul_range r). lia. Qed.

(** The products are the rounded ones: [0.7 * 30] is 21 and [0.6 * 5] is 3
    in binary64, where the products of the exact values are just below; the
    draw 0.6 itself is not above 0.6; and the largest draw stays within the
    range. *)
Example products_are_rounded :
  floor_mul draw_0_7 30 = 21 /\ floor_mul draw_0_7 5 = 3 /\
  floor_mul draw_0_6 30 = 18 /\ floor_mul draw_0_6 5 = 3 /\
  above_0_6 draw_0_6 = false /\ above_0_6 draw_0_7 = true /\
  floor_mul draw_last 30 = 29 /\ floor_mul draw_last 5 = 4 /\
  JS.string_of_rounded (integrity draw_0_7) = "94" /\
  JS.string_of_rounded (integrity draw_last) = "100".
Proof. vm_compute. auto 12. Qed.

(** A feat-like commit and a draw above 0.6 do offer an item of the pool:
    [pool[Math.floor(Math.random() * pool.length)]] is never [undefined]. *)
Lemma offered_item_drawn (sty : Style) (msg : string) (r2 r3 : Draw) :
  Str.test feat_pattern msg = true -> above_0_6 r2 = true ->
  exists item, offered_item sty msg r2 r3 = Some item /\ item ∈ items sty.
Proof.
  intros Hf Ha. unfold offered_item, Music.at_index. rewrite Hf, Ha. cbn [andb].
  pose proof (floor_mul_in_pool r3 sty) as Hi.
  destruct (Z.ltb_spec (floor_mul r3 (Z.of_nat (length (items sty)))) 0) as [?|_]; [lia|].
  destruct (lookup_lt_is_Some_2 (items sty)
              (Z.to_nat (floor_mul r3 (Z.of_nat (length (items sty))))) ltac:(lia))
    as [item E].
  exists item. split; [exact E|]. eapply list_elem_of_lookup_2, E.
Qed.

Lemma makeChoice_call_run sel st sc su ls rd rp ck cp lg :
  currentScene st = Some sc ->
  truthy (get_property (choices sc) sel) = true ->
  exists st1 rp' lg',
    Consequences sel (rd rp) (rd (S rp)) (rd (S (S rp)))
                 (recorded sc (get_property (choices sc) sel) st) st1 /\
    makeChoice_call sel (mkSys (Some st) false su ls rd rp ck cp lg)
    = if at_end (advanced st1)
      then (Ok Epilogue,
            mkSys (Some (set_currentScene (Some (epilogue_scene (advanced st1))) (advanced st1)))
                  false su ls rd rp' ck cp
                  (lg' ++ [SceneReady (epilogue_scene (advanced st1)) None]))
      else (Ok Awaiting,
            mkSys (Some (advanced st1)) true (Some MakeChoiceTask) ls rd rp' ck cp
                  (lg' ++ [SceneRequested (commitIndex (advanced st1))
                                          (text_of (get_property (choices sc) sel))])).
Proof.
  intros Hsc Hok.
  destruct (applyChoiceConsequences_run (get_property (choices sc) sel) sel
              (recorded sc (get_property (choices sc) sel) st)
              false su ls rd rp ck cp lg) as (st1 & rp' & lg' & E & HC).
  exists st1, rp', lg'. split; [exact HC|].
  clear HC.
  destruct st as [rpo sty cs an idx ch h mh x lv inv ql hist scn t0 sv].
  cbn in Hsc. subst scn.
  destruct st1 as [rpo1 sty1 cs1 an1 idx1 ch1 h1 mh1 x1 lv1 inv1 ql1 hist1 scn1 t1 sv1].
  unfold recorded in E. run_in E.
  unfold makeChoice_call, at_end, advanced, epilogue_scene. run. rewrite Hok. change (negb true) with false. run.
  rewrite E. run.
  destruct (_ && _); [unfold generateEpilogue | unfold generateNextScene_request]; run;
    reflexivity.
Qed.

(** *** The guards of [makeChoice] *)

Lemma makeChoice_call_ignored sel σ :
  ~ accepted sel σ -> makeChoice_call sel σ = (Ok Ignored, σ).
Proof.
  intros Hna. destruct σ as [[st|] g su ls rd rp ck cp lg]; [|reflexivity].
  unfold makeChoice_call. run.
  destruct g; [reflexivity|].
  destruct st as [rpo sty cs an idx ch h mh x lv inv ql hist [sc|] t0 sv]; [|reflexivity].
  run.
  destruct (truthy (get_property (choices sc) sel)) eqn:Ht; [|reflexivity].
  exfalso. apply Hna. split; [reflexivity|]. eauto 6.
Qed.

Lemma accepted_dec sel σ : accepted sel σ \/ ~ accepted sel σ.
Proof.
  destruct σ as [[st|] g su ls rd rp ck cp lg].
  2: { right. intros (_ & s & sc & H & _). discriminate. }
  destruct g.
  { right. intros (H & _). discriminate. }
  destruct (currentScene st) as [sc|] eqn:Hsc.
  2: { right. intros (_ & s & sc & [= <-] & H & _). cbn in H. congruence. }
  destruct (truthy (get_property (choices sc) sel)) eqn:Ht.
  - left. split; [reflexivity|]. eauto.
  - right. intros (_ & s & sc' & [= <-] & H & Ht'). cbn in H. congruence.
Qed.

(** *** Saving *)

Lemma saveGame_run slot st g su ls rd rp ck cp lg :
  saveGame slot (mkSys (Some st) g su ls rd rp ck cp lg)
  = (Ok tt,
     mkSys (Some (set_savedAt (Some (ck cp)) st)) g su
           (Storage.saveGame slot (set_savedAt (Some (ck cp)) st) (ck (S cp)) ls)
           rd rp ck (S (S cp)) lg).
Proof. reflexivity. Qed.

Lemma saveGame_none slot g su ls rd rp ck cp lg :
  saveGame slot (mkSys None g su ls rd rp ck cp lg)
  = (Ok tt, mkSys None g su ls rd rp ck cp lg).
Proof. reflexivity. Qed.

Lemma progress_set_savedAt v st : progress (set_savedAt v st) = progress st.
Proof. reflexivity. Qed.

Lemma progress_set_currentScene v st : progress (set_currentScene v st) = progress st.
Proof. reflexivity. Qed.

(** *** The fallback producer *)

Lemma append_nonempty_l (a b : string) : a <> "" -> a ++ b <> "".
Proof. destruct a; [congruence|]. discriminate. Qed.

Lemma append_nonempty_r (a b : string) : b <> "" -> a ++ b <> "".
Proof. destruct a; [intros H; exact H|]. discriminate. Qed.

Lemma templates_length c i total r sty : length (templates c i total r sty) = 3%nat.
Proof. destruct sty; reflexivity. Qed.

Lemma templates_nonempty c i total r sty t :
  t ∈ templates c i total r sty -> t <> "".
Proof.
  intros Hin.
  destruct sty; cbn [templates] in Hin;
    unfold templates_dnd, templates_scifi, templates_horror in Hin;
    repeat (apply elem_of_cons in Hin as [->|Hin]);
    try (apply elem_of_nil in Hin; contradiction);
    try discriminate;
    try (apply append_nonempty_r; discriminate).
Qed.

Lemma choiceSets_length sty : length (choiceSets sty) = 3%nat.
Proof. destruct sty; reflexivity. Qed.

Lemma generateFallbackScene_defined c sty i total r :
  exists sc, generateFallbackScene (Some c) sty i total r = Some sc /\ well_formed sc /\
             isEpilogue sc = false.
Proof.
  unfold generateFallbackScene.
  destruct (lookup_lt_is_Some_2 (templates c i total r sty)
              (i mod length (templates c i total r sty))%nat) as [t Ht].
  { rewrite templates_length. apply Nat.mod_upper_bound. discriminate. }
  rewrite Ht. eexists. split; [reflexivity|]. split; [|reflexivity]. split.
  - cbn. eapply templates_nonempty, list_elem_of_lookup_2, Ht.
  - cbn. apply choiceSets_length.
Qed.

Lemma current_commit_in_range st :
  0 <= commitIndex st < Z.of_nat (length (commits st)) ->
  exists c, current_commit st = Some c.
Proof.
  intros H. unfold current_commit, Music.at_index.
  destruct (Z.ltb_spec (commitIndex st) 0); [lia|].
  apply lookup_lt_is_Some_2. lia.
Qed.

Lemma resume_progress ans σ st' :
  state (snd (resume ans σ)) = Some st' ->
  exists st, state σ = Some st /\ progress st' = progress st.
Proof.
  destruct σ as [[st|] g [task|] ls rd rp ck cp lg];
    unfold resume, generateNextScene_resume, produced_scene, finally; run;
    try discriminate; try (intros [= <-]; eauto; fail).
  destruct st as [rpo sty cs an idx ch h mh x lv inv ql hist scn t0 sv]. run.
  destruct (generateScene cs ans) as [n chs|]; run.
  - destruct task; unfold saveGame; run; intros [= <-]; eauto.
  - destruct (current_commit _) as [c|]; run; [|intros [= <-]; eauto].
    destruct (generateFallbackScene _ _ _ _ _) as [sc|]; run; [|intros [= <-]; eauto].
    destruct task; unfold saveGame; run; intros [= <-]; eauto.
Qed.

Lemma resume_run ans st g task ls rd rp ck cp lg :
  commits st <> [] ->
  0 <= commitIndex st < Z.of_nat (length (commits st)) ->
  exists sc st' ls' rp' cp' lg',
    resume ans (mkSys (Some st) g (Some task) ls rd rp ck cp lg)
    = (Ok tt, mkSys (Some st') false None ls' rd rp' ck cp' lg') /\
    currentScene st' = Some sc /\
    progress st' = progress st /\
    match ans with
    | AIReturns n chs => sc = mkScene n chs false
    | AIThrows => well_formed sc /\ isEpilogue sc = false
    end.
Proof.
  intros Hne Hidx.
  destruct (current_commit_in_range st Hidx) as [c Hc].
  destruct st as [rpo sty cs an idx ch h mh x lv inv ql hist scn t0 sv].
  cbn in Hne, Hidx.
  unfold resume, generateNextScene_resume, produced_scene, finally. run.
  destruct cs as [|c0 cs]; [congruence|]. cbn [generateScene].
  destruct ans as [n chs|]; run.
  - destruct task; unfold saveGame; run;
      do 6 eexists; (split; [reflexivity|]); auto.
  - rewrite Hc. run.
    destruct (generateFallbackScene_defined c sty (Z.to_nat idx) (length (c0 :: cs)) (rd rp))
      as (sc & E & Hwf & Hep).
    rewrite E. run.
    destruct task; unfold saveGame; run;
      do 6 eexists; (split; [reflexivity|]); auto.
Qed.

(** *** Starting, and the producer answering *)

Lemma startGame_call_run rpo sty cs an st0 g su ls rd rp ck cp lg :
  startGame_call rpo sty cs an (mkSys st0 g su ls rd rp ck cp lg)
  = if g
    then (Ok Completed, mkSys (Some (initial rpo sty cs an (ck cp))) true su ls rd rp ck (S cp) lg)
    else (Ok Awaiting,
          mkSys (Some (initial rpo sty cs an (ck cp))) true (Some StartGameTask) ls rd rp ck (S cp)
                (lg ++ [SceneRequested 0 None])).
Proof. unfold startGame_call, createInitialState, generateNextScene_request. run. destruct g; reflexivity. Qed.

(** *** The invariant of the runs *)

Lemma Inv_initial rpo sty cs an t : Inv (initial rpo sty cs an t).
Proof.
  constructor; cbn; try lia.
  - constructor.
  - intros Hne. destruct cs; [congruence|]. cbn. lia.
Qed.

Lemma Inv_progress st st' : progress st' = progress st -> Inv st -> Inv st'.
Proof.
  intros E [H1 H2 H3 H4 H5 H6].
  destruct st, st'. cbv [progress set_savedAt set_currentScene] in E. cbn in *.
  injection E as -> -> -> -> -> -> -> -> -> -> -> -> -> ->.
  constructor; cbn; assumption.
Qed.

Lemma Inv_recorded sc ch st : Inv st -> Inv (recorded sc ch st).
Proof. intros [H1 H2 H3 H4 H5 H6]. constructor; assumption. Qed.

Lemma Inv_advanced st : Inv st -> Inv (advanced st).
Proof.
  intros [H1 H2 H3 H4 H5 H6]. constructor; try assumption.
  cbn. intros Hne. specialize (H6 Hne). lia.
Qed.

Lemma inventory_rule_ok inv offer :
  (length inv <= 8)%nat -> NoDup inv ->
  (length (inventory_rule inv offer) <= 8)%nat /\ NoDup (inventory_rule inv offer).
Proof.
  intros Hlen Hnd. unfold inventory_rule.
  destruct offer as [item|]; [|auto].
  destruct (negb _ && _) eqn:E; [|auto].
  apply andb_prop in E as [E1 E2].
  apply negb_true_iff, bool_decide_eq_false in E1.
  apply bool_decide_eq_true in E2.
  split.
  - rewrite length_app. cbn. lia.
  - apply NoDup_app. repeat split; [assumption| |apply NoDup_singleton].
    intros y Hy Hy'. apply list_elem_of_singleton in Hy'. subst. contradiction.
Qed.

Lemma Consequences_rest index r1 r2 r3 st st' :
  Consequences index r1 r2 r3 st st' ->
  commits st' = commits st /\ commitIndex st' = commitIndex st /\
  history st' = history st /\ currentScene st' = currentScene st /\
  style st' = style st /\ chapter st' = chapter st.
Proof.
  intros HC. pose proof (cq_rest _ _ _ _ _ _ HC) as E.
  repeat split.
  - apply (f_equal commits) in E. exact E.
  - apply (f_equal commitIndex) in E. exact E.
  - apply (f_equal history) in E. exact E.
  - apply (f_equal currentScene) in E. exact E.
  - apply (f_equal style) in E. exact E.
  - apply (f_equal chapter) in E. exact E.
Qed.

Lemma Inv_consequences index r1 r2 r3 st st' :
  Consequences index r1 r2 r3 st st' -> Inv st -> Inv st'.
Proof.
  intros HC [H1 H2 H3 H4 H5 H6].
  destruct (Consequences_rest _ _ _ _ _ _ HC) as (Ecs & Eidx & _).
  destruct HC as [Cxp Clv Cmh Chp Cinv _].
  pose proof (floor_mul_range r1) as Hr.
  destruct (inventory_rule_ok (inventory st) (offered_item (style st)
              (lowered_subject (current_commit st)) r2 r3) H4 H5) as [Hl Hn].
  constructor.
  - rewrite Chp, Cmh. unfold hp_rule.
    destruct (levels_up (xp st') st); destruct (Str.test fix_pattern _); lia.
  - rewrite Clv. unfold levels_up.
    destruct (Z.ltb_spec (level st) 10); rewrite ?andb_false_r;
      [destruct (_ <=? _); cbn [andb]|]; lia.
  - lia.
  - rewrite Cinv. exact Hl.
  - rewrite Cinv. exact Hn.
  - rewrite Ecs, Eidx. exact H6.
Qed.

Lemma reachable_Inv σ : reachable σ -> forall st, state σ = Some st -> Inv st.
Proof.
  induction 1 as [σ (Hs & _) | σ a Hr IH]; intros st' Hst'.
  - congruence.
  - destruct a as [rpo sty cs an | sel | ans | slot]; cbn [perform] in Hst'.
    + destruct σ as [st0 g su ls rd rp ck cp lg].
      rewrite startGame_call_run in Hst'.
      destruct g; cbn in Hst'; injection Hst' as <-; apply Inv_initial.
    + destruct (accepted_dec sel σ) as [Hacc|Hna].
      * destruct Hacc as (Hg & st & sc & Hst & Hsc & Hok).
        destruct σ as [st0 g su ls rd rp ck cp lg]. cbn in Hg, Hst. subst.
        destruct (makeChoice_call_run sel st sc su ls rd rp ck cp lg Hsc Hok)
          as (st1 & rp' & lg' & HC & E).
        rewrite E in Hst'.
        assert (Inv (advanced st1)) as Hadv.
        { apply Inv_advanced. eapply Inv_consequences; [exact HC|].
          apply Inv_recorded, IH. reflexivity. }
        destruct (at_end (advanced st1)); cbn in Hst'; injection Hst' as <-.
        -- eapply Inv_progress; [|exact Hadv]. reflexivity.
        -- exact Hadv.
      * rewrite makeChoice_call_ignored in Hst' by exact Hna. apply IH, Hst'.
    + destruct (resume_progress ans σ st' Hst') as (st & Hst & E).
      eapply Inv_progress; [exact E|]. apply IH, Hst.
    + destruct σ as [[st|] g su ls rd rp ck cp lg].
      * rewrite saveGame_run in Hst'. cbn in Hst'. injection Hst' as <-.
        eapply Inv_progress; [|apply IH; reflexivity]. reflexivity.
      * rewrite saveGame_none in Hst'. discriminate.
Qed.

Lemma snd_bind_resume ans (o : Outcome) σ :
  snd ((resume ans;; ret o) σ) = perform (Answer ans) σ.
Proof.
  cbn [perform]. unfold bind at 1. destruct (resume ans σ) as [[[]|e] σ']; reflexivity.
Qed.

Lemma reachable_makeChoice sel ans σ :
  reachable σ -> reachable (snd (makeChoice sel ans σ)).
Proof.
  intros Hr. unfold makeChoice. unfold bind at 1.
  pose proof (reach_step σ (Choose sel) Hr) as Hc. cbn [perform] in Hc.
  destruct (makeChoice_call sel σ) as [[o|e] σ']; cbn [snd] in *; [|exact Hc].
  destruct o; try exact Hc.
  rewrite snd_bind_resume. apply reach_step, Hc.
Qed.

Lemma reachable_startGame rpo sty cs an ans σ :
  reachable σ -> reachable (snd (startGame rpo sty cs an ans σ)).
Proof.
  intros Hr. unfold startGame. unfold bind at 1.
  pose proof (reach_step σ (Start rpo sty cs an) Hr) as Hc. cbn [perform] in Hc.
  destruct (startGame_call rpo sty cs an σ) as [[o|e] σ']; cbn [snd] in *; [|exact Hc].
  destruct o; try exact Hc.
  rewrite snd_bind_resume. apply reach_step, Hc.
Qed.

Lemma started_reachable : reachable started.
Proof. apply reachable_startGame, reach_fresh. repeat split. Qed.


(** ** The patterns of the story engine and those of the analyzer *)

Lemma search_hotfix_fix (m : string) :
  Str.search (Str.lit "hotfix") m = true -> Str.search (Str.lit "fix") m = true.
Proof.
  induction m as [|c m IH]; [discriminate|].
  cbn [Str.search]. intros H. apply orb_prop in H as [H|H].
  - unfold Str.lit in H. cbn [Str.chars list_ascii_of_string List.map Str.match_here] in H.
    repeat match type of H with
           | (_ && _) = true => apply andb_prop in H as [?Hc H]
           | match ?x with EmptyString => _ | String _ _ => _ end = true =>
               destruct x; [discriminate|]
           end.
    unfold Str.atom_matches in *.
    repeat match goal with
           | Hc : bool_decide (_ = _) = true |- _ => apply bool_decide_eq_true in Hc; subst
           end.
    reflexivity.
  - rewrite (IH H). apply orb_true_r.
Qed.

(** The fix pattern of the story engine, [fix|bug|patch], and the one of the
    analyzer, [fix|bug|patch|hotfix], match the same strings. *)
Lemma fix_pattern_same (m : string) :
  Str.test Github.fix_like m = Str.test fix_pattern m.
Proof.
  unfold Str.test, Github.fix_like, fix_pattern. cbn [existsb].
  pose proof (search_hotfix_fix m) as H.
  destruct (Str.search (Str.lit "fix") m); [reflexivity|].
  destruct (Str.search (Str.lit "hotfix") m); [discriminate (H eq_refl)|].
  rewrite !orb_false_r. reflexivity.
Qed.

(** The feat pattern of the story engine, [feat|add|new], matches a part of
    what the one of the analyzer, [feat|add|new|implement], matches. *)
Lemma feat_pattern_within (m : string) :
  Str.test feat_pattern m = true -> Str.test Github.feat_like m = true.
Proof.
  unfold Str.test, Github.feat_like, feat_pattern. cbn [existsb].
  destruct (Str.search (Str.lit "feat") m); [reflexivity|].
  destruct (Str.search (Str.lit "add") m); [reflexivity|].
  destruct (Str.search (Str.lit "new") m); [reflexivity|discriminate].
Qed.

Example implement_is_feat_like_only :
  Str.test Github.feat_like "implement parser" = true /\
  Str.test feat_pattern "implement parser" = false.
Proof. vm_compute. auto. Qed.

(** ** Guards of [makeChoice] *)

Lemma index_selection_truthy (arr : list Choice) (i : Z) :
  truthy (get_property arr (SelIndex i)) = true <-> 0 <= i < Z.of_nat (length arr).
Proof.
  unfold get_property, Music.at_index.
  destruct (Z.ltb_spec i 0) as [Hneg|Hpos]; cbn.
  - split; [discriminate|lia].
  - destruct (arr !! Z.to_nat i) as [c|] eqn:E; cbn.
    + apply lookup_lt_Some in E. split; [lia|reflexivity].
    + apply lookup_ge_None in E. split; [discriminate|lia].
Qed.

Lemma inherited_name_truthy (arr : list Choice) (t : string) :
  t ∈ inherited_names -> truthy (get_property arr (SelText t)) = true.
Proof.
  intros Hin. unfold inherited_names in Hin.
  repeat (apply elem_of_cons in Hin as [->|Hin]; [reflexivity|]).
  apply elem_of_nil in Hin. contradiction.
Qed.

(** A call made while a generation is in flight, with no game, with no scene
    on show, or with a position that is not one of the choices on show,
    changes nothing and asks for no scene. *)
Lemma makeChoice_guards (choiceIndex : Selection) (σ : Sys) :
  state σ = None \/
  generating σ = true \/
  (exists s, state σ = Some s /\ currentScene s = None) \/
  (exists s scene i, state σ = Some s /\ currentScene s = Some scene /\
                     choiceIndex = SelIndex i /\ ~ (0 <= i < Z.of_nat (length (choices scene)))) ->
  makeChoice_call choiceIndex σ = (Ok Ignored, σ).
Proof.
  intros H. apply makeChoice_call_ignored. intros (Hg & s & sc & Hs & Hsc & Ht).
  destruct H as [H | [H | [(s' & Hs' & Hn) | (s' & sc' & i & Hs' & Hsc' & -> & Hi)]]];
    try congruence.
  assert (s' = s) by congruence. subst s'.
  assert (sc' = sc) by congruence. subst sc'.
  apply Hi, index_selection_truthy, Ht.
Qed.

(** C8.  The text [push], typed into the free-text field while the first
    scene is on show, is none of the three choices, yet [scene.choices["push"]]
    is the method every array inherits, which is truthy: the turn is played
    ([history] gets an entry whose [choice] is [undefined], experience is
    gained, the cursor moves on) and the next scene is requested. *)
Theorem makeChoice_accepts_inherited_name :
  (forall s scene, state started = Some s -> currentScene s = Some scene ->
                   ~ names_choice (SelText "push") scene) /\
  makeChoice_call (SelText "push") started <> (Ok Ignored, started) /\
  exists σ' s',
    makeChoice_call (SelText "push") started = (Ok Awaiting, σ') /\
    state σ' = Some s' /\
    List.map h_choice (history s') = [HoldsUndefined] /\
    xp s' = 41 /\ hp s' = 100 /\ commitIndex s' = 1 /\
    generating σ' = true /\
    last (log σ') = Some (SceneRequested 1 None).
Proof.
  split; [|split].
  - intros s scene Hs Hsc (i & Hi & _). vm_compute in Hi. discriminate.
  - vm_compute. discriminate.
  - eexists _, _. split; [vm_compute; reflexivity|]. vm_compute. auto 10.
Qed.

(** ** Saving and loading *)

Lemma loadGame_found slot saved σ :
  Storage.loadGame slot (localStorage σ) = Some saved ->
  loadGame slot σ = (Ok saved, with_state (Some saved) σ).
Proof.
  destruct σ as [st0 g su ls rd rp ck cp lg]. cbn [localStorage]. intros H.
  unfold loadGame. run. rewrite H. reflexivity.
Qed.

Lemma loadGame_not_found slot σ :
  Storage.loadGame slot (localStorage σ) = None ->
  loadGame slot σ = (Throw "Save not found", σ).
Proof.
  destruct σ as [st0 g su ls rd rp ck cp lg]. cbn [localStorage]. intros H.
  unfold loadGame. run. rewrite H. reflexivity.
Qed.

Lemma storage_load_save slot st now ls :
  Storage.loadGame slot (Storage.saveGame slot st now ls)
  = Some (Json.game_state (set_savedAt (Some now) st)).
Proof. unfold Storage.loadGame, Storage.saveGame. apply lookup_insert_eq. Qed.

(** What JSON has read back once, it reads back unchanged. *)
Lemma number_idem (x : float) : Json.roundtrip (Json.number x) = Json.number x.
Proof.
  unfold Json.number.
  destruct (Json.is_finite x) eqn:Hfin; [|reflexivity].
  destruct (PrimFloat.is_zero x) eqn:Hz; cbn [Json.roundtrip]; unfold Json.number.
  - reflexivity.
  - rewrite Hfin, Hz. reflexivity.
Qed.

Lemma roundtrip_not_undefined (v : Value) : v <> Undefined -> Json.roundtrip v <> Undefined.
Proof.
  destruct v; cbn; try congruence.
  unfold Json.number. destruct (Json.is_finite x); congruence.
Qed.

Lemma undefined_or_not (v : Value) : v = Undefined \/ v <> Undefined.
Proof. destruct v; (left; reflexivity) || (right; discriminate). Qed.

Lemma in_array_defined (v : Value) :
  v <> Undefined ->
  match v with Undefined => Null | _ => Json.roundtrip v end = Json.roundtrip v.
Proof. destruct v; congruence. Qed.

Lemma roundtrip_idem : forall v : Value, Json.roundtrip (Json.roundtrip v) = Json.roundtrip v.
Proof.
  fix IH 1.
  intros [ | | b | x | n | s | ms | items | props]; try reflexivity.
  - apply number_idem.
  - cbn [Json.roundtrip]. f_equal.
    induction items as [|e items IHl]; [reflexivity|].
    cbn [List.map]. f_equal; [|exact IHl].
    destruct (undefined_or_not e) as [->|Hne]; [reflexivity|].
    rewrite (in_array_defined e Hne).
    rewrite (in_array_defined _ (roundtrip_not_undefined e Hne)).
    apply IH.
  - cbn [Json.roundtrip]. f_equal.
    induction props as [|[k e] props IHl]; [reflexivity|].
    cbn [List.flat_map fst snd].
    destruct (undefined_or_not e) as [->|Hne]; [exact IHl|].
    assert (E : match e with
                | Undefined => []
                | _ => [(k, Json.roundtrip e)]
                end = [(k, Json.roundtrip e)]) by (destruct e; congruence).
    rewrite E. cbn [app List.flat_map fst snd].
    assert (E' : match Json.roundtrip e with
                 | Undefined => []
                 | _ => [(k, Json.roundtrip (Json.roundtrip e))]
                 end = [(k, Json.roundtrip (Json.roundtrip e))]).
    { pose proof (roundtrip_not_undefined e Hne). destruct (Json.roundtrip e); congruence. }
    rewrite E'. cbn [app]. rewrite IHl, (IH e). reflexivity.
Qed.

Lemma commit_idem (c : Github.CommitRecord) : Json.commit (Json.commit c) = Json.commit c.
Proof. destruct c as [? ? ? ? ? ? [ms|iso] ? ? ?]; reflexivity. Qed.

Lemma history_entry_idem (e : HistoryEntry) :
  Json.history_entry (Json.history_entry e) = Json.history_entry e.
Proof. destruct e as [n [| |c] [| |h]]; reflexivity. Qed.

Lemma game_state_idem (s : GameState) :
  Json.game_state (Json.game_state s) = Json.game_state s.
Proof.
  unfold Json.game_state. cbn.
  rewrite roundtrip_idem, !List.map_map.
  f_equal.
  - apply List.map_ext. intros c. apply commit_idem.
  - apply List.map_ext. intros e. apply history_entry_idem.
Qed.

(** What an entry reads as is what it read as before it was written. *)
Lemma history_entry_reads (e : HistoryEntry) :
  h_narrative (Json.history_entry e) = h_narrative e /\
  read (h_choice (Json.history_entry e)) = read (h_choice e) /\
  read (h_commitSha (Json.history_entry e)) = read (h_commitSha e).
Proof. destruct e as [n [| |c] [| |h]]; repeat split; reflexivity. Qed.

(** An entry none of whose properties holds [undefined] is read back as it
    was written. *)
Lemma history_entry_defined (e : HistoryEntry) :
  h_choice e <> HoldsUndefined -> h_commitSha e <> HoldsUndefined ->
  Json.history_entry e = e.
Proof. destruct e as [n [| |c] [| |h]]; cbn; intros H1 H2; try reflexivity; congruence. Qed.

Lemma save_then_load_run slot st g su ls rd rp ck cp lg :
  (saveGame slot;; loadGame slot) (mkSys (Some st) g su ls rd rp ck cp lg)
  = (Ok (Json.game_state (set_savedAt (Some (ck (S cp))) st)),
     mkSys (Some (Json.game_state (set_savedAt (Some (ck (S cp))) st))) g su
           (Storage.saveGame slot (set_savedAt (Some (ck cp)) st) (ck (S cp)) ls)
           rd rp ck (S (S cp)) lg).
Proof.
  unfold bind at 1. rewrite saveGame_run.
  apply (loadGame_found slot
           (Json.game_state (set_savedAt (Some (ck (S cp))) (set_savedAt (Some (ck cp)) st)))).
  cbn [localStorage]. apply storage_load_save.
Qed.

(** A state that was loaded from a slot comes back from a save and a load as
    it was, but for [savedAt]. *)
Lemma save_then_load_again slot s0 g su ls rd rp ck cp lg :
  fst ((saveGame slot;; loadGame slot)
         (mkSys (Some (Json.game_state s0)) g su ls rd rp ck cp lg))
  = Ok (set_savedAt (Some (ck (S cp))) (Json.game_state s0)).
Proof.
  rewrite save_then_load_run. cbn [fst]. f_equal.
  change (Json.game_state (set_savedAt (Some (ck (S cp))) (Json.game_state s0)))
    with (set_savedAt (Some (ck (S cp))) (Json.game_state (Json.game_state s0))).
  rewrite game_state_idem. reflexivity.
Qed.

(** C2 (as amended).  Saving a state and loading the slot again makes the
    live state the JSON image of what was saved ([setItem] having had room
    for it): the cursor, the chapter, the statistics, the inventory, the
    quest log, the scene on show, the style and the repository are as they
    were; every entry of the history is as it was but for a [choice] or a
    [commitSha] that held [undefined], which is not there any more (and
    still reads as [undefined]); every commit is as it was but for its
    [date], which is now the ISO string of the former [Date] object;
    [analysis] is the JSON image of the stored value (nothing is
    recomputed); and [savedAt] is the time [storage.saveGame] read.  Loading
    a slot that holds nothing throws [Save not found] and leaves the engine
    as it was. *)
Theorem save_then_load (slot : string) (σ : Sys) (s : GameState) :
  state σ = Some s ->
  (exists loaded σ',
    (saveGame slot;; loadGame slot) σ = (Ok loaded, σ') /\
    state σ' = Some loaded /\
    loaded = Json.game_state (set_savedAt (Some (clock σ (S (clock_pos σ)))) s) /\
    commitIndex loaded = commitIndex s /\ chapter loaded = chapter s /\
    hp loaded = hp s /\ maxHp loaded = maxHp s /\ xp loaded = xp s /\
    level loaded = level s /\ inventory loaded = inventory s /\
    questLog loaded = questLog s /\
    history loaded = List.map Json.history_entry (history s) /\
    List.map h_narrative (history loaded) = List.map h_narrative (history s) /\
    List.map (fun e => read (h_choice e)) (history loaded)
    = List.map (fun e => read (h_choice e)) (history s) /\
    List.map (fun e => read (h_commitSha e)) (history loaded)
    = List.map (fun e => read (h_commitSha e)) (history s) /\
    (Forall (fun e => h_choice e <> HoldsUndefined /\ h_commitSha e <> HoldsUndefined)
            (history s) -> history loaded = history s) /\
    currentScene loaded = currentScene s /\
    style loaded = style s /\ repo loaded = repo s /\ startedAt loaded = startedAt s /\
    commits loaded = List.map Json.commit (commits s) /\
    analysis loaded = Json.roundtrip (analysis s) /\
    savedAt loaded = Some (clock σ (S (clock_pos σ)))) /\
  (forall σ0, Storage.loadGame slot (localStorage σ0) = None ->
              loadGame slot σ0 = (Throw "Save not found", σ0)).
Proof.
  intros Hs. split; [|intros σ0; apply loadGame_not_found].
  destruct σ as [st0 g su ls rd rp ck cp lg]. cbn in Hs. subst st0.
  eexists _, _. split; [apply save_then_load_run|].
  cbn [state Json.game_state clock clock_pos commitIndex chapter hp maxHp xp level inventory
       questLog history currentScene style repo startedAt commits analysis savedAt
       set_savedAt].
  do 11 (split; [reflexivity|]).
  split; [rewrite List.map_map; apply List.map_ext; intros e; apply history_entry_reads|].
  split; [rewrite List.map_map; apply List.map_ext; intros e; apply history_entry_reads|].
  split; [rewrite List.map_map; apply List.map_ext; intros e; apply history_entry_reads|].
  split.
  { intros Hall. induction Hall as [|e l [H1 H2] _ IH]; [reflexivity|].
    cbn [List.map]. rewrite IH, (history_entry_defined e H1 H2). reflexivity. }
  repeat split; reflexivity.
Qed.

Lemma save_then_load_witness :
  state started = Some (game_of started) /\
  (exists loaded σ',
    (saveGame "slot_1";; loadGame "slot_1") started = (Ok loaded, σ') /\
    state σ' = Some loaded /\
    loaded = Json.game_state
               (set_savedAt (Some (clock started (S (clock_pos started)))) (game_of started)) /\
    commitIndex loaded = commitIndex (game_of started) /\
    hp loaded = hp (game_of started) /\ xp loaded = xp (game_of started) /\
    inventory loaded = inventory (game_of started) /\
    history loaded = List.map Json.history_entry (history (game_of started)) /\
    commits loaded = List.map Json.commit (commits (game_of started)) /\
    analysis loaded = Json.roundtrip (analysis (game_of started)) /\
    savedAt loaded = Some (clock started (S (clock_pos started)))) /\
  Storage.loadGame "slot_1" (localStorage browser) = None /\
  loadGame "slot_1" browser = (Throw "Save not found", browser).
Proof.
  assert (Hs : state started = Some (game_of started)) by (vm_compute; reflexivity).
  destruct (save_then_load "slot_1" started (game_of started) Hs) as [Hload Habsent].
  split; [exact Hs|]. split.
  - destruct Hload as (loaded & σ' & E & H1 & H2 & H3 & _ & H5 & _ & H7 & _ & H9 & _
                       & H11 & _ & _ & _ & _ & _ & _ & _ & _ & H20 & H21 & H22).
    exists loaded, σ'. repeat (split; [assumption|]). assumption.
  - split; [reflexivity|]. apply Habsent. reflexivity.
Defined.

(** C2 (as stated) fails on the first state of any game: the commits of the
    state that is loaded carry strings where the state that was saved had
    [Date] objects, and its [savedAt] is the second reading of the clock. *)
Lemma loaded_state_differs :
  exists live loaded σ',
    state (snd (saveGame "slot_1" started)) = Some live /\
    (saveGame "slot_1";; loadGame "slot_1") started = (Ok loaded, σ') /\
    loaded <> live /\
    Github.date <$> commits live
      = [Github.DateObject 1700000000000; Github.DateObject 1690000000000;
         Github.DateObject 1680000000000] /\
    Github.date <$> commits loaded
      = [Github.DateString "2023-11-14T22:13:20.000Z";
         Github.DateString "2023-07-22T04:26:40.000Z";
         Github.DateString "2023-03-28T10:40:00.000Z"] /\
    savedAt live = Some 1700000000001 /\ savedAt loaded = Some 1700000000002.
Proof.
  eexists _, _, _. split; [vm_compute; reflexivity|].
  split; [vm_compute; reflexivity|].
  split; [|vm_compute; auto].
  intros E. apply (f_equal savedAt) in E. vm_compute in E. discriminate.
Qed.

(** The turn played on the text [push] leaves a history entry whose
    [choice] holds [undefined]; the entry has no [choice] once the game has
    been saved and loaded. *)
Example undefined_choice_is_dropped :
  exists live loaded σ',
    state (perform (Choose (SelText "push")) started) = Some live /\
    (saveGame "slot_1";; loadGame "slot_1") (perform (Choose (SelText "push")) started)
    = (Ok loaded, σ') /\
    List.map h_choice (history live) = [HoldsUndefined] /\
    List.map h_choice (history loaded) = [Missing] /\
    List.map h_commitSha (history loaded) = [Holds "8f3a91c2d4e5f60718293a4b5c6d7e8f90a1b2c3"].
Proof.
  eexists _, _, _. split; [vm_compute; reflexivity|].
  split; [vm_compute; reflexivity|]. vm_compute. auto.
Qed.

(** ** The scene when the producer throws *)

Lemma fallback_needs_a_commit sty i total r :
  generateFallbackScene None sty i total r = None.
Proof. reflexivity. Qed.

(** C3.  Whenever a call waits for the narrative producer in a game over a
    non-empty commit list and the producer throws, the call goes on without
    an exception and puts on show a scene with a narrative that is not empty
    and exactly three choices; and the fallback producer returns such a scene
    for every commit, style, index, total and random draw. *)
Theorem scene_when_producer_throws (σ : Sys) (s : GameState) (task : Task) :
  reachable σ -> state σ = Some s -> commits s <> [] -> suspended σ = Some task ->
  (exists σ' s' sc,
      resume AIThrows σ = (Ok tt, σ') /\ state σ' = Some s' /\
      currentScene s' = Some sc /\ well_formed sc /\
      generating σ' = false /\ suspended σ' = None) /\
  (forall c sty i total r,
      exists sc, generateFallbackScene (Some c) sty i total r = Some sc /\ well_formed sc).
Proof.
  intros Hr Hs Hne Hsu. split.
  - pose proof (reachable_Inv σ Hr s Hs) as HI.
    destruct σ as [st0 g su ls rd rp ck cp lg]. cbn in Hs, Hsu. subst st0 su.
    destruct (resume_run AIThrows s g task ls rd rp ck cp lg Hne (inv_cursor s HI Hne))
      as (sc & s' & ls' & rp' & cp' & lg' & E & Hsc & _ & Hwf & _).
    exists (mkSys (Some s') false None ls' rd rp' ck cp' lg'), s', sc.
    repeat split; try assumption; apply Hwf.
  - intros c sty i total r.
    destruct (generateFallbackScene_defined c sty i total r) as (sc & E & Hwf & _).
    eauto.
Qed.


Lemma scene_when_producer_throws_witness :
  (exists σ' s' sc,
      resume AIThrows starting = (Ok tt, σ') /\ state σ' = Some s' /\
      currentScene s' = Some sc /\ well_formed sc /\
      generating σ' = false /\ suspended σ' = None) /\
  (forall c sty i total r,
      exists sc, generateFallbackScene (Some c) sty i total r = Some sc /\ well_formed sc).
Proof.
  apply (scene_when_producer_throws starting (game_of starting) StartGameTask).
  - apply reach_step, reach_fresh. repeat split.
  - vm_compute. reflexivity.
  - vm_compute. discriminate.
  - vm_compute. reflexivity.
Defined.

(** The same for a whole [startGame], in any browser and for every style. *)
Lemma startGame_run rpo sty cs an ans su ls rd rp ck cp lg :
  cs <> [] ->
  exists sc s ls' rp' cp' lg',
    startGame rpo sty cs an ans (mkSys None false su ls rd rp ck cp lg)
    = (Ok Completed, mkSys (Some s) false None ls' rd rp' ck cp' lg') /\
    currentScene s = Some sc /\
    progress s = progress (initial rpo sty cs an (ck cp)) /\
    match ans with
    | AIReturns n chs => sc = mkScene n chs false
    | AIThrows => well_formed sc /\ isEpilogue sc = false
    end.
Proof.
  intros Hne. unfold startGame. unfold bind at 1. rewrite startGame_call_run.
  destruct (resume_run ans (initial rpo sty cs an (ck cp)) true StartGameTask ls rd rp ck (S cp)
              (lg ++ [SceneRequested 0 None])%list)
    as (sc & s & ls' & rp' & cp' & lg' & E & H1 & H2 & H3).
  { exact Hne. }
  { cbn. destruct cs; [congruence|]. cbn. lia. }
  exists sc, s, ls', rp', cp', lg'.
  unfold bind. rewrite E. auto.
Qed.

(** With no commits both producers throw, and so does [startGame]. *)
Lemma startGame_without_commits rpo sty an ans :
  fst (startGame rpo sty [] an ans browser) = Throw TypeError.
Proof. destruct ans; vm_compute; reflexivity. Qed.

(** ** Turns *)

Lemma at_end_iff s :
  at_end (advanced s) = true <->
  commitIndex (advanced s) = Z.of_nat (length (commits (advanced s))) - 1 /\
  (1 < length (history (advanced s)))%nat.
Proof.
  unfold at_end. rewrite andb_true_iff, Z.leb_le, bool_decide_eq_true.
  cbn. split; intros [H1 H2]; split; try assumption; lia.
Qed.

(** A whole accepted turn: either the epilogue, or the next scene. *)
Lemma makeChoice_run sel ans st sc su ls rd rp ck cp lg :
  currentScene st = Some sc ->
  truthy (get_property (choices sc) sel) = true ->
  (commits st <> [] -> 0 <= commitIndex st < Z.of_nat (length (commits st))) ->
  exists st1,
    Consequences sel (rd rp) (rd (S rp)) (rd (S (S rp)))
                 (recorded sc (get_property (choices sc) sel) st) st1 /\
    if at_end (advanced st1)
    then exists rp' lg',
        makeChoice sel ans (mkSys (Some st) false su ls rd rp ck cp lg)
        = (Ok Epilogue,
           mkSys (Some (set_currentScene (Some (epilogue_scene (advanced st1))) (advanced st1)))
                 false su ls rd rp' ck cp lg')
    else commits st <> [] ->
         exists sc' st2 ls' rp' cp' lg',
           makeChoice sel ans (mkSys (Some st) false su ls rd rp ck cp lg)
           = (Ok Completed, mkSys (Some st2) false None ls' rd rp' ck cp' lg') /\
           currentScene st2 = Some sc' /\ isEpilogue sc' = false /\
           progress st2 = progress (advanced st1).
Proof.
  intros Hsc Hok Hcur.
  destruct (makeChoice_call_run sel st sc su ls rd rp ck cp lg Hsc Hok)
    as (st1 & rp' & lg' & HC & E).
  exists st1. split; [exact HC|].
  unfold makeChoice. unfold bind at 1. unfold bind at 2. rewrite E.
  destruct (at_end (advanced st1)) eqn:Hend.
  - eauto.
  - intros Hne.
    destruct (Consequences_rest _ _ _ _ _ _ HC) as (Ecs & Eidx & _).
    cbn in Ecs, Eidx.
    destruct (resume_run ans (advanced st1) true MakeChoiceTask ls rd rp' ck cp
                (lg' ++ [SceneRequested (commitIndex (advanced st1))
                           (text_of (get_property (choices sc) sel))])%list)
      as (sc' & st2 & ls' & rp'' & cp' & lg'' & E' & H1 & H2 & H3).
    { cbn. congruence. }
    { cbn. rewrite Ecs, Eidx. specialize (Hcur Hne). lia. }
    unfold bind. rewrite E'.
    exists sc', st2, ls', rp'', cp', lg''. repeat split; try assumption.
    destruct ans; [subst sc'; reflexivity|apply H3].
Qed.

(** C4.  An accepted [makeChoice] shows the epilogue exactly when, the cursor
    having moved on, [commitIndex] is the last index and [history] has more
    than one entry; the epilogue scene has [isEpilogue] set and three
    choices; otherwise the next scene is requested.  In particular a game
    over three commits shows no epilogue after its first choice and the
    epilogue after its second. *)
Theorem makeChoice_epilogue (choiceIndex : Selection) (σ : Sys) :
  accepted choiceIndex σ ->
  (exists o σ' s',
      makeChoice_call choiceIndex σ = (Ok o, σ') /\ state σ' = Some s' /\
      (o = Epilogue <->
       commitIndex s' = Z.of_nat (length (commits s')) - 1 /\ (1 < length (history s'))%nat) /\
      (o = Epilogue ->
       exists ep, currentScene s' = Some ep /\ isEpilogue ep = true /\
                  length (choices ep) = 3%nat) /\
      (o <> Epilogue -> o = Awaiting /\ generating σ' = true)) /\
  (forall rpo sty c1 c2 c3 an ans0 ans1 ans2 su ls rd rp ck cp lg sel1 sel2,
      let σ1 := snd (startGame rpo sty [c1; c2; c3] an ans0
                               (mkSys None false su ls rd rp ck cp lg)) in
      let σ2 := snd (makeChoice sel1 ans1 σ1) in
      accepted sel1 σ1 -> accepted sel2 σ2 ->
      fst (makeChoice sel1 ans1 σ1) = Ok Completed /\
      (exists s2 sc2, state σ2 = Some s2 /\ currentScene s2 = Some sc2 /\
                      isEpilogue sc2 = false) /\
      fst (makeChoice sel2 ans2 σ2) = Ok Epilogue /\
      (exists s3 ep, state (snd (makeChoice sel2 ans2 σ2)) = Some s3 /\
                     currentScene s3 = Some ep /\ isEpilogue ep = true /\
                     length (choices ep) = 3%nat)).
Proof.
  intros Hacc. split.
  - destruct Hacc as (Hg & st & sc & Hst & Hsc & Hok).
    destruct σ as [st0 g su ls rd rp ck cp lg]. cbn in Hg, Hst. subst.
    destruct (makeChoice_call_run choiceIndex st sc su ls rd rp ck cp lg Hsc Hok)
      as (st1 & rp' & lg' & _ & E).
    rewrite E. pose proof (at_end_iff st1) as Hiff.
    destruct (at_end (advanced st1)).
    + eexists _, _, _. split; [reflexivity|]. split; [reflexivity|].
      split; [|split].
      * split; [intros _; apply Hiff; reflexivity|reflexivity].
      * intros _. eexists. split; [reflexivity|]. split; reflexivity.
      * congruence.
    + eexists _, _, _. split; [reflexivity|]. split; [reflexivity|].
      split; [|split].
      * split; [discriminate|]. intros H. apply Hiff in H. discriminate.
      * discriminate.
      * auto.
  - clear. intros rpo sty c1 c2 c3 an ans0 ans1 ans2 su ls rd rp ck cp lg sel1 sel2.
    destruct (startGame_run rpo sty [c1; c2; c3] an ans0 su ls rd rp ck cp lg)
      as (sc & s & ls1 & rp1 & cp1 & lg1 & E0 & Hsc & Hp & _); [discriminate|].
    cbv zeta. rewrite E0. cbn [snd].
    assert (Hf : commits s = [c1; c2; c3] /\ commitIndex s = 0 /\ history s = []).
    { repeat split.
      - apply (f_equal commits) in Hp. exact Hp.
      - apply (f_equal commitIndex) in Hp. exact Hp.
      - apply (f_equal history) in Hp. exact Hp. }
    destruct Hf as (Hcs & Hidx & Hh).
    intros (_ & s' & sc' & [= <-] & Hsc' & Hok1).
    destruct (makeChoice_run sel1 ans1 s sc' None ls1 rd rp1 ck cp1 lg1 Hsc' Hok1)
      as (st1 & HC1 & Hstep1).
    { rewrite Hcs, Hidx. cbn. lia. }
    destruct (Consequences_rest _ _ _ _ _ _ HC1) as (Ecs1 & Eidx1 & Eh1 & _).
    cbn in Ecs1, Eidx1, Eh1. rewrite Hcs in Ecs1. rewrite Hidx in Eidx1. rewrite Hh in Eh1.
    assert (Hend1 : at_end (advanced st1) = false).
    { unfold at_end. cbn. rewrite Ecs1, Eidx1. reflexivity. }
    rewrite Hend1 in Hstep1.
    destruct Hstep1 as (sc2 & st2 & ls2 & rp2 & cp2 & lg2 & E1 & Hsc2 & Hep2 & Hp2);
      [rewrite Hcs; discriminate|].
    rewrite E1. cbn [fst snd].
    intros (_ & s2' & sc2' & [= <-] & Hsc2' & Hok2).
    assert (Hf2 : commits st2 = [c1; c2; c3] /\ commitIndex st2 = 1 /\
                  length (history st2) = 1%nat).
    { repeat split.
      - apply (f_equal commits) in Hp2. cbn in Hp2. congruence.
      - apply (f_equal commitIndex) in Hp2. cbn in Hp2. rewrite Hp2, Ecs1, Eidx1. reflexivity.
      - apply (f_equal history) in Hp2. cbn in Hp2. rewrite Hp2, Eh1. reflexivity. }
    destruct Hf2 as (Hcs2 & Hidx2 & Hh2).
    destruct (makeChoice_run sel2 ans2 st2 sc2' None ls2 rd rp2 ck cp2 lg2 Hsc2' Hok2)
      as (st3 & HC2 & Hstep2).
    { rewrite Hcs2, Hidx2. cbn. lia. }
    destruct (Consequences_rest _ _ _ _ _ _ HC2) as (Ecs3 & Eidx3 & Eh3 & _).
    cbn in Ecs3, Eidx3, Eh3. rewrite Hcs2 in Ecs3. rewrite Hidx2 in Eidx3.
    assert (Hend2 : at_end (advanced st3) = true).
    { unfold at_end. cbn. rewrite Ecs3, Eidx3, Eh3, length_app, Hh2. reflexivity. }
    rewrite Hend2 in Hstep2. destruct Hstep2 as (rp3 & lg3 & E2).
    rewrite E2. cbn [fst snd state].
    split; [reflexivity|]. split; [eauto|]. split; [reflexivity|].
    eexists _, _. split; [reflexivity|]. split; [reflexivity|]. split; reflexivity.
Qed.

(** What an accepted [makeChoice] does to the statistics: the consequences
    are applied to the state with the turn recorded, then the cursor moves. *)
Lemma accepted_turn (choiceIndex : Selection) (σ : Sys) (s : GameState) :
  state σ = Some s -> accepted choiceIndex σ ->
  exists sc o σ' s1 s',
    currentScene s = Some sc /\
    makeChoice_call choiceIndex σ = (Ok o, σ') /\ state σ' = Some s' /\
    Consequences choiceIndex (rand σ (rand_pos σ)) (rand σ (S (rand_pos σ)))
                 (rand σ (S (S (rand_pos σ))))
                 (recorded sc (get_property (choices sc) choiceIndex) s) s1 /\
    progress s' = progress (advanced s1).
Proof.
  intros Hs (Hg & s0 & sc & Hs0 & Hsc & Hok).
  assert (s0 = s) by congruence. subst s0.
  destruct σ as [st0 g su ls rd rp ck cp lg]. cbn in Hg, Hs. subst.
  destruct (makeChoice_call_run choiceIndex s sc su ls rd rp ck cp lg Hsc Hok)
    as (s1 & rp' & lg' & HC & E).
  rewrite E. exists sc.
  destruct (at_end (advanced s1)); eexists _, _, s1, _;
    (split; [exact Hsc|]); (split; [reflexivity|]); (split; [reflexivity|]);
    (split; [exact HC|]); reflexivity.
Qed.



(** C6.  An accepted [makeChoice] adds between 20 and 49 to [xp]; [level]
    goes up, by one, exactly when it is below 10 and the new [xp] has reached
    the entry of [XP_PER_LEVEL] at the current level; [maxHp] then grows by 10
    and [hp] is healed by 20 up to the new [maxHp] (before the rule on
    fix-like commits is applied); and [level] stays between 1 and 10. *)
Theorem xp_and_level (choiceIndex : Selection) (σ : Sys) (s : GameState) :
  reachable σ -> state σ = Some s -> accepted choiceIndex σ ->
  exists o σ' s',
    makeChoice_call choiceIndex σ = (Ok o, σ') /\ state σ' = Some s' /\
    20 <= xp s' - xp s <= 49 /\
    (level s' = level s + 1 \/ level s' = level s) /\
    (level s' = level s + 1 <->
     level s < 10 /\
     exists t, XP_PER_LEVEL !! Z.to_nat (level s) = Some t /\ t <= xp s') /\
    (level s' = level s + 1 ->
     maxHp s' = maxHp s + 10 /\
     hp s' = hp_rule choiceIndex (lowered_subject (current_commit s)) (maxHp s')
                     (Z.min (hp s + 20) (maxHp s + 10))) /\
    (level s' = level s ->
     maxHp s' = maxHp s /\
     hp s' = hp_rule choiceIndex (lowered_subject (current_commit s)) (maxHp s') (hp s)) /\
    1 <= level s /\ 1 <= level s' <= 10.
Proof.
  intros Hr Hs Hacc.
  destruct (accepted_turn choiceIndex σ s Hs Hacc)
    as (sc & o & σ' & s1 & s' & Hsc & E & Hs' & HC & Hp).
  exists o, σ', s'. split; [exact E|]. split; [exact Hs'|].
  pose proof (reachable_Inv σ Hr s Hs) as HI.
  pose proof (inv_level s HI) as Hlv.
  assert (Ehp : hp s' = hp s1) by (apply (f_equal hp) in Hp; exact Hp).
  assert (Emh : maxHp s' = maxHp s1) by (apply (f_equal maxHp) in Hp; exact Hp).
  assert (Exp : xp s' = xp s1) by (apply (f_equal xp) in Hp; exact Hp).
  assert (Elv : level s' = level s1) by (apply (f_equal level) in Hp; exact Hp).
  destruct HC as [Cxp Clv Cmh Chp _ _].
  cbn [recorded set_history xp hp level maxHp] in Cxp, Clv, Cmh, Chp.
  change (levels_up (xp s1) (recorded sc (get_property (choices sc) choiceIndex) s))
    with (levels_up (xp s1) s) in *.
  change (current_commit (recorded sc (get_property (choices sc) choiceIndex) s))
    with (current_commit s) in *.
  rewrite Ehp, Emh, Exp, Elv.
  pose proof (xp_gain_range (rand σ (rand_pos σ))) as Hgain.
  assert (Hup : levels_up (xp s1) s = true <->
                level s < 10 /\
                exists t, XP_PER_LEVEL !! Z.to_nat (level s) = Some t /\ t <= xp s1).
  { unfold levels_up, nextLevelXp, Music.at_index.
    rewrite andb_true_iff, Z.leb_le, Z.ltb_lt.
    destruct (Z.ltb_spec (level s) 0) as [?|_]; [lia|].
    destruct (Z.le_gt_cases 10 (level s)) as [Hge|Hlt].
    { split; intros [? ?]; lia. }
    assert (Hcase : level s = 1 \/ level s = 2 \/ level s = 3 \/ level s = 4 \/ level s = 5 \/
                    level s = 6 \/ level s = 7 \/ level s = 8 \/ level s = 9) by lia.
    destruct Hcase as [-> | [-> | [-> | [-> | [-> | [-> | [-> | [-> | ->]]]]]]]]; cbn;
      (split; [intros [H1 H2]; split; [lia|]; eexists; split; [reflexivity|exact H1]
              |intros [H1 (t & [= <-] & H2)]; split; [exact H2|lia]]). }
  split; [lia|].
  destruct (levels_up (xp s1) s) eqn:Elu.
  - split; [left; exact Clv|]. split; [split; [intros _; apply Hup; reflexivity|intros _; exact Clv]|].
    split; [intros _; split; [exact Cmh|rewrite Chp, Cmh; reflexivity]|].
    split; [intros H; lia|].
    destruct (proj1 Hup eq_refl) as [Hlt _]. lia.
  - split; [right; exact Clv|].
    split; [split; [intros H; lia|intros H; apply Hup in H; discriminate]|].
    split; [intros H; lia|].
    split; [intros _; split; [exact Cmh|rewrite Chp, Cmh; reflexivity]|].
    lia.
Qed.

(** C7.  In every run the inventory has at most 8 entries and no entry
    twice.  An accepted [makeChoice], on whatever state the engine holds (a
    loaded one too), adds an item only when the subject of the current
    commit matches the feat pattern and the draw is above 0.6; the item is
    the one of the pool at the index [Math.floor(Math.random() * 5)]; and
    nothing is added when that item is already held or 8 items are held. *)
Theorem inventory_within_bounds (σ : Sys) (s : GameState) :
  state σ = Some s ->
  (reachable σ -> (length (inventory s) <= 8)%nat /\ NoDup (inventory s)) /\
  (forall choiceIndex, accepted choiceIndex σ ->
     let msg := lowered_subject (current_commit s) in
     let r2 := rand σ (S (rand_pos σ)) in
     let r3 := rand σ (S (S (rand_pos σ))) in
     exists o σ' s',
       makeChoice_call choiceIndex σ = (Ok o, σ') /\ state σ' = Some s' /\
       inventory s' = inventory_rule (inventory s) (offered_item (style s) msg r2 r3) /\
       (Str.test feat_pattern msg = true -> above_0_6 r2 = true ->
        exists item, offered_item (style s) msg r2 r3 = Some item /\
                     (item ∈ items (style s))) /\
       (inventory s' <> inventory s ->
        Str.test feat_pattern msg = true /\ above_0_6 r2 = true /\
        exists item, inventory s' = (inventory s ++ [item])%list /\
                     (item ∈ items (style s)) /\ (item ∉ inventory s) /\
                     (length (inventory s) < 8)%nat) /\
       (forall item, offered_item (style s) msg r2 r3 = Some item ->
                     (item ∈ inventory s) \/ (8 <= length (inventory s))%nat ->
                     inventory s' = inventory s)).
Proof.
  intros Hs. split.
  { intros Hr. pose proof (reachable_Inv σ Hr s Hs) as HI.
    split; [apply (inv_inventory_size s HI)|apply (inv_inventory_nodup s HI)]. }
  intros sel Hacc msg r2 r3.
  destruct (accepted_turn sel σ s Hs Hacc) as (sc & o & σ' & s1 & s' & Hsc & E & Hs' & HC & Hp).
  exists o, σ', s'. split; [exact E|]. split; [exact Hs'|].
  assert (Einv : inventory s' = inventory s1) by (apply (f_equal inventory) in Hp; exact Hp).
  pose proof (cq_inventory _ _ _ _ _ _ HC) as Cinv.
  cbn [recorded set_history inventory style] in Cinv.
  change (current_commit (recorded sc (get_property (choices sc) sel) s))
    with (current_commit s) in Cinv.
  fold msg r2 r3 in Cinv. rewrite Einv, Cinv.
  split; [reflexivity|].
  split; [apply offered_item_drawn|].
  unfold inventory_rule, offered_item.
  split.
  - destruct (Str.test feat_pattern msg); cbn [andb]; [|congruence].
    destruct (above_0_6 r2); [|congruence].
    destruct (Music.at_index _ _) as [item|] eqn:Eitem; [|congruence].
    destruct (negb _ && _) eqn:Ec; [|congruence].
    intros _. split; [reflexivity|]. split; [reflexivity|].
    apply andb_prop in Ec as [E1 E2].
    apply negb_true_iff, bool_decide_eq_false in E1. apply bool_decide_eq_true in E2.
    exists item. repeat split; try assumption.
    unfold Music.at_index in Eitem. destruct (_ <? 0); [discriminate|].
    eapply list_elem_of_lookup_2, Eitem.
  - intros item -> Hor.
    destruct (negb _ && _) eqn:Ec; [|reflexivity].
    apply andb_prop in Ec as [E1 E2].
    apply negb_true_iff, bool_decide_eq_false in E1. apply bool_decide_eq_true in E2.
    destruct Hor; [contradiction|lia].
Qed.

(** ** The theorems on a game that has just started *)

Lemma started_state : state started = Some (game_of started).
Proof. vm_compute. reflexivity. Qed.

Lemma started_accepts_first : accepted (SelIndex 0) started.
Proof.
  split; [vm_compute; reflexivity|].
  exists (game_of started), (scene_of started).
  split; [vm_compute; reflexivity|]. split; vm_compute; reflexivity.
Qed.

Lemma makeChoice_epilogue_witness :
  accepted (SelIndex 0) started /\
  exists o σ' s',
    makeChoice_call (SelIndex 0) started = (Ok o, σ') /\ state σ' = Some s' /\
    (o = Epilogue <->
     commitIndex s' = Z.of_nat (length (commits s')) - 1 /\ (1 < length (history s'))%nat).
Proof.
  split; [exact started_accepts_first|].
  destruct (makeChoice_epilogue (SelIndex 0) started started_accepts_first)
    as [(o & σ' & s' & E & Hs & Hiff & _) _].
  exists o, σ', s'. auto.
Defined.


Lemma xp_and_level_witness :
  exists o σ' s',
    makeChoice_call (SelIndex 0) started = (Ok o, σ') /\ state σ' = Some s' /\
    20 <= xp s' - xp (game_of started) <= 49.
Proof.
  destruct (xp_and_level (SelIndex 0) started (game_of started)
              started_reachable started_state started_accepts_first)
    as (o & σ' & s' & E & Hs & Hxp & _).
  exists o, σ', s'. auto.
Defined.

Lemma packed_accepts_second : accepted (SelIndex 1) packed.
Proof.
  split; [vm_compute; reflexivity|].
  exists (game_of packed), (scene_of packed).
  split; [vm_compute; reflexivity|]. split; vm_compute; reflexivity.
Qed.

Lemma inventory_within_bounds_witness :
  ((length (inventory (game_of started)) <= 8)%nat /\ NoDup (inventory (game_of started))) /\
  state packed = Some (game_of packed) /\ accepted (SelIndex 1) packed /\
  length (inventory (game_of packed)) = 8%nat /\
  offered_item (style (game_of packed)) (lowered_subject (current_commit (game_of packed)))
               (rand packed (S (rand_pos packed))) (rand packed (S (S (rand_pos packed))))
  = Some "Nano-med Kit" /\
  ("Nano-med Kit" ∉ inventory (game_of packed)) /\
  exists o σ' s',
    makeChoice_call (SelIndex 1) packed = (Ok o, σ') /\ state σ' = Some s' /\
    inventory s' = inventory (game_of packed).
Proof.
  split.
  { exact (proj1 (inventory_within_bounds started (game_of started) started_state)
                 started_reachable). }
  assert (Hoff : offered_item (style (game_of packed))
                   (lowered_subject (current_commit (game_of packed)))
                   (rand packed (S (rand_pos packed))) (rand packed (S (S (rand_pos packed))))
                 = Some "Nano-med Kit") by (vm_compute; reflexivity).
  split; [vm_compute; reflexivity|]. split; [exact packed_accepts_second|].
  split; [reflexivity|]. split; [exact Hoff|].
  split; [refine (proj1 (bool_decide_eq_false _) _); vm_compute; reflexivity|].
  destruct (proj2 (inventory_within_bounds packed (game_of packed) eq_refl)
              (SelIndex 1) packed_accepts_second)
    as (o & σ' & s' & E & Hs & _ & _ & _ & Hkeep).
  exists o, σ', s'. split; [exact E|]. split; [exact Hs|].
  apply (Hkeep "Nano-med Kit" Hoff). right. vm_compute. lia.
Defined.

(** The game over three commits, played with the first and then the second
    button: the next scene after the first choice, the epilogue after the
    second. *)
Example three_commits_two_choices :
  fst (makeChoice (SelIndex 0) AIThrows started) = Ok Completed /\
  isEpilogue (scene_of (snd (makeChoice (SelIndex 0) AIThrows started))) = false /\
  fst (makeChoice (SelIndex 1) AIThrows (snd (makeChoice (SelIndex 0) AIThrows started)))
  = Ok Epilogue /\
  isEpilogue (scene_of (snd (makeChoice (SelIndex 1) AIThrows
                               (snd (makeChoice (SelIndex 0) AIThrows started))))) = true /\
  length (choices (scene_of (snd (makeChoice (SelIndex 1) AIThrows
                                    (snd (makeChoice (SelIndex 0) AIThrows started))))))
  = 3%nat.
Proof. vm_compute. auto. Qed.

(** The second turn of that game gains an item: the commit adds a feature,
    the draw is 0.7, and the fourth item of the style is not held yet. *)
Example second_turn_gains_item :
  inventory <$> state (snd (makeChoice (SelIndex 1) AIThrows
                              (snd (makeChoice (SelIndex 0) AIThrows started))))
  = Some ["Nano-med Kit"].
Proof. vm_compute. reflexivity. Qed.

(** The analysis of the fixture is read back from JSON as it was written. *)
Example analysis_survives_json :
  Json.roundtrip (analysis_value (Github.analyzeCommits three_commits))
  = analysis_value (Github.analyzeCommits three_commits).
Proof. vm_compute. reflexivity. Qed.

(** ** What a run keeps *)

Lemma pop_length {A} (l : list A) : length (pop l) = Nat.pred (length l).
Proof.
  unfold pop. induction l as [|a l IH]; [reflexivity|].
  destruct l as [|b l]; [reflexivity|].
  change (removelast (a :: b :: l)) with (a :: removelast (b :: l)).
  cbn [length] in *. rewrite IH. reflexivity.
Qed.

Lemma addQuestEntry_bound txt st g su ls rd rp ck cp lg :
  exists ql lg',
    addQuestEntry txt (mkSys (Some st) g su ls rd rp ck cp lg)
    = (Ok tt, mkSys (Some (set_questLog ql st)) g su ls rd rp ck cp lg') /\
    ((length (questLog st) <= 10)%nat -> (length ql <= 10)%nat).
Proof.
  unfold addQuestEntry. run.
  destruct (bool_decide _) eqn:E; run; eexists _, _; (split; [reflexivity|]).
  - intros H. rewrite pop_length. destruct st; cbn in *. lia.
  - apply bool_decide_eq_false in E. intros _. destruct st; cbn in *. lia.
Qed.

Lemma quest_if_bound (c : bool) txt st g su ls rd rp ck cp lg :
  exists ql lg',
    (if c then addQuestEntry txt else ret tt) (mkSys (Some st) g su ls rd rp ck cp lg)
    = (Ok tt, mkSys (Some (set_questLog ql st)) g su ls rd rp ck cp lg') /\
    ((length (questLog st) <= 10)%nat -> (length ql <= 10)%nat).
Proof.
  destruct c; [apply addQuestEntry_bound|].
  exists (questLog st), lg. split; [destruct st; reflexivity|auto].
Qed.

Ltac quest_bound :=
  match goal with
  | |- context [addQuestEntry ?t (mkSys (Some ?s) ?g ?su ?ls ?rd ?rp ?ck ?cp ?lg)] =>
      let ql := fresh "ql" in let lg' := fresh "lg" in let E := fresh "E" in
      let B := fresh "B" in
      destruct (addQuestEntry_bound t s g su ls rd rp ck cp lg) as (ql & lg' & E & B);
      rewrite E; clear E; cbn [questLog] in B
  | |- context [(if ?c then addQuestEntry ?t else ?k)
                  (mkSys (Some ?s) ?g ?su ?ls ?rd ?rp ?ck ?cp ?lg)] =>
      let ql := fresh "ql" in let lg' := fresh "lg" in let E := fresh "E" in
      let B := fresh "B" in
      destruct (quest_if_bound c t s g su ls rd rp ck cp lg) as (ql & lg' & E & B);
      change k with (@ret unit tt);
      rewrite E; clear E; cbn [questLog] in B
  end.

Lemma applyChoiceConsequences_questLog choice index st g su ls rd rp ck cp lg σ' st' :
  applyChoiceConsequences choice index (mkSys (Some st) g su ls rd rp ck cp lg) = (Ok tt, σ') ->
  state σ' = Some st' ->
  (length (questLog st) <= 10)%nat -> (length (questLog st') <= 10)%nat.
Proof.
  destruct st as [rpo sty cs an idx ch h mh x lv inv ql hist scn t0 sv].
  unfold applyChoiceConsequences. run.
  set (msg := lowered_subject _).
  destruct (_ && (lv <? 10)) eqn:Elu in |- *;
    run; try quest_bound; run;
    (destruct (Str.test fix_pattern msg) eqn:Efix); run;
    (destruct (Str.test feat_pattern msg) eqn:Efeat); run;
    try (destruct (above_0_6 (rd (S rp))) eqn:Eab; run);
    try (destruct (Music.at_index (items sty) _) as [item|] eqn:Eitem; run);
    try (destruct (negb (bool_decide (item ∈ inv)) && _) eqn:Ecap; run);
    do 3 (quest_bound; run);
    intros [= <-]; cbn; intros [= <-]; cbn; auto.
Qed.

(** A turn that passes the guards, with what it does to the quest log. *)
Lemma makeChoice_call_quests sel st sc su ls rd rp ck cp lg :
  currentScene st = Some sc ->
  truthy (get_property (choices sc) sel) = true ->
  exists st1 rp' lg',
    Consequences sel (rd rp) (rd (S rp)) (rd (S (S rp)))
                 (recorded sc (get_property (choices sc) sel) st) st1 /\
    ((length (questLog st) <= 10)%nat -> (length (questLog st1) <= 10)%nat) /\
    makeChoice_call sel (mkSys (Some st) false su ls rd rp ck cp lg)
    = if at_end (advanced st1)
      then (Ok Epilogue,
            mkSys (Some (set_currentScene (Some (epilogue_scene (advanced st1))) (advanced st1)))
                  false su ls rd rp' ck cp
                  (lg' ++ [SceneReady (epilogue_scene (advanced st1)) None]))
      else (Ok Awaiting,
            mkSys (Some (advanced st1)) true (Some MakeChoiceTask) ls rd rp' ck cp
                  (lg' ++ [SceneRequested (commitIndex (advanced st1))
                                          (text_of (get_property (choices sc) sel))])).
Proof.
  intros Hsc Hok.
  destruct (applyChoiceConsequences_run (get_property (choices sc) sel) sel
              (recorded sc (get_property (choices sc) sel) st)
              false su ls rd rp ck cp lg) as (st1 & rp' & lg' & E & HC).
  exists st1, rp', lg'. split; [exact HC|].
  split.
  { apply (applyChoiceConsequences_questLog _ _ _ _ _ _ _ _ _ _ _ _ st1 E). reflexivity. }
  clear HC.
  destruct st as [rpo sty cs an idx ch h mh x lv inv ql hist scn t0 sv].
  cbn in Hsc. subst scn.
  destruct st1 as [rpo1 sty1 cs1 an1 idx1 ch1 h1 mh1 x1 lv1 inv1 ql1 hist1 scn1 t1 sv1].
  unfold recorded in E. run_in E.
  unfold makeChoice_call, at_end, advanced, epilogue_scene. run. rewrite Hok.
  change (negb true) with false. run.
  rewrite E. run.
  destruct (_ && _); [unfold generateEpilogue | unfold generateNextScene_request]; run;
    reflexivity.
Qed.

(** The game state after any event of the page: a new game, the state as it
    was but for the scene on show and the save stamp, or a turn played. *)
Lemma perform_state_cases a σ st' :
  state (perform a σ) = Some st' ->
  (exists rpo sty cs an t, st' = initial rpo sty cs an t) \/
  (exists st, state σ = Some st /\ progress st' = progress st) \/
  (exists sel st sc st1 r1 r2 r3,
      state σ = Some st /\ currentScene st = Some sc /\
      Consequences sel r1 r2 r3 (recorded sc (get_property (choices sc) sel) st) st1 /\
      ((length (questLog st) <= 10)%nat -> (length (questLog st1) <= 10)%nat) /\
      progress st' = progress (advanced st1)).
Proof.
  intros Hst'.
  destruct a as [rpo sty cs an | sel | ans | slot]; cbn [perform] in Hst'.
  - left. destruct σ as [st0 g su ls rd rp ck cp lg].
    rewrite startGame_call_run in Hst'.
    destruct g; cbn in Hst'; injection Hst' as <-; eauto 6.
  - destruct (accepted_dec sel σ) as [Hacc|Hna].
    + right. right.
      destruct Hacc as (Hg & st & sc & Hst & Hsc & Hok).
      destruct σ as [st0 g su ls rd rp ck cp lg]. cbn in Hg, Hst. subst.
      destruct (makeChoice_call_quests sel st sc su ls rd rp ck cp lg Hsc Hok)
        as (st1 & rp' & lg' & HC & HQ & E).
      rewrite E in Hst'.
      exists sel, st, sc, st1, (rd rp), (rd (S rp)), (rd (S (S rp))).
      split; [reflexivity|]. split; [exact Hsc|]. split; [exact HC|]. split; [exact HQ|].
      destruct (at_end (advanced st1)); cbn in Hst'; injection Hst' as <-; reflexivity.
    + right. left. rewrite makeChoice_call_ignored in Hst' by exact Hna. eauto.
  - right. left. apply (resume_progress ans σ st' Hst').
  - right. left. destruct σ as [[st|] g su ls rd rp ck cp lg].
    + rewrite saveGame_run in Hst'. cbn in Hst'. injection Hst' as <-. eauto.
    + rewrite saveGame_none in Hst'. discriminate.
Qed.

Lemma Inv_step a σ :
  (forall st, state σ = Some st -> Inv st) ->
  forall st', state (perform a σ) = Some st' -> Inv st'.
Proof.
  intros IH st' Hst'.
  destruct (perform_state_cases a σ st' Hst')
    as [(rpo & sty & cs & an & t & ->)
       | [(st & Hst & E)
         | (sel & st & sc & st1 & r1 & r2 & r3 & Hst & Hsc & HC & _ & E)]].
  - apply Inv_initial.
  - eapply Inv_progress; [exact E|]. apply IH, Hst.
  - eapply Inv_progress; [exact E|].
    apply Inv_advanced. eapply Inv_consequences; [exact HC|].
    apply Inv_recorded, IH, Hst.
Qed.

Lemma Ledger_initial rpo sty cs an t : Ledger (initial rpo sty cs an t).
Proof.
  constructor; cbn; try lia; try (intros t' [= <-]; lia); try reflexivity.
  intros Hne. destruct cs; [congruence|]. cbn [length]. lia.
Qed.

Lemma Ledger_progress st st' : progress st' = progress st -> Ledger st -> Ledger st'.
Proof.
  intros E [H1 H2 H3 H4 H5 H6].
  destruct st, st'. cbv [progress set_savedAt set_currentScene] in E. cbn in *.
  injection E as -> -> -> -> -> -> -> -> -> -> -> -> -> ->.
  constructor; cbn; assumption.
Qed.

Ltac thresholds :=
  repeat match goal with
         | H : context [Music.at_index XP_PER_LEVEL ?n] |- _ =>
             let v := eval vm_compute in (Music.at_index XP_PER_LEVEL n) in
             change (Music.at_index XP_PER_LEVEL n) with v in H
         | |- context [Music.at_index XP_PER_LEVEL ?n] =>
             let v := eval vm_compute in (Music.at_index XP_PER_LEVEL n) in
             change (Music.at_index XP_PER_LEVEL n) with v
         end.

Lemma Ledger_turn sel r1 r2 r3 sc ch st st1 :
  Inv st -> Ledger st ->
  Consequences sel r1 r2 r3 (recorded sc ch st) st1 ->
  ((length (questLog st) <= 10)%nat -> (length (questLog st1) <= 10)%nat) ->
  Ledger (advanced st1).
Proof.
  intros HI [L1 L2 L3 L4 L5 L6] HC HQ.
  destruct (Consequences_rest _ _ _ _ _ _ HC) as (Ecs & Eidx & Eh & _).
  destruct HC as [Cxp Clv Cmh _ _ _].
  change (levels_up (xp st1) (recorded sc ch st)) with (levels_up (xp st1) st) in *.
  change (xp (recorded sc ch st)) with (xp st) in *.
  change (level (recorded sc ch st)) with (level st) in *.
  change (maxHp (recorded sc ch st)) with (maxHp st) in *.
  change (commits (recorded sc ch st)) with (commits st) in *.
  change (commitIndex (recorded sc ch st)) with (commitIndex st) in *.
  cbn [recorded set_history history] in Eh.
  pose proof (floor_mul_range r1) as Hr.
  pose proof (inv_level st HI) as Hlv.
  assert (Hlu : levels_up (xp st1) st = true <-> level st < 10 /\ nextLevelXp st <= xp st1).
  { unfold levels_up. rewrite andb_true_iff, Z.leb_le, Z.ltb_lt. tauto. }
  unfold nextLevelXp in Hlu.
  assert (Hlevel :
            (forall t, Music.at_index XP_PER_LEVEL (level st1 - 1) = Some t -> t <= xp st1) /\
            (forall t, Music.at_index XP_PER_LEVEL (level st1) = Some t -> xp st1 < t)).
  { rewrite Clv.
    assert (Hcase : level st = 1 \/ level st = 2 \/ level st = 3 \/ level st = 4 \/
                    level st = 5 \/ level st = 6 \/ level st = 7 \/ level st = 8 \/
                    level st = 9 \/ level st = 10) by lia.
    destruct (levels_up (xp st1) st);
      [destruct (proj1 Hlu eq_refl) as [Hlt Hge]
      |assert (Hno : ~ (level st < 10 /\ or_number (Music.at_index XP_PER_LEVEL (level st)) 9999
                                          <= xp st1)) by (intros H; apply Hlu in H; discriminate)];
      clear Hlu;
      destruct Hcase as [E|[E|[E|[E|[E|[E|[E|[E|[E|E]]]]]]]]]; rewrite E in *;
      thresholds; cbn [or_number Z.eqb] in *;
      try specialize (L2 _ eq_refl); try specialize (L3 _ eq_refl);
      split; intros t' Ht'; try discriminate Ht'; injection Ht' as <-; lia. }
  destruct Hlevel as [Hfl Hce].
  constructor; cbn [advanced set_chapter set_commitIndex maxHp level xp questLog chapter
                    commitIndex commits history].
  - rewrite Cmh, Clv. destruct (levels_up (xp st1) st); lia.
  - exact Hfl.
  - exact Hce.
  - auto.
  - reflexivity.
  - rewrite Ecs, Eidx, Eh, length_app. cbn [length]. intros Hne. specialize (L6 Hne). lia.
Qed.

Lemma Ledger_step a σ :
  (forall st, state σ = Some st -> Inv st) ->
  (forall st, state σ = Some st -> Ledger st) ->
  forall st', state (perform a σ) = Some st' -> Ledger st'.
Proof.
  intros HI IH st' Hst'.
  destruct (perform_state_cases a σ st' Hst')
    as [(rpo & sty & cs & an & t & ->)
       | [(st & Hst & E)
         | (sel & st & sc & st1 & r1 & r2 & r3 & Hst & Hsc & HC & HQ & E)]].
  - apply Ledger_initial.
  - eapply Ledger_progress; [exact E|]. apply IH, Hst.
  - eapply Ledger_progress; [exact E|].
    eapply Ledger_turn; [apply HI, Hst|apply IH, Hst|exact HC|exact HQ].
Qed.

Lemma reachable_Ledger σ : reachable σ -> forall st, state σ = Some st -> Ledger st.
Proof.
  induction 1 as [σ (Hs & _) | σ a Hr IH]; intros st' Hst'.
  - congruence.
  - eapply Ledger_step; [apply reachable_Inv, Hr|exact IH|exact Hst'].
Qed.

(** *** The busy flag *)

Lemma resume_idle ans σ : suspended σ = None -> resume ans σ = (Ok tt, σ).
Proof.
  destruct σ as [st g su ls rd rp ck cp lg]. cbn. intros ->. reflexivity.
Qed.

Lemma resume_flags ans σ task :
  suspended σ = Some task ->
  generating (snd (resume ans σ)) = false /\ suspended (snd (resume ans σ)) = None.
Proof.
  destruct σ as [[st|] g su ls rd rp ck cp lg]; cbn [suspended]; intros ->;
    unfold resume, generateNextScene_resume, produced_scene, finally; run;
    [|split; reflexivity].
  destruct st as [rpo sty cs an idx ch h mh x lv inv ql hist scn t0 sv]. run.
  destruct (generateScene cs ans) as [n chs|]; run.
  - destruct task; unfold saveGame; run; split; reflexivity.
  - destruct (current_commit _) as [c|]; run; [|split; reflexivity].
    destruct (generateFallbackScene _ _ _ _ _) as [sc|]; run; [|split; reflexivity].
    destruct task; unfold saveGame; run; split; reflexivity.
Qed.

Lemma one_in_flight_step a σ : one_in_flight σ -> one_in_flight (perform a σ).
Proof.
  intros H. destruct a as [rpo sty cs an | sel | ans | slot]; cbn [perform].
  - destruct σ as [st0 g su ls rd rp ck cp lg]. unfold one_in_flight in *. cbn in H.
    rewrite startGame_call_run. destruct g; cbn.
    + split; [intros _; apply H; reflexivity|reflexivity].
    + split; [eauto|reflexivity].
  - destruct (accepted_dec sel σ) as [Hacc|Hna].
    + destruct Hacc as (Hg & st & sc & Hst & Hsc & Hok).
      destruct σ as [st0 g su ls rd rp ck cp lg]. cbn in Hg, Hst. subst.
      destruct (makeChoice_call_run sel st sc su ls rd rp ck cp lg Hsc Hok)
        as (st1 & rp' & lg' & _ & E).
      rewrite E. unfold one_in_flight in *. cbn in H.
      destruct (at_end (advanced st1)); cbn; [exact H|].
      split; [eauto|reflexivity].
    + rewrite makeChoice_call_ignored by exact Hna. exact H.
  - destruct (suspended σ) as [task|] eqn:Hsu.
    + destruct (resume_flags ans σ task Hsu) as [Hg Hs].
      unfold one_in_flight. rewrite Hg, Hs. split; [discriminate|intros [? ?]; discriminate].
    + rewrite resume_idle by exact Hsu. exact H.
  - destruct σ as [[st|] g su ls rd rp ck cp lg].
    + rewrite saveGame_run. exact H.
    + rewrite saveGame_none. exact H.
Qed.

Lemma reachable_one_in_flight σ : reachable σ -> one_in_flight σ.
Proof.
  induction 1 as [σ (_ & Hg & Hs) | σ a Hr IH].
  - unfold one_in_flight. rewrite Hg, Hs. split; [discriminate|intros [? ?]; discriminate].
  - apply one_in_flight_step, IH.
Qed.

(** *** What the engine writes to [localStorage] *)

Lemma resume_store ans st g su ls rd rp ck cp lg :
  let σ' := snd (resume ans (mkSys st g su ls rd rp ck cp lg)) in
  localStorage σ' = ls \/
  su = Some MakeChoiceTask /\
  exists st', state σ' = Some st' /\
              savedAt st' = Some (ck cp) /\
              clock_pos σ' = S (S cp) /\
              localStorage σ' = Storage.saveGame "auto" st' (ck (S cp)) ls.
Proof.
  destruct st as [st|]; destruct su as [task|];
    unfold resume, generateNextScene_resume, produced_scene, finally; run;
    try (left; reflexivity).
  destruct st as [rpo sty cs an idx ch h mh x lv inv ql hist scn t0 sv]. run.
  destruct (generateScene cs ans) as [n chs|]; run.
  - destruct task; unfold saveGame; run; [left; reflexivity|].
    right. split; [reflexivity|]. eexists. repeat split.
  - destruct (current_commit _) as [c|]; run; [|left; reflexivity].
    destruct (generateFallbackScene _ _ _ _ _) as [sc|]; run; [|left; reflexivity].
    destruct task; unfold saveGame; run; [left; reflexivity|].
    right. split; [reflexivity|]. eexists. repeat split.
Qed.

Lemma perform_store a σ :
  localStorage (perform a σ) = localStorage σ \/
  exists slot st' now,
    state (perform a σ) = Some st' /\
    localStorage (perform a σ) = Storage.saveGame slot st' now (localStorage σ) /\
    (a = Save slot \/
     exists ans, a = Answer ans /\ suspended σ = Some MakeChoiceTask /\ slot = "auto").
Proof.
  destruct a as [rpo sty cs an | sel | ans | slot]; cbn [perform].
  - left. destruct σ as [st0 g su ls rd rp ck cp lg].
    rewrite startGame_call_run. destruct g; reflexivity.
  - left. destruct (accepted_dec sel σ) as [Hacc|Hna].
    + destruct Hacc as (Hg & st & sc & Hst & Hsc & Hok).
      destruct σ as [st0 g su ls rd rp ck cp lg]. cbn in Hg, Hst. subst.
      destruct (makeChoice_call_run sel st sc su ls rd rp ck cp lg Hsc Hok)
        as (st1 & rp' & lg' & _ & E).
      rewrite E. destruct (at_end (advanced st1)); reflexivity.
    + rewrite makeChoice_call_ignored by exact Hna. reflexivity.
  - destruct σ as [st g su ls rd rp ck cp lg].
    destruct (resume_store ans st g su ls rd rp ck cp lg) as [E|(-> & st' & Hst' & _ & _ & E)].
    + left. exact E.
    + right. exists "auto", st', (ck (S cp)). split; [exact Hst'|]. split; [exact E|].
      right. exists ans. auto.
  - destruct σ as [[st|] g su ls rd rp ck cp lg].
    + right. rewrite saveGame_run. eexists slot, _, _. split; [reflexivity|].
      split; [reflexivity|]. left. reflexivity.
    + left. rewrite saveGame_none. reflexivity.
Qed.

Lemma resume_saved ans st g ls rd rp ck cp lg σ' :
  resume ans (mkSys st g (Some MakeChoiceTask) ls rd rp ck cp lg) = (Ok tt, σ') ->
  exists st', state σ' = Some st' /\
              savedAt st' = Some (ck cp) /\
              localStorage σ' = Storage.saveGame "auto" st' (ck (S cp)) ls.
Proof.
  destruct st as [st|];
    unfold resume, generateNextScene_resume, produced_scene, finally; run;
    [|discriminate].
  destruct st as [rpo sty cs an idx ch h mh x lv inv ql hist scn t0 sv]. run.
  destruct (generateScene cs ans) as [n chs|]; run.
  - unfold saveGame; run. intros [= <-]. eexists. repeat split.
  - destruct (current_commit _) as [c|]; run; [|discriminate].
    destruct (generateFallbackScene _ _ _ _ _) as [sc|]; run; [|discriminate].
    unfold saveGame; run. intros [= <-]. eexists. repeat split.
Qed.

Lemma Inv_json now s : Inv s -> Inv (Json.game_state (set_savedAt now s)).
Proof.
  intros [H1 H2 H3 H4 H5 H6]. constructor; try assumption.
  cbn. rewrite length_map. intros Hne. apply H6. intros E. apply Hne. rewrite E. reflexivity.
Qed.

Lemma Ledger_json now s : Ledger s -> Ledger (Json.game_state (set_savedAt now s)).
Proof.
  intros [H1 H2 H3 H4 H5 H6]. constructor; try assumption.
  cbn. rewrite !length_map. intros Hne. apply H6. intros E. apply Hne. rewrite E. reflexivity.
Qed.

Lemma sound_with_loads σ :
  reachable_with_loads σ ->
  saves_sound σ /\ forall s, state σ = Some s -> Inv s /\ Ledger s.
Proof.
  induction 1 as [σ (Hs & _) Hsound | σ a Hr [IHs IH]].
  - split; [exact Hsound|]. congruence.
  - destruct a as [a|slot]; cbn [page_perform].
    + assert (Hst : forall s, state (perform a σ) = Some s -> Inv s /\ Ledger s).
      { intros s Hs. split.
        - eapply Inv_step; [|exact Hs]. intros st Hst. apply IH, Hst.
        - eapply Ledger_step; [| |exact Hs]; intros st Hst; apply IH, Hst. }
      split; [|exact Hst].
      destruct (perform_store a σ) as [E|(sl & st' & now & Hst' & E & _)].
      * unfold saves_sound. rewrite E. exact IHs.
      * unfold saves_sound. rewrite E. unfold Storage.saveGame.
        intros key s Hk. destruct (decide (key = Storage.SAVE_PREFIX ++ sl)) as [->|Hne].
        -- rewrite lookup_insert_eq in Hk. injection Hk as <-.
           destruct (Hst st' Hst'). split; [apply Inv_json|apply Ledger_json]; assumption.
        -- rewrite lookup_insert_ne in Hk by congruence. eapply IHs, Hk.
    + destruct (Storage.loadGame slot (localStorage σ)) as [saved|] eqn:El.
      * rewrite (loadGame_found slot saved σ El). cbn [snd].
        destruct σ as [st g su ls rd rp ck cp lg]. cbn in *.
        split; [exact IHs|]. intros s [= <-]. eapply IHs, El.
      * rewrite (loadGame_not_found slot σ El). cbn [snd]. split; assumption.
Qed.

Lemma after_first_turn_reachable : reachable after_first_turn.
Proof. apply reachable_makeChoice, started_reachable. Qed.

Lemma after_first_turn_state : state after_first_turn = Some (game_of after_first_turn).
Proof. vm_compute. reflexivity. Qed.

(** X1.  In every run [maxHp] is 90 plus ten times [level], so that it lies
    between 100 and 190. *)
Theorem maxHp_follows_level (σ : Sys) (s : GameState) :
  reachable σ -> state σ = Some s ->
  maxHp s = 90 + 10 * level s /\ 100 <= maxHp s <= 190.
Proof.
  intros Hr Hs.
  pose proof (led_maxHp s (reachable_Ledger σ Hr s Hs)) as H.
  pose proof (inv_level s (reachable_Inv σ Hr s Hs)). lia.
Qed.

Lemma maxHp_follows_level_witness :
  maxHp (game_of after_first_turn) = 90 + 10 * level (game_of after_first_turn) /\
  100 <= maxHp (game_of after_first_turn) <= 190.
Proof.
  apply (maxHp_follows_level after_first_turn (game_of after_first_turn)
           after_first_turn_reachable after_first_turn_state).
Defined.

(** X2.  In every run [level] lies between 1 and 10 and is the level that
    [XP_PER_LEVEL] gives to [xp]: [xp] has reached the threshold of [level]
    and, below level 10, has not reached the next one. *)
Theorem level_follows_xp (σ : Sys) (s : GameState) :
  reachable σ -> state σ = Some s ->
  1 <= level s <= 10 /\
  (exists lo, XP_PER_LEVEL !! Z.to_nat (level s - 1) = Some lo /\ lo <= xp s) /\
  (level s < 10 -> exists hi, XP_PER_LEVEL !! Z.to_nat (level s) = Some hi /\ xp s < hi).
Proof.
  intros Hr Hs.
  pose proof (reachable_Ledger σ Hr s Hs) as [_ Hfl Hce _ _ _].
  pose proof (inv_level s (reachable_Inv σ Hr s Hs)) as Hlv.
  split; [exact Hlv|].
  unfold Music.at_index in Hfl, Hce.
  destruct (Z.ltb_spec (level s - 1) 0); [lia|].
  destruct (Z.ltb_spec (level s) 0); [lia|].
  split.
  - destruct (lookup_lt_is_Some_2 XP_PER_LEVEL (Z.to_nat (level s - 1))) as [lo Hlo].
    { cbn [length XP_PER_LEVEL]. lia. }
    exists lo. split; [exact Hlo|]. apply Hfl, Hlo.
  - intros Hlt.
    destruct (lookup_lt_is_Some_2 XP_PER_LEVEL (Z.to_nat (level s))) as [hi Hhi].
    { cbn [length XP_PER_LEVEL]. lia. }
    exists hi. split; [exact Hhi|]. apply Hce, Hhi.
Qed.

Lemma level_follows_xp_witness :
  1 <= level (game_of after_first_turn) <= 10 /\
  (exists lo, XP_PER_LEVEL !! Z.to_nat (level (game_of after_first_turn) - 1) = Some lo /\
              lo <= xp (game_of after_first_turn)) /\
  (level (game_of after_first_turn) < 10 ->
   exists hi, XP_PER_LEVEL !! Z.to_nat (level (game_of after_first_turn)) = Some hi /\
              xp (game_of after_first_turn) < hi).
Proof.
  apply (level_follows_xp after_first_turn (game_of after_first_turn)
           after_first_turn_reachable after_first_turn_state).
Defined.

(** X3.  In every run the quest log has at most ten entries, and
    [addQuestEntry] puts the new entry, with the current chapter, at its
    head, keeps the first ten entries and hands the log to
    [onQuestUpdate]. *)
Theorem questLog_keeps_ten (σ : Sys) (s : GameState) (txt : string) :
  reachable σ -> state σ = Some s ->
  (length (questLog s) <= 10)%nat /\
  exists σ' s',
    addQuestEntry txt σ = (Ok tt, σ') /\ state σ' = Some s' /\
    questLog s' = take 10 (mkQuest txt (chapter s) :: questLog s) /\
    last (log σ') = Some (QuestUpdate (questLog s')).
Proof.
  intros Hr Hs.
  pose proof (led_questLog s (reachable_Ledger σ Hr s Hs)) as Hq.
  split; [exact Hq|].
  destruct σ as [st g su ls rd rp ck cp lg]. cbn in Hs. subst st.
  destruct s as [rpo sty cs an idx ch h mh x lv inv ql hist scn t0 sv]. cbn in Hq.
  unfold addQuestEntry. run.
  destruct (bool_decide _) eqn:E; run; eexists _, _;
    (split; [reflexivity|]); (split; [reflexivity|]); cbn [questLog log]; split;
    try apply last_snoc.
  - apply bool_decide_eq_true in E. unfold pop.
    rewrite removelast_firstn_len. f_equal. cbn [length] in *. lia.
  - apply bool_decide_eq_false in E. symmetry. apply take_ge. lia.
Qed.

Lemma questLog_keeps_ten_witness :
  (length (questLog (game_of after_first_turn)) <= 10)%nat /\
  exists σ' s',
    addQuestEntry "A new era dawns!" after_first_turn = (Ok tt, σ') /\ state σ' = Some s' /\
    questLog s' = take 10 (mkQuest "A new era dawns!" (chapter (game_of after_first_turn))
                             :: questLog (game_of after_first_turn)) /\
    last (log σ') = Some (QuestUpdate (questLog s')).
Proof.
  apply (questLog_keeps_ten after_first_turn (game_of after_first_turn) "A new era dawns!"
           after_first_turn_reachable after_first_turn_state).
Defined.

(** X4.  In every run over a commit list that is not empty, [commitIndex]
    is the number of entries of [history], capped at the index of the last
    commit; [chapter] is [commitIndex] divided by 10, plus 1; and
    [getCurrentCommit] returns the commit at [commitIndex]. *)
Theorem cursor_counts_choices (σ : Sys) (s : GameState) :
  reachable σ -> state σ = Some s -> commits s <> [] ->
  commitIndex s = Z.min (Z.of_nat (length (history s))) (Z.of_nat (length (commits s)) - 1) /\
  chapter s = commitIndex s / 10 + 1 /\
  exists c, getCurrentCommit σ = Some c /\ commits s !! Z.to_nat (commitIndex s) = Some c.
Proof.
  intros Hr Hs Hne.
  pose proof (reachable_Ledger σ Hr s Hs) as HL.
  pose proof (inv_cursor s (reachable_Inv σ Hr s Hs) Hne) as Hc.
  split; [apply (led_cursor s HL Hne)|]. split; [apply (led_chapter s HL)|].
  unfold getCurrentCommit. rewrite Hs. unfold current_commit, Music.at_index.
  destruct (Z.ltb_spec (commitIndex s) 0); [lia|].
  destruct (lookup_lt_is_Some_2 (commits s) (Z.to_nat (commitIndex s))) as [c Hc']; [lia|].
  exists c. split; exact Hc'.
Qed.

Lemma cursor_counts_choices_witness :
  commitIndex (game_of after_first_turn)
  = Z.min (Z.of_nat (length (history (game_of after_first_turn))))
          (Z.of_nat (length (commits (game_of after_first_turn))) - 1) /\
  chapter (game_of after_first_turn) = commitIndex (game_of after_first_turn) / 10 + 1 /\
  exists c, getCurrentCommit after_first_turn = Some c /\
            commits (game_of after_first_turn)
              !! Z.to_nat (commitIndex (game_of after_first_turn)) = Some c.
Proof.
  apply (cursor_counts_choices after_first_turn (game_of after_first_turn)
           after_first_turn_reachable after_first_turn_state).
  vm_compute. discriminate.
Defined.

(** X5.  In every run [generating] is set exactly while a call waits for
    the narrative producer; while it is set, [makeChoice] and
    [generateNextScene] return at once and change nothing; and the answer of
    the producer, whatever it is, leaves it cleared and nothing waiting. *)
Theorem one_generation_in_flight (σ : Sys) :
  reachable σ ->
  (generating σ = true <-> exists task, suspended σ = Some task) /\
  (generating σ = true ->
   (forall choiceIndex, makeChoice_call choiceIndex σ = (Ok Ignored, σ)) /\
   (forall playerChoice, generateNextScene_request playerChoice σ = (Ok false, σ))) /\
  (forall answer,
      generating (perform (Answer answer) σ) = false /\
      suspended (perform (Answer answer) σ) = None).
Proof.
  intros Hr. pose proof (reachable_one_in_flight σ Hr) as H.
  split; [exact H|]. split.
  - intros Hg. split.
    + intros sel. apply makeChoice_guards. auto.
    + intros pc. destruct σ as [st g su ls rd rp ck cp lg]. cbn in Hg. subst g. reflexivity.
  - intros ans. cbn [perform].
    destruct (suspended σ) as [task|] eqn:Hsu.
    + apply (resume_flags ans σ task Hsu).
    + rewrite resume_idle by exact Hsu. cbn [snd]. split; [|exact Hsu].
      destruct (generating σ) eqn:Hg; [|reflexivity].
      destruct (proj1 H Hg) as [task Ht]. congruence.
Qed.

Lemma one_generation_in_flight_witness :
  (generating starting = true <-> exists task, suspended starting = Some task) /\
  (generating starting = true ->
   (forall choiceIndex, makeChoice_call choiceIndex starting = (Ok Ignored, starting)) /\
   (forall playerChoice,
       generateNextScene_request playerChoice starting = (Ok false, starting))) /\
  (forall answer,
      generating (perform (Answer answer) starting) = false /\
      suspended (perform (Answer answer) starting) = None).
Proof.
  apply (one_generation_in_flight starting).
  apply reach_step, reach_fresh. repeat split.
Defined.

(** X6.  An action of the engine changes an item of [localStorage] only by
    saving a game: [saveGame(slot)] changes the item of its slot, the answer
    that completes a [makeChoice] changes the item of the slot [auto], and
    nothing else changes any item. *)
Theorem engine_writes_only_saves (a : Action) (σ : Sys) (key : string) :
  localStorage (perform a σ) !! key <> localStorage σ !! key ->
  (exists slot, a = Save slot /\ key = Storage.SAVE_PREFIX ++ slot) \/
  (exists answer, a = Answer answer /\ suspended σ = Some MakeChoiceTask /\
                  key = "gitquest:save:auto").
Proof.
  intros Hne.
  destruct (perform_store a σ) as [E|(slot & st' & now & _ & E & Hwho)].
  - rewrite E in Hne. contradiction.
  - rewrite E in Hne. unfold Storage.saveGame in Hne.
    destruct (decide (key = Storage.SAVE_PREFIX ++ slot)) as [->|Hk].
    + destruct Hwho as [->|(ans & -> & Hsu & ->)]; [left; eauto|right; eauto].
    + rewrite lookup_insert_ne in Hne by congruence. contradiction.
Qed.

Lemma engine_writes_only_saves_witness :
  (exists slot, Save "slot_1" = Save slot /\
                "gitquest:save:slot_1" = Storage.SAVE_PREFIX ++ slot) \/
  (exists answer, Save "slot_1" = Answer answer /\ suspended started = Some MakeChoiceTask /\
                  "gitquest:save:slot_1" = "gitquest:save:auto").
Proof.
  apply (engine_writes_only_saves (Save "slot_1") started "gitquest:save:slot_1").
  vm_compute. discriminate.
Defined.

(** X7.  An accepted [makeChoice] either shows the epilogue, and leaves
    [localStorage] as it was, or completes the turn and saves it: the slot
    [auto] then loads the JSON image of the live state, [savedAt] being the
    clock reading of [storage.saveGame], one reading after the one kept on
    the live state. *)
Theorem turn_is_saved (choiceIndex : Selection) (answer : AIOutcome) (σ σ' : Sys) (o : Outcome) :
  accepted choiceIndex σ ->
  makeChoice choiceIndex answer σ = (Ok o, σ') ->
  (o = Epilogue /\ localStorage σ' = localStorage σ) \/
  (o = Completed /\
   exists s', state σ' = Some s' /\
              savedAt s' = Some (clock σ (clock_pos σ)) /\
              Storage.loadGame "auto" (localStorage σ')
              = Some (Json.game_state
                        (set_savedAt (Some (clock σ (S (clock_pos σ)))) s'))).
Proof.
  intros (Hg & st & sc & Hst & Hsc & Hok) E.
  destruct σ as [st0 g su ls rd rp ck cp lg]. cbn in Hg, Hst. subst.
  destruct (makeChoice_call_run choiceIndex st sc su ls rd rp ck cp lg Hsc Hok)
    as (st1 & rp' & lg' & _ & Ecall).
  unfold makeChoice in E. unfold bind at 1 in E. rewrite Ecall in E.
  destruct (at_end (advanced st1)).
  - left. injection E as <- <-. split; reflexivity.
  - right. unfold bind at 1 in E.
    destruct (resume answer _) as [[[]|e] σ1] eqn:Er; [|discriminate].
    injection E as <- <-. split; [reflexivity|].
    destruct (resume_saved _ _ _ _ _ _ _ _ _ _ Er) as (s' & Hs' & Hsv & Hls).
    exists s'. split; [exact Hs'|]. split; [exact Hsv|].
    rewrite Hls. apply storage_load_save.
Qed.

Lemma turn_is_saved_witness :
  (Completed = Epilogue /\ localStorage after_first_turn = localStorage started) \/
  (Completed = Completed /\
   exists s', state after_first_turn = Some s' /\
              savedAt s' = Some (clock started (clock_pos started)) /\
              Storage.loadGame "auto" (localStorage after_first_turn)
              = Some (Json.game_state
                        (set_savedAt (Some (clock started (S (clock_pos started)))) s'))).
Proof.
  apply (turn_is_saved (SelIndex 0) AIThrows started after_first_turn Completed).
  - exact started_accepts_first.
  - vm_compute. reflexivity.
Defined.

(** X8.  The bounds of a run survive [loadGame]: when every game saved in
    [localStorage] at the start is within them, then after any sequence of
    engine actions and loads the live state has [1 <= hp <= maxHp],
    [1 <= level <= 10], [maxHp = 90 + 10 * level], at most 8 inventory
    entries, all different, at most 10 quest entries and, over a commit list
    that is not empty, a cursor inside the list. *)
Theorem loaded_games_are_sound (σ : Sys) (s : GameState) :
  reachable_with_loads σ -> state σ = Some s ->
  1 <= hp s <= maxHp s /\ 1 <= level s <= 10 /\ maxHp s = 90 + 10 * level s /\
  (length (inventory s) <= 8)%nat /\ NoDup (inventory s) /\
  (length (questLog s) <= 10)%nat /\
  (commits s <> [] -> 0 <= commitIndex s < Z.of_nat (length (commits s))).
Proof.
  intros Hr Hs.
  destruct (sound_with_loads σ Hr) as [_ H].
  destruct (H s Hs) as [[I1 I2 I3 I4 I5 I6] [L1 L2 L3 L4 L5 L6]].
  auto 10.
Qed.

Lemma loads_makeChoice sel ans σ :
  reachable_with_loads σ -> reachable_with_loads (snd (makeChoice sel ans σ)).
Proof.
  intros Hr. unfold makeChoice. unfold bind at 1.
  pose proof (rl_step σ (Engine (Choose sel)) Hr) as Hc. cbn [page_perform perform] in Hc.
  destruct (makeChoice_call sel σ) as [[o|e] σ']; cbn [snd] in *; [|exact Hc].
  destruct o; try exact Hc.
  rewrite snd_bind_resume. apply (rl_step _ (Engine (Answer ans))), Hc.
Qed.

Lemma loads_startGame rpo sty cs an ans σ :
  reachable_with_loads σ -> reachable_with_loads (snd (startGame rpo sty cs an ans σ)).
Proof.
  intros Hr. unfold startGame. unfold bind at 1.
  pose proof (rl_step σ (Engine (Start rpo sty cs an)) Hr) as Hc.
  cbn [page_perform perform] in Hc.
  destruct (startGame_call rpo sty cs an σ) as [[o|e] σ']; cbn [snd] in *; [|exact Hc].
  destruct o; try exact Hc.
  rewrite snd_bind_resume. apply (rl_step _ (Engine (Answer ans))), Hc.
Qed.

Lemma reloaded_reachable : reachable_with_loads reloaded.
Proof.
  unfold reloaded, after_first_turn, started.
  apply rl_step, rl_step, loads_makeChoice, loads_startGame.
  apply rl_fresh; [repeat split|].
  intros key s Hk. cbn [browser localStorage] in Hk. rewrite lookup_empty in Hk. discriminate.
Qed.

Lemma reloaded_state : state reloaded = Some (game_of reloaded).
Proof. vm_compute. reflexivity. Qed.

Lemma loaded_games_are_sound_witness :
  1 <= hp (game_of reloaded) <= maxHp (game_of reloaded) /\
  1 <= level (game_of reloaded) <= 10 /\
  maxHp (game_of reloaded) = 90 + 10 * level (game_of reloaded) /\
  (length (inventory (game_of reloaded)) <= 8)%nat /\ NoDup (inventory (game_of reloaded)) /\
  (length (questLog (game_of reloaded)) <= 10)%nat /\
  (commits (game_of reloaded) <> [] ->
   0 <= commitIndex (game_of reloaded) < Z.of_nat (length (commits (game_of reloaded)))).
Proof.
  apply (loaded_games_are_sound reloaded (game_of reloaded) reloaded_reachable reloaded_state).
Defined.

Example reloaded_is_the_first_turn :
  commitIndex (game_of reloaded) = 1 /\ xp (game_of reloaded) = 41 /\
  style (game_of reloaded) = scifi.
Proof. vm_compute. auto. Qed.

(** ** The answer of the narrative producer *)

Section ResponseProps.
Import Response.

(** The parser on four answers: one as asked for, over two lines; one whose
    last choice is blank; one whose only marker ends the text; and one whose
    second marker follows the first at once, and is taken for its text. *)
Example parse_three_choices :
  parseAIResponse "You enter.  [A] Go north
[B]  Wait [C] Run  "
  = mkScene "You enter." [mkChoice "A" "Go north"; mkChoice "B" "Wait"; mkChoice "C" "Run"]
            false.
Proof. vm_compute. reflexivity. Qed.

Example parse_blank_choice :
  parseAIResponse "[A] x [B] " = mkScene "[A] x [B]" [mkChoice "A" "x"; mkChoice "B" ""] false.
Proof. vm_compute. reflexivity. Qed.

Example parse_marker_at_end :
  parseAIResponse "no [A]" = mkScene "no" default_choices false.
Proof. vm_compute. reflexivity. Qed.

Example parse_marker_after_marker :
  parseAIResponse "t [A]  [B] z[C]" = mkScene "t" [mkChoice "A" "[B] z"] false.
Proof. vm_compute. reflexivity. Qed.

Lemma append_nil_r (s : string) : s ++ "" = s.
Proof.
  induction s as [|c s IH]; [reflexivity|].
  change (String c (s ++ "") = String c s). rewrite IH. reflexivity.
Qed.

Lemma append_assoc (a b c : string) : (a ++ b) ++ c = a ++ (b ++ c).
Proof.
  induction a as [|x a IH]; [reflexivity|].
  change (String x ((a ++ b) ++ c) = String x (a ++ (b ++ c))). rewrite IH. reflexivity.
Qed.

Lemma append_cons (x : ascii) (a b : string) : String x a ++ b = String x (a ++ b).
Proof. reflexivity. Qed.

Lemma length_append (a b : string) :
  String.length (a ++ b) = (String.length a + String.length b)%nat.
Proof.
  induction a as [|c a IH]; [reflexivity|].
  rewrite append_cons. cbn [String.length]. rewrite IH. reflexivity.
Qed.

Lemma trim_start_split (s : string) : exists ws, s = ws ++ Github.trim_start s.
Proof.
  induction s as [|c s [ws IH]]; [exists ""; reflexivity|].
  cbn [Github.trim_start]. destruct (Github.is_space c).
  - exists (String c ws). rewrite append_cons, <- IH. reflexivity.
  - exists "". reflexivity.
Qed.

Lemma lazy_rest_split (s b r : string) : lazy_rest s = (b, r) -> s = b ++ r.
Proof.
  revert b r. induction s as [|c s IH]; intros b r.
  - cbn. intros [= <- <-]. reflexivity.
  - cbn [lazy_rest]. destruct (at_boundary (String c s)).
    + intros [= <- <-]. reflexivity.
    + destruct (lazy_rest s) as [b' r'] eqn:E. intros [= <- <-].
      rewrite append_cons, <- (IH b' r' eq_refl). reflexivity.
Qed.

Lemma exec_all_skip (pre r : string) : exec_all (String.length pre) (pre ++ r) = exec_all 0 r.
Proof.
  induction pre as [|c pre IH].
  - reflexivity.
  - rewrite append_cons. cbn [String.length exec_all]. exact IH.
Qed.

Lemma exec_all_nil (k : nat) : exec_all k "" = [].
Proof. destruct k; reflexivity. Qed.

Lemma marker_Some (s : string) l r :
  marker s = Some (l, r) -> s = String "[" (String l (String "]" r)) /\ is_label l = true.
Proof.
  unfold marker. destruct s as [|c0 [|c1 [|c2 r1]]]; try discriminate.
  destruct (_ && _) eqn:E; [|discriminate]. intros [= -> ->].
  apply andb_prop in E as [E E2]. apply andb_prop in E as [E0 E1].
  apply bool_decide_eq_true in E0, E2. subst. auto.
Qed.

Lemma marker_tagged l r :
  is_label l = true -> marker (String "[" (String l (String "]" r))) = Some (l, r).
Proof. intros H. cbn. rewrite H. reflexivity. Qed.

(** The match ends where the rest begins. *)
Lemma match_here_suffix (s : string) l b rest :
  match_here s = Some (l, b, rest) ->
  exists c pre, s = String c (pre ++ rest).
Proof.
  unfold match_here.
  destruct (marker s) as [[l' r1]|] eqn:Em; [|discriminate].
  apply marker_Some in Em as [-> Hl].
  destruct (trim_start_split r1) as [ws Hws].
  destruct (Github.trim_start r1) as [|c r2] eqn:Et.
  - destruct (last_char r1); [|discriminate]. intros [= <- <- <-].
    exists "["%char, (String l' (String "]" r1)).
    rewrite append_nil_r. reflexivity.
  - destruct (lazy_rest r2) as [b' rest'] eqn:El. intros [= <- <- <-].
    apply lazy_rest_split in El.
    exists "["%char, (String l' (String "]" (ws ++ String c b'))).
    rewrite !append_cons, append_assoc, append_cons, <- El, <- Hws. reflexivity.
Qed.

(** The loop, one match at a time. *)
Lemma exec_all_unfold (s : string) :
  exec_all 0 s =
  match match_here s with
  | Some (l, b, rest) => (l, b) :: exec_all 0 rest
  | None => match s with
            | EmptyString => []
            | String _ s' => exec_all 0 s'
            end
  end.
Proof.
  destruct (match_here s) as [[[l b] rest]|] eqn:E.
  - destruct (match_here_suffix s l b rest E) as (c & pre & ->).
    cbn [exec_all]. rewrite E. f_equal.
    rewrite length_append. replace (_ + _ - _)%nat with (String.length pre) by lia.
    apply exec_all_skip.
  - destruct s as [|c s]; [reflexivity|]. cbn [exec_all]. rewrite E. reflexivity.
Qed.

Lemma marker_None_app (s u : string) :
  s <> "" -> marker s = None -> at_boundary u = true -> marker (s ++ u) = None.
Proof.
  intros Hne Hm Hu.
  destruct (marker (s ++ u)) as [[l r]|] eqn:E; [|reflexivity].
  exfalso. apply marker_Some in E as [E Hl].
  assert (Hu' : u = "" \/ exists l' r', u = String "[" (String l' (String "]" r'))).
  { destruct u as [|c u]; [left; reflexivity|right].
    cbn [at_boundary] in Hu. apply bool_decide_eq_true in Hu as [[l' r'] Hu].
    apply marker_Some in Hu as [-> _]. eauto. }
  destruct s as [|c0 [|c1 [|c2 s3]]]; [congruence| | |].
  - rewrite append_cons in E. cbn [append] in E.
    destruct Hu' as [->|(l' & r' & ->)]; [discriminate|].
    injection E as -> <- _. discriminate.
  - rewrite !append_cons in E. cbn [append] in E.
    destruct Hu' as [->|(l' & r' & ->)]; [discriminate|].
    injection E as -> -> E _. discriminate.
  - rewrite !append_cons in E. injection E as -> -> -> _.
    rewrite (marker_tagged l s3 Hl) in Hm. discriminate.
Qed.

Lemma at_boundary_app (s u : string) :
  s <> "" -> marker s = None -> at_boundary u = true -> at_boundary (s ++ u) = false.
Proof.
  intros Hne Hm Hu. pose proof (marker_None_app s u Hne Hm Hu) as E.
  destruct s as [|c s]; [congruence|]. rewrite append_cons in *.
  cbn [at_boundary]. rewrite E. apply bool_decide_eq_false. intros [? ?]. discriminate.
Qed.

Lemma marker_free_head (c : ascii) (s : string) :
  marker_free (String c s) = true -> marker (String c s) = None /\ marker_free s = true.
Proof.
  cbn [marker_free]. intros H. apply andb_prop in H as [H1 H2]. split; [|exact H2].
  apply negb_true_iff, bool_decide_eq_false in H1.
  destruct (marker (String c s)); [exfalso; apply H1; eauto|reflexivity].
Qed.

Lemma lazy_rest_eq (s : string) :
  lazy_rest s = if at_boundary s then (EmptyString, s)
                else match s with
                     | EmptyString => (EmptyString, EmptyString)
                     | String c s' => let '(b, r) := lazy_rest s' in (String c b, r)
                     end.
Proof. destruct s; reflexivity. Qed.

Lemma lazy_rest_free (t u : string) :
  marker_free t = true -> at_boundary u = true -> lazy_rest (t ++ u) = (t, u).
Proof.
  intros Ht Hu. induction t as [|c t IH].
  - change ("" ++ u) with u. rewrite lazy_rest_eq, Hu. reflexivity.
  - apply marker_free_head in Ht as [Hm Ht].
    rewrite lazy_rest_eq.
    rewrite (at_boundary_app (String c t) u) by (congruence || assumption).
    rewrite append_cons, (IH Ht). reflexivity.
Qed.

Lemma match_here_free (t u : string) :
  t <> "" -> marker t = None -> at_boundary u = true -> match_here (t ++ u) = None.
Proof.
  intros Hne Hm Hu. unfold match_here. rewrite (marker_None_app t u Hne Hm Hu). reflexivity.
Qed.

Lemma exec_all_free (n u : string) :
  marker_free n = true -> at_boundary u = true -> exec_all 0 (n ++ u) = exec_all 0 u.
Proof.
  intros Hn Hu. induction n as [|c n IH]; [reflexivity|].
  apply marker_free_head in Hn as [Hm Hn].
  rewrite exec_all_unfold, (match_here_free (String c n) u) by (congruence || assumption).
  rewrite append_cons. apply IH, Hn.
Qed.

Lemma marker_free_trim_start (t : string) :
  marker_free t = true -> marker_free (Github.trim_start t) = true.
Proof.
  induction t as [|c t IH]; [reflexivity|]. intros H.
  cbn [Github.trim_start]. destruct (Github.is_space c); [|exact H].
  apply marker_free_head in H as [_ H]. apply IH, H.
Qed.

Lemma trim_start_app (t u : string) :
  Github.trim_start t <> "" -> Github.trim_start (t ++ u) = Github.trim_start t ++ u.
Proof.
  induction t as [|c t IH]; intros H; [cbn in H; congruence|].
  rewrite append_cons. cbn [Github.trim_start] in *.
  destruct (Github.is_space c); [apply IH, H|reflexivity].
Qed.

Lemma trim_start_idem (t : string) :
  Github.trim_start (Github.trim_start t) = Github.trim_start t.
Proof.
  induction t as [|c t IH]; [reflexivity|].
  cbn [Github.trim_start]. destruct (Github.is_space c) eqn:E; [exact IH|].
  cbn [Github.trim_start]. rewrite E. reflexivity.
Qed.

Lemma trim_nonblank (t : string) : trim t <> "" -> Github.trim_start t <> "".
Proof. unfold trim. intros H E. rewrite E in H. apply H. reflexivity. Qed.

Lemma match_here_tagged (l : ascii) (t u : string) :
  is_label l = true -> marker_free t = true -> Github.trim_start t <> "" ->
  at_boundary u = true ->
  match_here (tagged (l, t) ++ u) = Some (l, Github.trim_start t, u).
Proof.
  intros Hl Ht Hnb Hu. unfold tagged, match_here. cbn [fst snd].
  rewrite !append_cons, (marker_tagged l (t ++ u) Hl).
  rewrite (trim_start_app t u Hnb).
  pose proof (marker_free_trim_start t Ht) as Hf.
  destruct (Github.trim_start t) as [|c r2]; [congruence|].
  apply marker_free_head in Hf as [_ Hf].
  rewrite append_cons, (lazy_rest_free r2 u Hf Hu). reflexivity.
Qed.

Lemma at_boundary_format (items : list (ascii * string)) :
  Forall well_tagged items -> at_boundary (format items) = true.
Proof.
  intros H. destruct H as [|[l t] items (Hl & _) _]; [reflexivity|].
  change (format ((l, t) :: items)) with (String "[" (String l (String "]" (t ++ format items)))).
  cbn [at_boundary].
  apply bool_decide_eq_true. rewrite (marker_tagged l _ Hl). eauto.
Qed.

Lemma exec_all_format (items : list (ascii * string)) :
  Forall well_tagged items ->
  exec_all 0 (format items) = List.map (fun it => (fst it, Github.trim_start (snd it))) items.
Proof.
  induction 1 as [|[l t] items (Hl & Ht & Hnb) Hrest IH]; [reflexivity|].
  cbn [format List.map fst snd] in *.
  rewrite exec_all_unfold.
  rewrite (match_here_tagged l t (format items) Hl Ht (trim_nonblank t Hnb)
             (at_boundary_format items Hrest)).
  rewrite IH. reflexivity.
Qed.

Lemma trim_trim_start (t : string) : trim (Github.trim_start t) = trim t.
Proof. unfold trim. rewrite trim_start_idem. reflexivity. Qed.

Lemma starts_A_marker (s : string) : starts_A s = true -> is_Some (marker s).
Proof.
  unfold starts_A, marker. destruct s as [|c0 [|c1 [|c2 r]]]; try discriminate.
  intros E. apply andb_prop in E as [E E2]. apply andb_prop in E as [E0 E1].
  apply bool_decide_eq_true in E0, E1, E2. subst. cbn. eauto.
Qed.

Lemma search_A_eq (s : string) :
  search_A s = if starts_A s then Some 0%nat
               else match s with
                    | EmptyString => None
                    | String _ s' => S <$> search_A s'
                    end.
Proof. destruct s; reflexivity. Qed.

Lemma starts_A_free (s : string) : marker s = None -> starts_A s = false.
Proof.
  intros Hm. destruct (starts_A s) eqn:E; [|reflexivity].
  destruct (starts_A_marker s E) as [? ?]. congruence.
Qed.

Lemma search_A_free (n u : string) :
  marker_free n = true -> search_A (n ++ String "[" (String "A" (String "]" u)))
                          = Some (String.length n).
Proof.
  intros Hn. induction n as [|c n IH]; [reflexivity|].
  apply marker_free_head in Hn as [Hm Hn].
  set (rest := String "[" (String "A" (String "]" u))) in *.
  assert (Hb : at_boundary rest = true) by reflexivity.
  pose proof (marker_None_app (String c n) rest ltac:(congruence) Hm Hb) as E.
  rewrite search_A_eq, (starts_A_free _ E), append_cons, (IH Hn). reflexivity.
Qed.

Lemma search_A_none (n : string) : marker_free n = true -> search_A n = None.
Proof.
  intros Hn. induction n as [|c n IH]; [reflexivity|].
  apply marker_free_head in Hn as [Hm Hn].
  rewrite search_A_eq, (starts_A_free _ Hm), (IH Hn). reflexivity.
Qed.

Lemma slice0_app (n u : string) : Str.slice0 (String.length n) (n ++ u) = n.
Proof.
  unfold Str.slice0. induction n as [|c n IH].
  - destruct u; reflexivity.
  - rewrite append_cons. cbn [String.length substring]. rewrite IH. reflexivity.
Qed.

Lemma match_here_label (s : string) l b rest :
  match_here s = Some (l, b, rest) -> is_label l = true.
Proof.
  unfold match_here. destruct (marker s) as [[l' r1]|] eqn:Em; [|discriminate].
  apply marker_Some in Em as [_ Hl].
  destruct (Github.trim_start r1).
  - destruct (last_char r1); [|discriminate]. intros [= <- _ _]. exact Hl.
  - destruct (lazy_rest _). intros [= <- _ _]. exact Hl.
Qed.

Lemma exec_all_labels (s : string) (k : nat) :
  Forall (fun m => is_label (fst m) = true) (exec_all k s).
Proof.
  revert k. induction s as [|c s IH]; intros k; [destruct k; constructor|].
  cbn [exec_all]. destruct k as [|k]; [|apply IH].
  destruct (match_here (String c s)) as [[[l b] rest]|] eqn:E; [|apply IH].
  constructor; [|apply IH]. exact (match_here_label _ _ _ _ E).
Qed.

Lemma is_label_cases (l : ascii) :
  is_label l = true ->
  String l "" = "A" \/ String l "" = "B" \/ String l "" = "C".
Proof.
  unfold is_label. intros H.
  apply orb_prop in H as [H|H]; [apply orb_prop in H as [H|H]|];
    apply bool_decide_eq_true in H; subst; auto.
Qed.

(** X9.  An answer in the format the prompt asks for, a narrative without
    markers followed by choices that each stand behind one of the markers
    [[A]], [[B]], [[C]] and are not blank, is parsed into exactly these
    choices, in their order, each with its label and its text trimmed.  When
    the first marker is [[A]] the narrative is the text before it, trimmed,
    or the whole answer, trimmed, when no text stands before it. *)
Theorem parseAIResponse_formatted (n : string) (items : list (ascii * string)) :
  marker_free n = true -> Forall well_tagged items -> items <> [] ->
  choices (parseAIResponse (n ++ format items))
  = List.map (fun it => mkChoice (String (fst it) "") (trim (snd it))) items /\
  ((exists t rest, items = ("A"%char, t) :: rest) ->
   narrative (parseAIResponse (n ++ format items))
   = if bool_decide (n = "") then trim (format items) else trim n).
Proof.
  intros Hn Hitems Hne. unfold parseAIResponse. cbn [choices narrative]. split.
  - rewrite (exec_all_free n (format items) Hn (at_boundary_format items Hitems)).
    rewrite (exec_all_format items Hitems), List.map_map. cbn [fst snd].
    destruct items as [|it items]; [congruence|].
    cbn [List.map]. rewrite trim_trim_start. f_equal.
    apply List.map_ext. intros a. rewrite trim_trim_start. reflexivity.
  - intros (t & rest & ->).
    change (format (("A"%char, t) :: rest))
      with (String "[" (String "A" (String "]" (t ++ format rest)))).
    rewrite (search_A_free n _ Hn).
    destruct n as [|c n]; [reflexivity|].
    rewrite bool_decide_eq_false_2 by discriminate.
    cbn [String.length]. change (S (String.length n)) with (String.length (String c n)).
    rewrite slice0_app. reflexivity.
Qed.

Lemma parseAIResponse_formatted_witness :
  choices (parseAIResponse
             ("The gate creaks open. " ++
              format [("A"%char, " Step inside "); ("B"%char, "Listen first  ");
                      ("C"%char, " Turn back")]))
  = [mkChoice "A" "Step inside"; mkChoice "B" "Listen first"; mkChoice "C" "Turn back"] /\
  narrative (parseAIResponse
                ("The gate creaks open. " ++
                 format [("A"%char, " Step inside "); ("B"%char, "Listen first  ");
                         ("C"%char, " Turn back")]))
   = "The gate creaks open.".
Proof.
  destruct (parseAIResponse_formatted "The gate creaks open. "
              [("A"%char, " Step inside "); ("B"%char, "Listen first  ");
               ("C"%char, " Turn back")]) as [H1 H2].
  - reflexivity.
  - repeat constructor; cbn; discriminate.
  - discriminate.
  - split; [exact H1|]. apply H2. eauto.
Defined.

(** X10.  Whatever the answer, the scene parsed from it offers at least one
    choice, every choice is labelled A, B or C, and the scene is not the
    epilogue; an answer without a marker gives the whole answer, trimmed, as
    narrative and the three default choices. *)
Theorem parseAIResponse_always_offers (text : string) :
  choices (parseAIResponse text) <> [] /\
  Forall (fun c => label c = "A" \/ label c = "B" \/ label c = "C")
         (choices (parseAIResponse text)) /\
  isEpilogue (parseAIResponse text) = false /\
  (marker_free text = true ->
   parseAIResponse text = mkScene (trim text) default_choices false).
Proof.
  unfold parseAIResponse. cbn [choices isEpilogue].
  split; [|split; [|split; [reflexivity|]]].
  - destruct (exec_all 0 text); cbn [List.map]; discriminate.
  - pose proof (exec_all_labels text 0) as H.
    destruct (exec_all 0 text) as [|m ms]; cbn [List.map].
    + unfold default_choices. repeat (apply Forall_cons_2; [cbn; auto|]). apply Forall_nil_2.
    + change (Forall (fun c => label c = "A" \/ label c = "B" \/ label c = "C")
                (List.map (fun m => mkChoice (String (fst m) "") (trim (snd m))) (m :: ms))).
      apply Forall_fmap. eapply Forall_impl; [exact H|].
      intros m' Hm'. cbn. apply is_label_cases, Hm'.
  - intros Hf.
    pose proof (exec_all_free text "" Hf eq_refl) as E. rewrite append_nil_r in E.
    rewrite E, (search_A_none text Hf). reflexivity.
Qed.

End ResponseProps.

(** ** The repository field *)

Section RepoInputProps.
Import Response RepoInput.

Lemma segment_spec (s a r : string) :
  segment s = (a, r) -> s = a ++ r /\ no_slash a = true /\ ends_segment r.
Proof.
  revert a r. induction s as [|c s IH]; intros a r.
  - cbn. intros [= <- <-]. repeat split. left. reflexivity.
  - cbn [segment]. unfold is_slash. destruct (bool_decide (c = "/"%char)) eqn:E.
    + apply bool_decide_eq_true in E. subst. intros [= <- <-]. repeat split. right. eauto.
    + destruct (segment s) as [a' r'] eqn:Es. intros [= <- <-].
      destruct (IH a' r' eq_refl) as (-> & Ha & Hr).
      repeat split; [|exact Hr]. cbn [no_slash]. unfold is_slash. rewrite E. exact Ha.
Qed.

Lemma segment_app (a r : string) :
  no_slash a = true -> ends_segment r -> segment (a ++ r) = (a, r).
Proof.
  intros Ha Hr. induction a as [|c a IH].
  - destruct Hr as [->|(r' & ->)]; reflexivity.
  - cbn [no_slash] in Ha. apply andb_prop in Ha as [Hc Ha].
    rewrite append_cons. cbn [segment]. rewrite (negb_true_iff _) in Hc. rewrite Hc.
    rewrite (IH Ha). reflexivity.
Qed.

Lemma two_segments_spec (s o p r : string) :
  two_segments s = Some (o, p, r) ->
  s = o ++ String "/" (p ++ r) /\ name_like o /\ name_like p /\ ends_segment r.
Proof.
  unfold two_segments. destruct (segment s) as [[|c o'] [|d r2]] eqn:E1; try discriminate.
  destruct (segment r2) as [[|e p'] r3] eqn:E2; try discriminate.
  intros [= <- <- <-].
  destruct (segment_spec _ _ _ E1) as (-> & Ho & [?|(r' & [= -> ->])]); [discriminate|].
  destruct (segment_spec _ _ _ E2) as (-> & Hp & Hr).
  repeat split; try assumption; discriminate.
Qed.

Lemma two_segments_app (o p r : string) :
  name_like o -> name_like p -> ends_segment r ->
  two_segments (o ++ String "/" (p ++ r)) = Some (o, p, r).
Proof.
  intros [Ho1 Ho2] [Hp1 Hp2] Hr. unfold two_segments.
  rewrite (segment_app o (String "/" (p ++ r)) Ho2) by (right; eauto).
  destruct o as [|c o]; [congruence|].
  rewrite (segment_app p r Hp2 Hr).
  destruct p as [|d p]; [congruence|]. reflexivity.
Qed.

Lemma strip_prefix_spec (p s r : string) : strip_prefix p s = Some r -> s = p ++ r.
Proof.
  revert s. induction p as [|a p IH]; intros s; cbn [strip_prefix].
  - intros [= ->]. reflexivity.
  - destruct s as [|b s]; [discriminate|].
    destruct (bool_decide (a = b)) eqn:E; [|discriminate].
    apply bool_decide_eq_true in E. subst. intros H. rewrite (IH s H). reflexivity.
Qed.

Lemma strip_prefix_app (p r : string) : strip_prefix p (p ++ r) = Some r.
Proof.
  induction p as [|a p IH]; [reflexivity|].
  rewrite append_cons. cbn [strip_prefix]. rewrite bool_decide_eq_true_2 by reflexivity.
  exact IH.
Qed.

Lemma url_here_spec (s o p : string) :
  url_here s = Some (o, p) ->
  name_like o /\ name_like p /\
  exists r, ends_segment r /\ s = "github.com/" ++ o ++ String "/" (p ++ r).
Proof.
  unfold url_here. destruct (strip_prefix "github.com/" s) as [r|] eqn:E; [|discriminate].
  apply strip_prefix_spec in E. subst s.
  destruct (two_segments r) as [[[o' p'] r3]|] eqn:E2; [|discriminate].
  intros [= <- <-]. cbn [fst snd].
  destruct (two_segments_spec _ _ _ _ E2) as (-> & Ho & Hp & Hr). eauto 6.
Qed.

Lemma url_match_spec (s o p : string) :
  url_match s = Some (o, p) ->
  name_like o /\ name_like p /\
  exists pre r, ends_segment r /\ s = pre ++ "github.com/" ++ o ++ String "/" (p ++ r).
Proof.
  induction s as [|c s IH].
  - cbn. discriminate.
  - cbn [url_match]. destruct (url_here (String c s)) as [[o' p']|] eqn:E.
    + intros [= <- <-]. destruct (url_here_spec _ _ _ E) as (Ho & Hp & r & Hr & Es).
      split; [exact Ho|]. split; [exact Hp|]. exists "", r. split; [exact Hr|exact Es].
    + intros H. destruct (IH H) as (Ho & Hp & pre & r & Hr & ->).
      split; [exact Ho|]. split; [exact Hp|]. exists (String c pre), r. split; [exact Hr|].
      reflexivity.
Qed.

Lemma short_match_spec (s o p : string) :
  short_match s = Some (o, p) -> name_like o /\ name_like p /\ s = o ++ String "/" p.
Proof.
  unfold short_match. destruct (two_segments s) as [[[o' p'] [|c r]]|] eqn:E; try discriminate.
  intros [= <- <-]. destruct (two_segments_spec _ _ _ _ E) as (-> & Ho & Hp & _).
  rewrite append_nil_r. auto.
Qed.

Lemma no_slash_app (a b : string) : no_slash (a ++ b) = no_slash a && no_slash b.
Proof.
  induction a as [|c a IH]; [reflexivity|].
  rewrite append_cons. cbn [no_slash]. rewrite IH, andb_assoc. reflexivity.
Qed.

Lemma no_slash_trim_start (s : string) : no_slash s = true -> no_slash (Github.trim_start s) = true.
Proof.
  induction s as [|c s IH]; [reflexivity|]. intros H.
  cbn [Github.trim_start]. destruct (Github.is_space c); [|exact H].
  cbn [no_slash] in H. apply andb_prop in H as [_ H]. apply IH, H.
Qed.

Lemma trim_end_eq (c : ascii) (s : string) :
  trim_end (String c s) =
  match trim_end s with
  | EmptyString => if Github.is_space c then EmptyString else String c EmptyString
  | t => String c t
  end.
Proof. reflexivity. Qed.

Lemma no_slash_trim_end (s : string) : no_slash s = true -> no_slash (trim_end s) = true.
Proof.
  induction s as [|c s IH]; [reflexivity|]. intros H.
  cbn [no_slash] in H. apply andb_prop in H as [Hc H]. specialize (IH H).
  rewrite trim_end_eq. destruct (trim_end s) as [|d t].
  - destruct (Github.is_space c); [reflexivity|]. cbn [no_slash]. rewrite Hc. reflexivity.
  - cbn [no_slash] in *. rewrite Hc. exact IH.
Qed.

Lemma drop_final_slash_eq (c : ascii) (s : string) :
  drop_final_slash (String c s) =
  match s with
  | EmptyString => if is_slash c then EmptyString else String c EmptyString
  | _ => String c (drop_final_slash s)
  end.
Proof. destruct s; reflexivity. Qed.

Lemma no_slash_drop (s : string) : no_slash s = true -> drop_final_slash s = s.
Proof.
  induction s as [|c s IH]; [reflexivity|]. intros H.
  cbn [no_slash] in H. apply andb_prop in H as [Hc H].
  rewrite drop_final_slash_eq. destruct s as [|d s].
  - apply negb_true_iff in Hc. rewrite Hc. reflexivity.
  - rewrite (IH H). reflexivity.
Qed.

Lemma no_slash_no_match (s : string) :
  no_slash s = true -> url_match s = None /\ short_match s = None.
Proof.
  intros H. split.
  - destruct (url_match s) as [[o p]|] eqn:E; [|reflexivity].
    destruct (url_match_spec _ _ _ E) as (_ & _ & pre & r & _ & ->).
    rewrite !no_slash_app in H. cbn in H. rewrite !andb_false_r in H. discriminate.
  - destruct (short_match s) as [[o p]|] eqn:E; [|reflexivity].
    destruct (short_match_spec _ _ _ E) as (_ & _ & ->).
    rewrite !no_slash_app in H. cbn in H. rewrite !andb_false_r in H. discriminate.
Qed.

(** X11.  When [parseRepoInput] returns a repository, its owner and its
    name are not empty and hold no slash; an input without a slash is
    refused. *)
Theorem parseRepoInput_sound (input : string) :
  (forall r, parseRepoInput input = Some r ->
             name_like (owner r) /\ name_like (repo_name r)) /\
  (no_slash input = true -> parseRepoInput input = None).
Proof.
  unfold parseRepoInput. split.
  - intros r.
    destruct (url_match _) as [[o p]|] eqn:E.
    + intros [= <-]. destruct (url_match_spec _ _ _ E) as (Ho & Hp & _). auto.
    + destruct (short_match _) as [[o p]|] eqn:E2; [|discriminate].
      intros [= <-]. destruct (short_match_spec _ _ _ E2) as (Ho & Hp & _). auto.
  - intros H.
    assert (Hn : no_slash (drop_final_slash (trim input)) = true).
    { unfold trim. rewrite no_slash_drop; apply no_slash_trim_end, no_slash_trim_start, H. }
    destruct (no_slash_no_match _ Hn) as [-> ->]. reflexivity.
Qed.

Lemma slashes_app (a b : string) : slashes (a ++ b) = (slashes a + slashes b)%nat.
Proof.
  induction a as [|c a IH]; [reflexivity|].
  rewrite append_cons. cbn [slashes]. rewrite IH. lia.
Qed.

Lemma slashes_none (s : string) : no_slash s = true -> slashes s = 0%nat.
Proof.
  induction s as [|c s IH]; [reflexivity|]. cbn [no_slash slashes]. intros H.
  apply andb_prop in H as [Hc H]. apply negb_true_iff in Hc. rewrite Hc, (IH H). reflexivity.
Qed.

Lemma trim_end_app (a b : string) :
  trim_end (a ++ b) = match trim_end b with
                      | EmptyString => trim_end a
                      | t => a ++ t
                      end.
Proof.
  induction a as [|c a IH].
  - change ("" ++ b) with b. destruct (trim_end b); reflexivity.
  - rewrite append_cons, trim_end_eq, IH.
    destruct (trim_end b) as [|d t] eqn:E.
    + rewrite trim_end_eq. reflexivity.
    + destruct (a ++ String d t) eqn:E2; [destruct a; discriminate|].
      rewrite append_cons, E2. reflexivity.
Qed.

Lemma drop_final_slash_app (a b : string) :
  b <> "" -> drop_final_slash (a ++ b) = a ++ drop_final_slash b.
Proof.
  intros Hb. induction a as [|c a IH]; [reflexivity|].
  rewrite append_cons, drop_final_slash_eq, IH.
  destruct (a ++ b) eqn:E; [|reflexivity].
  destruct a; [|discriminate]. change ("" ++ b) with b in E. congruence.
Qed.

Lemma trim_start_keep (o x : string) :
  o <> "" -> Github.trim_start o = o -> Github.trim_start (o ++ x) = o ++ x.
Proof.
  intros Hne Ho. rewrite (trim_start_app o x) by (rewrite Ho; exact Hne).
  rewrite Ho. reflexivity.
Qed.

(** The trimming of [parseRepoInput] leaves a short form without padding
    as it is. *)
Lemma short_form_kept (o p : string) :
  name_like o -> name_like p -> Github.trim_start o = o -> trim_end p = p ->
  drop_final_slash (trim (o ++ "/" ++ p)) = o ++ "/" ++ p.
Proof.
  intros [Ho1 Ho2] [Hp1 Hp2] Hos Hpe. unfold trim.
  rewrite (trim_start_keep o _ Ho1 Hos).
  assert (E1 : trim_end (o ++ "/" ++ p) = o ++ "/" ++ p).
  { rewrite trim_end_app. rewrite (trim_end_app "/" p), Hpe.
    destruct p as [|d p]; [congruence|]. reflexivity. }
  rewrite E1, drop_final_slash_app by discriminate.
  rewrite (drop_final_slash_app "/" p Hp1), (no_slash_drop p Hp2). reflexivity.
Qed.

(** A short form has too few slashes for the pattern of an address, and
    matches the pattern of the short form. *)
Lemma short_form_matches (o p : string) :
  name_like o -> name_like p ->
  url_match (o ++ "/" ++ p) = None /\ short_match (o ++ "/" ++ p) = Some (o, p).
Proof.
  intros Ho Hp. pose proof Ho as [Ho1 Ho2]. pose proof Hp as [Hp1 Hp2]. split.
  - destruct (url_match (o ++ "/" ++ p)) as [[o' p']|] eqn:E; [exfalso|reflexivity].
    destruct (url_match_spec _ _ _ E) as (_ & _ & pre & r & _ & Es).
    apply (f_equal slashes) in Es. rewrite !slashes_app in Es.
    change (slashes "/") with 1%nat in Es.
    change (slashes "github.com/") with 1%nat in Es.
    change (slashes (String "/" (p' ++ r))) with (S (slashes (p' ++ r))) in Es.
    rewrite (slashes_none o Ho2), (slashes_none p Hp2) in Es. lia.
  - unfold short_match.
    change (o ++ "/" ++ p) with (o ++ String "/" p).
    rewrite <- (append_nil_r p) at 1.
    rewrite (two_segments_app o p "" Ho Hp) by (left; reflexivity). reflexivity.
Qed.

(** X12.  The short form [owner/repo], for an owner and a name that are
    not empty, hold no slash and are not padded with white space on the
    outer side, is parsed into that owner and that name. *)
Theorem parseRepoInput_short_form (o p : string) :
  name_like o -> name_like p -> Github.trim_start o = o -> trim_end p = p ->
  parseRepoInput (o ++ "/" ++ p) = Some (mkRepo o p).
Proof.
  intros Ho Hp Hos Hpe. unfold parseRepoInput.
  rewrite (short_form_kept o p Ho Hp Hos Hpe).
  destruct (short_form_matches o p Ho Hp) as [-> ->]. reflexivity.
Qed.

Lemma parseRepoInput_short_form_witness :
  parseRepoInput ("rust-lang" ++ "/" ++ "rust") = Some (mkRepo "rust-lang" "rust").
Proof.
  apply (parseRepoInput_short_form "rust-lang" "rust"); try reflexivity;
    (split; [discriminate|reflexivity]).
Defined.

Lemma url_match_skip (pre s : string) :
  no_g pre = true -> url_match (pre ++ s) = url_match s.
Proof.
  intros H. induction pre as [|c pre IH]; [reflexivity|].
  cbn [no_g] in H. apply andb_prop in H as [Hc H].
  apply negb_true_iff, bool_decide_eq_false in Hc.
  rewrite append_cons. cbn [url_match].
  assert (E : url_here (String c (pre ++ s)) = None).
  { unfold url_here. cbn [strip_prefix].
    rewrite bool_decide_eq_false_2 by congruence. reflexivity. }
  rewrite E. apply IH, H.
Qed.

Lemma ends_segment_trim_end (t : string) : ends_segment t -> ends_segment (trim_end t).
Proof.
  intros [->|(x & ->)]; [left; reflexivity|right].
  rewrite trim_end_eq. destruct (trim_end x); eauto.
Qed.

Lemma ends_segment_drop (t : string) : ends_segment t -> ends_segment (drop_final_slash t).
Proof.
  intros [->|(x & ->)]; [left; reflexivity|].
  rewrite drop_final_slash_eq. destruct x; [left; reflexivity|right; eauto].
Qed.

Lemma trim_end_name (p t : string) :
  p <> "" -> trim_end p = p -> trim_end (p ++ t) = p ++ trim_end t.
Proof.
  intros Hp Hpe. rewrite trim_end_app. destruct (trim_end t).
  - rewrite append_nil_r. exact Hpe.
  - reflexivity.
Qed.

Lemma drop_name (p t : string) :
  name_like p -> drop_final_slash (p ++ t) = p ++ drop_final_slash t.
Proof.
  intros [Hp1 Hp2]. destruct t as [|c t].
  - rewrite append_nil_r. cbn. rewrite append_nil_r. apply no_slash_drop, Hp2.
  - apply drop_final_slash_app. discriminate.
Qed.

(** X13.  The address of a repository page on [github.com], with or without
    [https://], [http://] and [www.], is parsed into the owner and the name
    that follow [github.com/], whatever path follows the name. *)
Theorem parseRepoInput_url (origin o p tail : string) :
  origin ∈ origins -> name_like o -> name_like p -> trim_end p = p ->
  tail = "" \/ (exists more, tail = String "/" more) ->
  parseRepoInput (origin ++ "github.com/" ++ o ++ "/" ++ p ++ tail) = Some (mkRepo o p).
Proof.
  intros Hor Ho Hp Hpe Htail. pose proof Ho as [Ho1 Ho2]. pose proof Hp as [Hp1 Hp2].
  assert (Horigin : no_g origin = true /\
                    forall x, Github.trim_start (origin ++ "github.com/" ++ x)
                              = origin ++ "github.com/" ++ x).
  { unfold origins in Hor.
    repeat (apply elem_of_cons in Hor as [->|Hor]; [split; [reflexivity|intros x; reflexivity]|]).
    apply elem_of_nil in Hor. contradiction. }
  destruct Horigin as [Hg Hts].
  unfold parseRepoInput, trim. rewrite Hts.
  set (t1 := trim_end tail).
  assert (Ht1 : ends_segment t1) by (apply ends_segment_trim_end, Htail).
  assert (E1 : trim_end (origin ++ "github.com/" ++ o ++ "/" ++ p ++ tail)
               = origin ++ "github.com/" ++ o ++ "/" ++ p ++ t1).
  { pose proof (trim_end_name p tail Hp1 Hpe) as Ep. fold t1 in Ep.
    assert (Hne : p ++ t1 <> "") by (destruct p; [congruence|discriminate]).
    rewrite (trim_end_app origin), (trim_end_app "github.com/"), (trim_end_app o),
      (trim_end_app "/"), Ep.
    destruct (p ++ t1) as [|c x] eqn:Ex; [congruence|].
    rewrite append_cons.
    destruct o as [|c' o']; [congruence|]. rewrite append_cons. cbn [append].
    destruct origin; reflexivity. }
  rewrite E1.
  set (t2 := drop_final_slash t1).
  assert (Ht2 : ends_segment t2) by (apply ends_segment_drop, Ht1).
  assert (E2 : drop_final_slash (origin ++ "github.com/" ++ o ++ "/" ++ p ++ t1)
               = origin ++ "github.com/" ++ o ++ String "/" (p ++ t2)).
  { assert (Hne : p ++ t1 <> "") by (destruct p; [congruence|discriminate]).
    rewrite (drop_final_slash_app origin) by discriminate.
    rewrite (drop_final_slash_app "github.com/") by (destruct o; [congruence|discriminate]).
    rewrite (drop_final_slash_app o) by discriminate.
    rewrite (drop_final_slash_app "/" (p ++ t1) Hne).
    rewrite (drop_name p t1 Hp). reflexivity. }
  rewrite E2.
  rewrite (url_match_skip origin _ Hg).
  assert (E3 : url_match ("github.com/" ++ o ++ String "/" (p ++ t2)) = Some (o, p)).
  { assert (Eh : url_here ("github.com/" ++ o ++ String "/" (p ++ t2)) = Some (o, p)).
    { unfold url_here. rewrite strip_prefix_app, (two_segments_app o p t2 Ho Hp Ht2).
      reflexivity. }
    destruct ("github.com/" ++ o ++ String "/" (p ++ t2)) eqn:Es; [discriminate|].
    cbn [url_match]. rewrite Eh. reflexivity. }
  rewrite E3. reflexivity.
Qed.

Lemma parseRepoInput_url_witness :
  parseRepoInput ("https://" ++ "github.com/" ++ "vercel" ++ "/" ++ "next.js" ++ "/tree/canary/ ")
  = Some (mkRepo "vercel" "next.js").
Proof.
  apply (parseRepoInput_url "https://" "vercel" "next.js" "/tree/canary/ ").
  - apply list_elem_of_further, list_elem_of_here.
  - split; [discriminate|reflexivity].
  - split; [discriminate|reflexivity].
  - reflexivity.
  - right. eauto.
Defined.

End RepoInputProps.

(** ** More on the analysis *)

Section AnalyzerMore.
Import Github Tally.

Lemma uniq_from (xs seen : list string) :
  NoDup seen ->
  let r := fold_left (fun seen x => if bool_decide (x ∈ seen) then seen else (seen ++ [x])%list)
                     xs seen in
  NoDup r /\ (forall x, x ∈ r <-> x ∈ seen \/ x ∈ xs) /\
  (exists more, r = (seen ++ more)%list) /\ (length r <= length seen + length xs)%nat.
Proof.
  revert seen. induction xs as [|x xs IH]; intros seen Hnd; cbn [fold_left].
  - split; [exact Hnd|]. split.
    { intros y. split; [auto|]. intros [H|H]; [exact H|]. apply elem_of_nil in H. contradiction. }
    split; [exists []; symmetry; apply app_nil_r|cbn; lia].
  - destruct (bool_decide (x ∈ seen)) eqn:E.
    + apply bool_decide_eq_true in E.
      destruct (IH seen Hnd) as (H1 & H2 & H3 & H4).
      split; [exact H1|]. split; [|split; [exact H3|cbn [length]; lia]].
      intros y. rewrite H2, elem_of_cons. split; [tauto|].
      intros [H|[->|H]]; auto.
    + apply bool_decide_eq_false in E.
      assert (Hnd' : NoDup (seen ++ [x])).
      { apply NoDup_app. repeat split; [exact Hnd| |apply NoDup_singleton].
        intros y Hy Hy'. apply list_elem_of_singleton in Hy'. subst. contradiction. }
      destruct (IH (seen ++ [x])%list Hnd') as (H1 & H2 & (more & H3) & H4).
      split; [exact H1|]. split; [|split].
      * intros y. rewrite H2, elem_of_app, list_elem_of_singleton, elem_of_cons. tauto.
      * exists (x :: more). rewrite H3, <- app_assoc. reflexivity.
      * rewrite length_app in H4. cbn [length] in *. lia.
Qed.

Lemma uniq_spec (xs : list string) :
  NoDup (uniq xs) /\ (forall x, x ∈ uniq xs <-> x ∈ xs) /\
  (length (uniq xs) <= length xs)%nat /\
  head (uniq xs) = head xs.
Proof.
  unfold uniq.
  destruct (uniq_from xs [] (NoDup_nil_2)) as (H1 & H2 & _ & H4).
  split; [exact H1|]. split.
  { intros x. rewrite H2. split; [|auto]. intros [H|H]; [|exact H].
    apply elem_of_nil in H. contradiction. }
  split; [exact H4|].
  destruct xs as [|x xs]; [reflexivity|]. cbn [fold_left].
  rewrite bool_decide_eq_false_2 by apply not_elem_of_nil.
  change ([] ++ [x])%list with [x].
  destruct (uniq_from xs [x] (NoDup_singleton x)) as (_ & _ & (more & ->) & _). reflexivity.
Qed.

(** X14.  [authors] holds the name of every commit author exactly once and
    starts with the author of the first commit; [authorCount] is its length,
    between 1 and [totalCommits]; and the music has [min(4, authorCount)]
    voices, between 1 and 4. *)
Theorem analyzeCommits_authors (cs : list CommitRecord) (a : CommitAnalysis) :
  analyzeCommits cs = Some a ->
  NoDup (authors a) /\
  (forall n, n ∈ authors a <-> exists c, c ∈ cs /\ name (author c) = n) /\
  head (authors a) = (fun c => name (author c)) <$> head cs /\
  totalCommits a = Z.of_nat (length cs) /\
  authorCount a = Z.of_nat (length (authors a)) /\
  1 <= authorCount a <= totalCommits a /\
  voices (music a) = Z.min 4 (authorCount a) /\
  1 <= voices (music a) <= 4.
Proof.
  unfold analyzeCommits. destruct cs as [|c0 cs]; [discriminate|].
  destruct (last (c0 :: cs)) as [cl|]; [|discriminate].
  intros [= <-]. cbn [authors authorCount totalCommits music voices].
  destruct (uniq_spec (List.map (fun c => name (author c)) (c0 :: cs))) as (H1 & H2 & H3 & H4).
  rewrite length_map in H3.
  assert (Hpos : (1 <= length (uniq (List.map (fun c => name (author c)) (c0 :: cs))))%nat).
  { destruct (uniq _) eqn:E; [|cbn; lia]. cbn in H4. discriminate. }
  split; [exact H1|]. split.
  { intros n. rewrite H2.
    change (List.map (fun c => name (author c)) (c0 :: cs))
      with ((fun c => name (author c)) <$> (c0 :: cs)).
    rewrite list_elem_of_fmap. split; intros (c & A & B); eauto. }
  split; [exact H4|]. split; [reflexivity|]. split; [reflexivity|].
  cbn [List.map length] in *. split; [lia|]. split; lia.
Qed.

Lemma analyzeCommits_authors_witness :
  exists a,
    analyzeCommits three_commits = Some a /\
    NoDup (authors a) /\
    (forall n, n ∈ authors a <-> exists c, c ∈ three_commits /\ name (author c) = n) /\
    head (authors a) = (fun c => name (author c)) <$> head three_commits /\
    totalCommits a = Z.of_nat (length three_commits) /\
    authorCount a = Z.of_nat (length (authors a)) /\
    1 <= authorCount a <= totalCommits a /\
    voices (music a) = Z.min 4 (authorCount a) /\
    1 <= voices (music a) <= 4.
Proof.
  eexists. split; [reflexivity|].
  apply (analyzeCommits_authors three_commits). reflexivity.
Defined.

(** *** The peak hour *)

Lemma commits_at_cons (h : nat) (c : CommitRecord) (cs : list CommitRecord) :
  commits_at h (c :: cs) = (if bool_decide (hour c = h) then 1 else 0) + commits_at h cs.
Proof.
  unfold commits_at, count. cbn [List.filter].
  destruct (bool_decide (hour c = h)); cbn [length]; lia.
Qed.

Lemma commits_at_nonneg (h : nat) (cs : list CommitRecord) : 0 <= commits_at h cs.
Proof. unfold commits_at, count. lia. Qed.

Lemma hourCounts_lookup (cs : list CommitRecord) (cells : list (option Z)) :
  Forall (fun c => (hour c < length cells)%nat) cs ->
  let r := fold_left (fun cells c => bump (hour c) cells) cs cells in
  length r = length cells /\
  forall h, r !! h = fmap (fun v => v + commits_at h cs) <$> (cells !! h).
Proof.
  revert cells. induction cs as [|c cs IH]; intros cells Hall; cbn [fold_left].
  - split; [reflexivity|]. intros h. destruct (cells !! h) as [[v|]|]; cbn; [|reflexivity..].
    unfold commits_at, count. cbn. do 2 f_equal. lia.
  - apply Forall_cons in Hall as [Hc Hall].
    assert (Eb : bump (hour c) cells = alter (fmap Z.succ) (hour c) cells).
    { unfold bump. rewrite bool_decide_eq_true_2 by exact Hc. reflexivity. }
    rewrite Eb. clear Eb.
    destruct (IH (alter (fmap Z.succ) (hour c) cells)) as [Hlen Hlook].
    { rewrite length_alter. exact Hall. }
    rewrite length_alter in Hlen. split; [exact Hlen|].
    intros h. rewrite Hlook, commits_at_cons.
    destruct (decide (hour c = h)) as [<-|Hne].
    + rewrite list_lookup_alter_eq, bool_decide_eq_true_2 by reflexivity.
      destruct (cells !! hour c) as [[v|]|]; cbn; [|reflexivity..].
      do 2 f_equal. lia.
    + rewrite list_lookup_alter_ne by exact Hne.
      rewrite bool_decide_eq_false_2 by exact Hne.
      destruct (cells !! h) as [[v|]|]; cbn; reflexivity.
Qed.

Lemma max_cells_from (cells : list (option Z)) (a : Z) :
  (forall i c, cells !! i = Some c -> is_Some c) ->
  exists M,
    fold_left (fun acc c => match acc, c with
                            | Some a, Some n => Some (Z.max a n)
                            | _, _ => None
                            end) cells (Some a) = Some M /\
    a <= M /\
    (forall i v, cells !! i = Some (Some v) -> v <= M) /\
    (M = a \/ exists i, cells !! i = Some (Some M)).
Proof.
  revert a. induction cells as [|c cells IH]; intros a Hall; cbn [fold_left].
  - exists a. split; [reflexivity|]. split; [lia|]. split; [|left; reflexivity].
    intros i v H. rewrite lookup_nil in H. discriminate.
  - destruct (Hall 0%nat c eq_refl) as [n ->].
    destruct (IH (Z.max a n)) as (M & E & H1 & H2 & H3).
    { intros i c' H. apply (Hall (S i) c' H). }
    exists M. split; [exact E|]. split; [lia|]. split.
    + intros [|i] v H; [injection H as <-; lia|]. apply (H2 i v H).
    + destruct H3 as [->|(i & Hi)]; [|right; exists (S i); exact Hi].
      destruct (Z.max_spec a n) as [[_ ->]|[_ ->]]; [right; exists 0%nat; reflexivity|].
      left. reflexivity.
Qed.

Lemma index_from_spec (cells : list (option Z)) (i m : Z) (j : nat) :
  cells !! j = Some (Some m) ->
  exists k, index_from i m cells = i + Z.of_nat k /\ (k <= j)%nat /\
            cells !! k = Some (Some m) /\
            forall k', (k' < k)%nat -> cells !! k' <> Some (Some m).
Proof.
  revert i j. induction cells as [|c cells IH]; intros i j Hj.
  - rewrite lookup_nil in Hj. discriminate.
  - cbn [index_from]. destruct (bool_decide (c = Some m)) eqn:E.
    + apply bool_decide_eq_true in E. subst c. exists 0%nat.
      split; [lia|]. split; [lia|]. split; [reflexivity|]. intros k' Hk'. lia.
    + apply bool_decide_eq_false in E.
      destruct j as [|j]; [cbn in Hj; congruence|].
      destruct (IH (i + 1) j Hj) as (k & Ek & Hle & Hk & Hfirst).
      exists (S k). split; [lia|]. split; [lia|]. split; [exact Hk|].
      intros [|k'] Hk'; [cbn; congruence|]. apply Hfirst. lia.
Qed.

Lemma commits_at_late (cs : list CommitRecord) (h : nat) :
  Forall (fun c => (hour c < 24)%nat) cs -> (24 <= h)%nat -> commits_at h cs = 0.
Proof.
  induction 1 as [|c cs Hc _ IH]; intros Hh; [reflexivity|].
  rewrite commits_at_cons, (IH Hh), bool_decide_eq_false_2 by lia. reflexivity.
Qed.

Lemma peak_of_cells (cs : list CommitRecord) :
  Forall (fun c => (hour c < 24)%nat) cs ->
  let cells := fold_left (fun cells c => bump (hour c) cells) cs (replicate 24 (Some 0)) in
  let p := indexOf (max_cells cells) cells in
  0 <= p < 24 /\
  (forall h, commits_at h cs <= commits_at (Z.to_nat p) cs) /\
  (forall h, Z.of_nat h < p -> commits_at h cs < commits_at (Z.to_nat p) cs).
Proof.
  intros Hall cells.
  destruct (hourCounts_lookup cs (replicate 24 (Some 0))) as [Hlen Hlook];
    [rewrite length_replicate; exact Hall|].
  fold cells in Hlen, Hlook. rewrite length_replicate in Hlen.
  assert (Hcell : forall h, (h < 24)%nat -> cells !! h = Some (Some (commits_at h cs))).
  { intros h Hh. rewrite Hlook, lookup_replicate_2 by exact Hh. cbn. reflexivity. }
  assert (Hsome : forall i c, cells !! i = Some c -> is_Some c).
  { intros i c Hi. pose proof (lookup_lt_Some _ _ _ Hi) as Hlt. rewrite Hlen in Hlt.
    rewrite (Hcell i Hlt) in Hi. injection Hi as <-. eauto. }
  destruct (max_cells_from cells (-1) Hsome) as (M & EM & HM1 & HM2 & HM3).
  unfold max_cells. rewrite EM. cbn [indexOf].
  assert (HMin : exists j, cells !! j = Some (Some M)).
  { destruct HM3 as [->|H]; [|exact H]. exfalso.
    pose proof (HM2 0%nat _ (Hcell 0%nat ltac:(lia))).
    pose proof (commits_at_nonneg 0 cs). lia. }
  destruct HMin as [j Hj].
  destruct (index_from_spec cells 0 M j Hj) as (k & Ek & Hkj & Hk & Hfirst).
  rewrite Ek.
  pose proof (lookup_lt_Some _ _ _ Hk) as Hklt. rewrite Hlen in Hklt.
  pose proof (Hcell k Hklt) as Hk'. rewrite Hk in Hk'. injection Hk' as HkM.
  replace (Z.to_nat (0 + Z.of_nat k)) with k by lia.
  split; [lia|]. split.
  - intros h. destruct (Nat.lt_ge_cases h 24) as [Hh|Hh].
    + rewrite <- HkM. apply (HM2 h), Hcell, Hh.
    + rewrite (commits_at_late cs h Hall Hh). apply commits_at_nonneg.
  - intros h Hh. assert (Hhk : (h < k)%nat) by lia.
    assert (Hh24 : (h < 24)%nat) by lia.
    pose proof (HM2 h _ (Hcell h Hh24)) as Hle.
    pose proof (Hfirst h Hhk) as Hne. rewrite (Hcell h Hh24) in Hne.
    rewrite <- HkM. destruct (Z.eq_dec (commits_at h cs) M) as [E|E]; [|lia].
    exfalso. apply Hne. rewrite E. reflexivity.
Qed.

(** X15.  When every commit has its hour below 24, [peakHour] is the first
    hour with the largest number of commits, and the mode of the music is
    [major] exactly when that hour lies between 6 and 18. *)
Theorem analyzeCommits_peakHour (cs : list CommitRecord) (a : CommitAnalysis) :
  analyzeCommits cs = Some a -> Forall (fun c => (hour c < 24)%nat) cs ->
  0 <= peakHour a < 24 /\
  (forall h, commits_at h cs <= commits_at (Z.to_nat (peakHour a)) cs) /\
  (forall h, Z.of_nat h < peakHour a ->
             commits_at h cs < commits_at (Z.to_nat (peakHour a)) cs) /\
  mode (music a) = if (6 <=? peakHour a) && (peakHour a <=? 18) then "major" else "minor".
Proof.
  intros Ha Hall.
  assert (E : peakHour a
              = indexOf (max_cells (fold_left (fun cells c => bump (hour c) cells) cs
                                              (replicate 24 (Some 0))))
                        (fold_left (fun cells c => bump (hour c) cells) cs
                                   (replicate 24 (Some 0))) /\
              mode (music a)
              = if (6 <=? peakHour a) && (peakHour a <=? 18) then "major" else "minor").
  { unfold analyzeCommits in Ha. destruct cs as [|c0 cs0]; [discriminate|].
    destruct (last (c0 :: cs0)); [|discriminate]. injection Ha as <-. split; reflexivity. }
  destruct E as [E Emode]. rewrite E.
  destruct (peak_of_cells cs Hall) as (H1 & H2 & H3).
  split; [exact H1|]. split; [exact H2|]. split; [exact H3|]. rewrite <- E. exact Emode.
Qed.

Lemma analyzeCommits_peakHour_witness :
  exists a,
    analyzeCommits three_commits = Some a /\
    0 <= peakHour a < 24 /\
    (forall h, commits_at h three_commits <= commits_at (Z.to_nat (peakHour a)) three_commits) /\
    (forall h, Z.of_nat h < peakHour a ->
               commits_at h three_commits < commits_at (Z.to_nat (peakHour a)) three_commits) /\
    mode (music a) = if (6 <=? peakHour a) && (peakHour a <=? 18) then "major" else "minor".
Proof.
  eexists. split; [reflexivity|].
  apply (analyzeCommits_peakHour three_commits); [reflexivity|].
  repeat constructor.
Defined.

(** *** The seed *)

Lemma to_int32_mod (x : Z) : JS.to_int32 x mod 2 ^ 32 = x mod 2 ^ 32.
Proof.
  unfold JS.to_int32.
  rewrite Zminus_mod, Zmod_mod, <- Zminus_mod. f_equal. lia.
Qed.

Lemma to_int32_congr (x y : Z) : x mod 2 ^ 32 = y mod 2 ^ 32 -> JS.to_int32 x = JS.to_int32 y.
Proof.
  intros H. unfold JS.to_int32. f_equal.
  rewrite (Zplus_mod x), (Zplus_mod y), H. reflexivity.
Qed.

Lemma lxor_mod (x y : Z) : Z.lxor x y mod 2 ^ 32 = Z.lxor (x mod 2 ^ 32) (y mod 2 ^ 32).
Proof.
  rewrite <- !Z.land_ones by lia. apply Z.bits_inj'. intros n _.
  rewrite Z.land_spec, !Z.lxor_spec, !Z.land_spec.
  destruct (Z.testbit x n), (Z.testbit y n), (Z.testbit (Z.ones 32) n); reflexivity.
Qed.

Lemma xor_mod (a b : Z) : JS.xor a b mod 2 ^ 32 = Z.lxor (a mod 2 ^ 32) (b mod 2 ^ 32).
Proof. unfold JS.xor. rewrite to_int32_mod, lxor_mod, !to_int32_mod. reflexivity. Qed.

Lemma xor_fold (vs : list Z) (acc : Z) :
  - 2 ^ 31 <= acc < 2 ^ 31 ->
  fold_left JS.xor vs acc
  = JS.to_int32 (fold_left (fun r v => Z.lxor r (v mod 2 ^ 32)) vs (acc mod 2 ^ 32)).
Proof.
  revert acc. induction vs as [|v vs IH]; intros acc Hacc; cbn [fold_left].
  - rewrite <- (to_int32_id acc Hacc) at 1. apply to_int32_congr.
    rewrite Zmod_mod. reflexivity.
  - rewrite (IH (JS.xor acc v) (xor_range acc v)), xor_mod. reflexivity.
Qed.

Lemma fold_left_permutation {A B} (f : A -> B -> A) (l l' : list B) :
  (forall r a b, f (f r a) b = f (f r b) a) ->
  l ≡ₚ l' -> forall r, fold_left f l r = fold_left f l' r.
Proof.
  intros Hf. induction 1 as [|x l l' _ IH|x y l|l l' l'' _ IH1 _ IH2]; intros r; cbn [fold_left].
  - reflexivity.
  - apply IH.
  - rewrite Hf. reflexivity.
  - rewrite IH1. apply IH2.
Qed.

Lemma seed_of_words (cs : list CommitRecord) :
  seed_of cs
  = fold_left JS.xor (List.map sha_word (List.map (fun c => Str.slice0 8 (sha c)) (take 5 cs))) 0.
Proof.
  unfold seed_of. rewrite List.map_map. symmetry. apply fold_left_fmap.
Qed.

(** X16.  [hashSeed] is a signed 32-bit integer, and it depends only on the
    first eight characters of the hashes of the first five commits, not on
    their order. *)
Theorem hashSeed_of_first_five (cs : list CommitRecord) (a : CommitAnalysis) :
  analyzeCommits cs = Some a ->
  - 2 ^ 31 <= hashSeed a < 2 ^ 31 /\
  forall cs' a',
    analyzeCommits cs' = Some a' ->
    List.map (fun c => Str.slice0 8 (sha c)) (take 5 cs')
      ≡ₚ List.map (fun c => Str.slice0 8 (sha c)) (take 5 cs) ->
    hashSeed a' = hashSeed a.
Proof.
  intros Ha. rewrite (analyzeCommits_hashSeed cs a Ha).
  split; [apply seed_of_range|].
  intros cs' a' Ha' Hp. rewrite (analyzeCommits_hashSeed cs' a' Ha').
  rewrite !seed_of_words, !xor_fold by lia. f_equal.
  apply fold_left_permutation.
  - intros r x y. cbn beta. rewrite !Z.lxor_assoc. f_equal. apply Z.lxor_comm.
  - apply Permutation_map, Hp.
Qed.

Lemma hashSeed_of_first_five_witness :
  exists a,
    analyzeCommits three_commits = Some a /\
    - 2 ^ 31 <= hashSeed a < 2 ^ 31 /\
    forall cs' a',
      analyzeCommits cs' = Some a' ->
      List.map (fun c => Str.slice0 8 (sha c)) (take 5 cs')
        ≡ₚ List.map (fun c => Str.slice0 8 (sha c)) (take 5 three_commits) ->
      hashSeed a' = hashSeed a.
Proof.
  eexists. split; [reflexivity|].
  apply (hashSeed_of_first_five three_commits). reflexivity.
Defined.

Example seed_of_reordered :
  seed_of [commit_c0de; commit_8f3a; commit_26f5] = seed_of three_commits /\
  seed_of (three_commits ++ three_commits) = seed_of [commit_c0de].
Proof. vm_compute. auto. Qed.

End AnalyzerMore.

(** ** The saved games *)

Section SavesProps.
Import Saves.

Lemma remove_first_prefix (p s : string) :
  startsWith p s = true -> p ++ remove_first p s = s.
Proof.
  unfold startsWith. destruct (RepoInput.strip_prefix p s) as [rest|] eqn:E; [|discriminate].
  intros _. pose proof (strip_prefix_spec p s rest E) as ->.
  destruct (p ++ rest) eqn:Es; cbn [remove_first]; rewrite E; rewrite <- Es; reflexivity.
Qed.

Lemma startsWith_app (p s : string) : startsWith p (p ++ s) = true.
Proof. unfold startsWith. rewrite strip_prefix_app. reflexivity. Qed.

Lemma insert_save_perm x l : insert_save x l ≡ₚ x :: l.
Proof.
  induction l as [|y l IH]; [reflexivity|]. cbn [insert_save].
  destruct (stamp y <=? stamp x); [reflexivity|].
  rewrite IH. apply Permutation_swap.
Qed.

Lemma sort_saves_perm l : sort_saves l ≡ₚ l.
Proof.
  induction l as [|x l IH]; [reflexivity|]. cbn [sort_saves foldr].
  rewrite insert_save_perm. fold (sort_saves l). rewrite IH. reflexivity.
Qed.

Lemma insert_save_sorted x l : Sorted newest_first l -> Sorted newest_first (insert_save x l).
Proof.
  induction 1 as [|y l Hs IH Hhd]; cbn [insert_save].
  - repeat constructor.
  - destruct (Z.leb_spec (stamp y) (stamp x)) as [Hle|Hgt].
    + constructor; [constructor; assumption|]. constructor. exact Hle.
    + constructor; [exact IH|].
      destruct l as [|z l]; cbn [insert_save].
      * constructor. unfold newest_first. lia.
      * destruct (stamp z <=? stamp x); constructor.
        -- unfold newest_first. lia.
        -- inversion Hhd; assumption.
Qed.

Lemma sort_saves_sorted l : Sorted newest_first (sort_saves l).
Proof.
  induction l as [|x l IH]; [constructor|]. cbn [sort_saves foldr].
  apply insert_save_sorted, IH.
Qed.

Lemma listSaves_elem (keys : list string) (ls : Storage.Store) (slot : string) (data : GameState) :
  lists keys ls ->
  (slot, data) ∈ listSaves keys ls <-> Storage.loadGame slot ls = Some data.
Proof.
  intros Hkeys. unfold listSaves. rewrite sort_saves_perm.
  rewrite list_elem_of_In, in_flat_map. unfold Storage.loadGame. split.
  - intros (key & _ & Hin). apply list_elem_of_In in Hin.
    destruct (negb _ && startsWith Storage.SAVE_PREFIX key) eqn:E.
    2:{ apply elem_of_nil in Hin. contradiction. }
    apply andb_prop in E as [_ E].
    destruct (ls !! key) as [d|] eqn:El.
    2:{ apply elem_of_nil in Hin. contradiction. }
    apply list_elem_of_singleton in Hin. injection Hin as -> ->.
    rewrite (remove_first_prefix _ _ E). exact El.
  - intros Hl. exists (Storage.SAVE_PREFIX ++ slot). split.
    + apply list_elem_of_In, Hkeys; [apply startsWith_app | eauto].
    + apply list_elem_of_In.
      rewrite startsWith_app, bool_decide_eq_false_2 by discriminate. cbn [negb andb].
      rewrite Hl. apply list_elem_of_singleton.
      pose proof (remove_first_prefix Storage.SAVE_PREFIX (Storage.SAVE_PREFIX ++ slot)
                    (startsWith_app _ _)) as E.
      apply String.app_inj in E. rewrite E. reflexivity.
Qed.

(** X17.  [listSaves] lists the saved games newest first, and lists exactly
    the games that [loadGame] loads, each under the slot that loads it. *)
Theorem listSaves_lists_saves (keys : list string) (ls : Storage.Store) :
  lists keys ls ->
  Sorted newest_first (listSaves keys ls) /\
  (forall slot data,
      (slot, data) ∈ listSaves keys ls <-> Storage.loadGame slot ls = Some data).
Proof.
  intros Hkeys. split; [apply sort_saves_sorted|].
  intros slot data. apply listSaves_elem, Hkeys.
Qed.

Lemma lists_one_save : lists ["gitquest:cache_index"; "gitquest:save:slot1"] one_save.
Proof.
  intros key Hs. unfold one_save, Storage.saveGame. split.
  - intros [->|Hin]%elem_of_cons; [vm_compute in Hs; discriminate|].
    apply list_elem_of_singleton in Hin as ->.
    change (Storage.SAVE_PREFIX ++ "slot1") with "gitquest:save:slot1".
    rewrite lookup_insert_eq. eauto.
  - change (Storage.SAVE_PREFIX ++ "slot1") with "gitquest:save:slot1".
    destruct (decide (key = "gitquest:save:slot1")) as [->|Hne].
    + intros _. apply list_elem_of_further, list_elem_of_here.
    + rewrite lookup_insert_ne, lookup_empty by congruence. intros [? ?]. discriminate.
Qed.

Lemma listSaves_lists_saves_witness :
  Sorted newest_first (listSaves ["gitquest:cache_index"; "gitquest:save:slot1"] one_save) /\
  (forall slot data,
      (slot, data) ∈ listSaves ["gitquest:cache_index"; "gitquest:save:slot1"] one_save
      <-> Storage.loadGame slot one_save = Some data).
Proof.
  apply (listSaves_lists_saves ["gitquest:cache_index"; "gitquest:save:slot1"] one_save).
  apply lists_one_save.
Defined.

(** X18.  After [deleteGame(slot)] the list of saves no longer has the
    slot, and has every other slot with the game it had. *)
Theorem deleteGame_unlists (slot : string) (keys keys' : list string) (ls : Storage.Store) :
  lists keys ls -> lists keys' (deleteGame slot ls) ->
  forall slot' data,
    (slot', data) ∈ listSaves keys' (deleteGame slot ls)
    <-> slot' <> slot /\ (slot', data) ∈ listSaves keys ls.
Proof.
  intros Hk Hk' slot' data.
  rewrite (listSaves_elem _ _ _ _ Hk), (listSaves_elem _ _ _ _ Hk').
  unfold Storage.loadGame, deleteGame.
  destruct (decide (slot' = slot)) as [->|Hne].
  - rewrite lookup_delete_eq. split; [discriminate | tauto].
  - rewrite lookup_delete_ne; [tauto|].
    intros E%String.app_inj. congruence.
Qed.

Lemma lists_none : lists ["gitquest:cache_index"] (deleteGame "slot1" one_save).
Proof.
  intros key Hs. unfold one_save, deleteGame, Storage.saveGame. split.
  - intros Hin. apply list_elem_of_singleton in Hin as ->. vm_compute in Hs. discriminate.
  - rewrite delete_insert_eq, delete_empty, lookup_empty. intros [? ?]. discriminate.
Qed.

Lemma deleteGame_unlists_witness :
  ("slot1", game_of started) ∈ listSaves ["gitquest:cache_index"] (deleteGame "slot1" one_save)
  <-> "slot1" <> "slot1" /\
      ("slot1", game_of started)
        ∈ listSaves ["gitquest:cache_index"; "gitquest:save:slot1"] one_save.
Proof.
  apply (deleteGame_unlists "slot1" ["gitquest:cache_index"; "gitquest:save:slot1"]
           ["gitquest:cache_index"] one_save).
  - apply lists_one_save.
  - apply lists_none.
Defined.

End SavesProps.

(** ** The settings *)

Section SettingsProps.
Import Settings.

(** X19.  [saveSettings] merges the settings it is given into the stored
    ones: a setting that is given is then read as JSON gives it back (the
    default standing in for [null], [undefined] removing the setting), and a
    setting that is not given is read as before. *)
Theorem saveSettings_merges (settings : gmap string Value) (it : Item)
        (key : string) (d : Value) :
  json_item it ->
  json_item (saveSettings settings it) /\
  getSetting key d (saveSettings settings it) =
  match settings !! key with
  | Some Undefined => getSetting key d Absent
  | Some v => Some (nullish_or (Json.roundtrip v) d)
  | None => getSetting key d it
  end.
Proof.
  intros Hj. split.
  - intros k v. unfold saveSettings, getSettings at 1, json_object.
    rewrite lookup_omap. destruct ((settings ∪ getSettings it) !! k) as [w|]; [|discriminate].
    intros Hw.
    assert (H : w <> Undefined /\ v = Json.roundtrip w).
    { cbn in Hw.
      destruct w; (discriminate || (injection Hw as <-; split; [discriminate|reflexivity])). }
    destruct H as [Hu ->].
    split; [apply roundtrip_not_undefined, Hu | apply roundtrip_idem].
  - unfold getSetting, saveSettings, getSettings at 1, json_object.
    rewrite lookup_omap, lookup_union.
    destruct (settings !! key) as [v|] eqn:Es.
    + rewrite union_Some_l. cbn. destruct v; try reflexivity.
    + rewrite (left_id None _). destruct (getSettings it !! key) as [v|] eqn:Ei; [|reflexivity].
      destruct (Hj key v Ei) as [Hu Hr]. cbn.
      destruct v; try congruence; cbn; rewrite ?Hr; reflexivity.
Qed.

Lemma saveSettings_merges_witness :
  json_item (saveSettings {["lastStyle" := Str "scifi"]} Absent) /\
  getSetting "lastStyle" (Str "dnd") (saveSettings {["lastStyle" := Str "scifi"]} Absent)
  = Some (Str "scifi").
Proof.
  assert (H : json_item Absent) by (intros k v; cbn; rewrite lookup_empty; discriminate).
  pose proof (saveSettings_merges {["lastStyle" := Str "scifi"]} Absent "lastStyle"
                (Str "dnd") H) as W.
  rewrite lookup_singleton_eq in W. exact W.
Defined.

End SettingsProps.

(** ** The cache *)

Section CacheProps.
Import Cache.

Lemma removeItems_entries (ks : list string) (b : Browser) (k : string) :
  entries (fold_left (fun b k => removeItem k b) ks b) !! k =
  if decide (k ∈ ks) then None else entries b !! k.
Proof.
  revert b. induction ks as [|k0 ks IH]; intros b; cbn [fold_left].
  - destruct (decide (k ∈ [])) as [H|H]; [inversion H | reflexivity].
  - rewrite IH. unfold removeItem, with_entries; cbn [entries].
    destruct (decide (k = k0)) as [->|Hne].
    + rewrite lookup_delete_eq.
      rewrite (decide_True (P := k0 ∈ k0 :: ks)) by left.
      destruct (decide (k0 ∈ ks)); reflexivity.
    + rewrite lookup_delete_ne by congruence.
      destruct (decide (k ∈ ks)) as [H|H].
      * rewrite decide_True by (right; exact H). reflexivity.
      * rewrite decide_False; [reflexivity|].
        intros [?|?]%elem_of_cons; congruence.
Qed.

Lemma removeItems_rest (ks : list string) (b : Browser) :
  let b' := fold_left (fun b k => removeItem k b) ks b in
  index b' = index b /\ room b' = room b /\ writes b' = writes b.
Proof.
  revert b. induction ks as [|k0 ks IH]; intros b; cbn [fold_left]; [auto|].
  destruct (IH (removeItem k0 b)) as (-> & -> & ->). auto.
Qed.

Lemma pushed_NoDup (key : string) (b : Browser) :
  NoDup (_getCacheIndex b) -> NoDup (pushed key b).
Proof.
  intros H. apply NoDup_cons. split.
  - rewrite list_elem_of_filter. intros [Hne _]. congruence.
  - apply NoDup_filter, H.
Qed.

Lemma updateCacheIndex_room (key : string) (b : Browser) :
  room b (writes b) = true ->
  let b' := snd (_updateCacheIndex key b) in
  fst (_updateCacheIndex key b) = true /\
  index b' = Some (Parsed (take MAX_CACHE (pushed key b))) /\
  room b' = room b /\ writes b' = S (writes b) /\
  forall k, entries b' !! k =
            if decide (k ∈ drop MAX_CACHE (pushed key b)) then None else entries b !! k.
Proof.
  intros H. unfold _updateCacheIndex, setItem. fold (pushed key b).
  pose proof (removeItems_rest (drop MAX_CACHE (pushed key b)) b) as (Ei & Er & Ew).
  pose proof (removeItems_entries (drop MAX_CACHE (pushed key b)) b) as Ee.
  rewrite Er, Ew, H. cbn [fst snd with_index entries index room writes].
  repeat split; try assumption.
Qed.

Lemma updateCacheIndex_full (key : string) (b : Browser) :
  room b (writes b) = false ->
  let b' := snd (_updateCacheIndex key b) in
  fst (_updateCacheIndex key b) = false /\
  index b' = index b /\ room b' = room b /\ writes b' = S (writes b) /\
  forall k, entries b' !! k =
            if decide (k ∈ drop MAX_CACHE (pushed key b)) then None else entries b !! k.
Proof.
  intros H. unfold _updateCacheIndex, setItem. fold (pushed key b).
  pose proof (removeItems_rest (drop MAX_CACHE (pushed key b)) b) as (Ei & Er & Ew).
  pose proof (removeItems_entries (drop MAX_CACHE (pushed key b)) b) as Ee.
  rewrite Er, Ew, H. cbn [fst snd with_index entries index room writes].
  repeat split; try assumption.
Qed.

Lemma setCache_stored (key : string) (v : Value) (ttlMs now : Z) (b : Browser) :
  room b (writes b) = true ->
  setCache key v ttlMs now b =
  (if fst (_updateCacheIndex key (stored key v (now + ttlMs) b))
   then snd (_updateCacheIndex key (stored key v (now + ttlMs) b))
   else clearAllCache (snd (_updateCacheIndex key (stored key v (now + ttlMs) b)))).
Proof.
  intros H. unfold setCache, setItem at 1. rewrite H.
  change (with_entries _ _) with (stored key v (now + ttlMs) b).
  destruct (_updateCacheIndex key (stored key v (now + ttlMs) b)) as [[] b2]; reflexivity.
Qed.

Lemma setCache_room (key : string) (v : Value) (ttlMs now : Z) (b : Browser) :
  room b (writes b) = true -> room b (S (writes b)) = true ->
  let b' := setCache key v ttlMs now b in
  _getCacheIndex b' = take MAX_CACHE (pushed key b) /\
  room b' = room b /\ writes b' = S (S (writes b)) /\
  forall k, entries b' !! k =
            if decide (k ∈ drop MAX_CACHE (pushed key b)) then None
            else <[key := Parsed (mkCached (Json.roundtrip v) (now + ttlMs))]> (entries b) !! k.
Proof.
  intros H1 H2. cbv zeta. rewrite (setCache_stored _ _ _ _ _ H1).
  destruct (updateCacheIndex_room key (stored key v (now + ttlMs) b) H2)
    as (-> & Ei & Er & Ew & Ee).
  unfold _getCacheIndex. rewrite Ei. repeat split; try assumption.
Qed.

Lemma deleteCache_spec (key : string) (b : Browser) :
  let b' := snd (deleteCache key b) in
  entries b' = delete key (entries b) /\ room b' = room b /\ writes b' = S (writes b) /\
  _getCacheIndex b' = if room b (writes b) then filter (fun k => k <> key) (_getCacheIndex b)
                      else _getCacheIndex b.
Proof.
  unfold deleteCache, _removeFromCacheIndex, setItem, removeItem, with_entries.
  cbn [entries index room writes]. destruct (room b (writes b)); cbn; auto.
Qed.

Lemma clearAllCache_spec (b : Browser) :
  let b' := clearAllCache b in
  _getCacheIndex b' = [] /\ room b' = room b /\ writes b' = writes b /\
  forall k, entries b' !! k = if decide (k ∈ _getCacheIndex b) then None else entries b !! k.
Proof.
  unfold clearAllCache.
  pose proof (removeItems_rest (_getCacheIndex b) b) as (Ei & Er & Ew).
  pose proof (removeItems_entries (_getCacheIndex b) b) as Ee.
  cbn [with_index entries index room writes _getCacheIndex]. auto.
Qed.

Lemma tidy_clearAllCache (b : Browser) : tidy b -> tidy (clearAllCache b).
Proof.
  intros [Hn Hl Hi]. destruct (clearAllCache_spec b) as (Ei & _ & _ & Ee).
  constructor; rewrite ?Ei.
  - apply NoDup_nil_2.
  - cbn; lia.
  - intros k. rewrite Ee. destruct (decide (k ∈ _getCacheIndex b)) as [H|H].
    + intros [? ?]; discriminate.
    + intros Hk. destruct (H (Hi k Hk)).
Qed.

Lemma tidy_deleteCache (key : string) (b : Browser) : tidy b -> tidy (snd (deleteCache key b)).
Proof.
  intros [Hn Hl Hi]. destruct (deleteCache_spec key b) as (Ee & _ & _ & Ei).
  destruct (room b (writes b)) eqn:Hr;
    constructor; rewrite ?Ei, ?Ee.
  - apply NoDup_filter, Hn.
  - pose proof (length_filter (fun k => k <> key) (_getCacheIndex b)). lia.
  - intros k Hk. apply list_elem_of_filter.
    destruct (decide (k = key)) as [->|Hne].
    + rewrite lookup_delete_eq in Hk. destruct Hk; discriminate.
    + rewrite lookup_delete_ne in Hk by congruence. auto.
  - exact Hn.
  - exact Hl.
  - intros k Hk. apply Hi.
    destruct (decide (k = key)) as [->|Hne].
    + rewrite lookup_delete_eq in Hk. destruct Hk; discriminate.
    + rewrite lookup_delete_ne in Hk by congruence. auto.
Qed.

Lemma tidy_getCache (key : string) (now : Z) (b : Browser) :
  tidy b -> tidy (snd (getCache key now b)).
Proof.
  intros H. unfold getCache.
  destruct (entries b !! key) as [[|e]|]; try exact H.
  destruct (expires e <? now); [apply tidy_deleteCache, H | exact H].
Qed.

Lemma pushed_split (key : string) (b : Browser) (k : string) :
  k ∈ pushed key b -> k ∉ drop MAX_CACHE (pushed key b) -> k ∈ take MAX_CACHE (pushed key b).
Proof.
  intros Hin Hout. rewrite <- (take_drop MAX_CACHE (pushed key b)) in Hin.
  apply elem_of_app in Hin as [?|?]; [assumption | contradiction].
Qed.

Lemma tidy_setCache (key : string) (v : Value) (ttlMs now : Z) (b : Browser) :
  room b (writes b) = true -> room b (S (writes b)) = true ->
  tidy b -> tidy (setCache key v ttlMs now b).
Proof.
  intros H1 H2 [Hn Hl Hi].
  destruct (setCache_room key v ttlMs now b H1 H2) as (Ei & _ & _ & Ee).
  constructor; rewrite ?Ei.
  - eapply sublist_NoDup; [apply pushed_NoDup, Hn | apply sublist_take].
  - rewrite length_take. lia.
  - intros k. rewrite Ee.
    destruct (decide (k ∈ drop MAX_CACHE (pushed key b))) as [H|H].
    + intros [? ?]; discriminate.
    + intros Hk. apply pushed_split; [|exact H].
      destruct (decide (k = key)) as [->|Hne]; [left|].
      rewrite lookup_insert_ne in Hk by congruence.
      right. apply list_elem_of_filter. auto.
Qed.

Lemma use_room (u : Use) (b : Browser) : never_full b -> never_full (use u b).
Proof.
  intros H n. destruct u as [key v ttl now|key now|key|]; cbn [use].
  - destruct (setCache_room key v ttl now b (H _) (H _)) as (_ & -> & _). apply H.
  - unfold getCache. destruct (entries b !! key) as [[|e]|]; cbn [snd]; try apply H.
    destruct (expires e <? now); cbn [snd]; [|apply H].
    destruct (deleteCache_spec key b) as (_ & -> & _). apply H.
  - destruct (deleteCache_spec key b) as (_ & -> & _). apply H.
  - destruct (clearAllCache_spec b) as (_ & -> & _). apply H.
Qed.

Lemma use_tidy (u : Use) (b : Browser) : never_full b -> tidy b -> tidy (use u b).
Proof.
  intros Hr H. destruct u as [key v ttl now|key now|key|]; cbn [use].
  - apply tidy_setCache; auto.
  - apply tidy_getCache, H.
  - apply tidy_deleteCache, H.
  - apply tidy_clearAllCache, H.
Qed.

Lemma tidy_size (b : Browser) : tidy b -> (size (entries b) <= MAX_CACHE)%nat.
Proof.
  intros [Hn Hl Hi].
  rewrite <- (size_dom (D := gset string)).
  etransitivity; [|exact Hl].
  rewrite <- (size_list_to_set (C := gset string) _ Hn).
  apply subseteq_size. intros k Hk. apply elem_of_list_to_set, Hi.
  apply elem_of_dom in Hk. exact Hk.
Qed.

Lemma tidy_empty (room : nat -> bool) : tidy (Cache.empty room).
Proof.
  constructor; cbn.
  - apply NoDup_nil_2.
  - lia.
  - intros k. rewrite lookup_empty. intros [? ?]; discriminate.
Qed.

(** X20.  Whatever is done with the cache, as long as the browser finds
    room for what is written, the index lists every stored entry, once, and
    the cache holds at most ten entries. *)
Theorem cache_holds_at_most_ten (uses : list Use) (b : Browser) :
  never_full b -> tidy b ->
  let b' := fold_left (fun b u => use u b) uses b in
  tidy b' /\ (size (entries b') <= 10)%nat.
Proof.
  intros Hr Ht. cbv zeta.
  assert (H : never_full (fold_left (fun b u => use u b) uses b) /\
              tidy (fold_left (fun b u => use u b) uses b)).
  { revert b Hr Ht. induction uses as [|u uses IH]; intros b Hr Ht; cbn [fold_left]; [auto|].
    apply IH; [apply use_room, Hr | apply use_tidy; assumption]. }
  split; [apply H | apply tidy_size, H].
Qed.

Lemma cache_holds_at_most_ten_witness :
  let b' := fold_left (fun b u => use u b)
              [SetCache "a" (Int 1) 1000 0; GetCache "a" 2000; SetCache "b" Null 5 5]
              (Cache.empty (fun _ => true)) in
  tidy b' /\ (size (entries b') <= 10)%nat.
Proof.
  apply (cache_holds_at_most_ten _ (Cache.empty (fun _ => true))).
  - intros n. reflexivity.
  - apply tidy_empty.
Defined.

(** X21.  A value put in the cache is read back, as JSON gives it back,
    up to and including the instant it expires, and reading it changes
    nothing; read after that instant it is gone, for that reading and for
    every later one. *)
Theorem cache_round_trip (key : string) (v : Value) (ttlMs now later : Z) (b : Browser) :
  room b (writes b) = true -> room b (S (writes b)) = true ->
  let b' := setCache key v ttlMs now b in
  (later <= now + ttlMs -> getCache key later b' = (Json.roundtrip v, b')) /\
  (now + ttlMs < later ->
   fst (getCache key later b') = Null /\
   forall t, fst (getCache key t (snd (getCache key later b'))) = Null).
Proof.
  intros H1 H2. cbv zeta.
  destruct (setCache_room key v ttlMs now b H1 H2) as (Ei & _ & _ & Ee).
  assert (E : entries (setCache key v ttlMs now b) !! key
              = Some (Parsed (mkCached (Json.roundtrip v) (now + ttlMs)))).
  { rewrite Ee, lookup_insert_eq. rewrite decide_False; [reflexivity|].
    change MAX_CACHE with (S 9). unfold pushed. cbn [drop].
    intros Hin. apply (subseteq_drop 9), list_elem_of_filter in Hin.
    destruct Hin; congruence. }
  split; intros Hl; unfold getCache at 1; rewrite E; cbn [expires value].
  - rewrite (proj2 (Z.ltb_ge _ _)) by lia. reflexivity.
  - rewrite (proj2 (Z.ltb_lt _ _)) at 1 by lia. split; [reflexivity|].
    intros t. unfold getCache at 2. rewrite E; cbn [expires value].
    rewrite (proj2 (Z.ltb_lt _ _)) by lia. cbn [snd].
    unfold getCache. destruct (deleteCache_spec key (setCache key v ttlMs now b)) as (-> & _).
    rewrite lookup_delete_eq. reflexivity.
Qed.

Lemma cache_round_trip_witness :
  let b' := setCache "commits" (Arr [Int 1; Undefined]) 3600000 1000
                     (Cache.empty (fun _ => true)) in
  (3601000 <= 1000 + 3600000 -> getCache "commits" 3601000 b' = (Arr [Int 1; Null], b')) /\
  (1000 + 3600000 < 3601000 ->
   fst (getCache "commits" 3601000 b') = Null /\
   forall t, fst (getCache "commits" t (snd (getCache "commits" 3601000 b'))) = Null).
Proof.
  apply (cache_round_trip "commits" (Arr [Int 1; Undefined]) 3600000 1000 3601000
           (Cache.empty (fun _ => true))); reflexivity.
Defined.

Lemma filter_all {A : Type} (P : A -> Prop) `{forall x, Decision (P x)} (l : list A) :
  Forall P l -> filter P l = l.
Proof.
  induction 1 as [|x l Hx Hl IH]; [reflexivity|].
  rewrite filter_cons_True by exact Hx. f_equal. exact IH.
Qed.

Lemma pushed_behind (key k : string) (front rest : list string) (b : Browser) :
  _getCacheIndex b = (front ++ key :: rest)%list -> k ∉ front -> k <> key ->
  pushed k b = ((k :: front) ++ key :: filter (fun x => x <> k) rest)%list.
Proof.
  intros E Hf Hk. unfold pushed. rewrite E, filter_app, filter_cons_True by congruence.
  rewrite filter_all; [reflexivity|].
  apply Forall_forall. intros x Hx ->. contradiction.
Qed.

Lemma setCache_pushes_back (key k : string) (v : Value) (ttlMs now : Z)
      (front rest : list string) (b : Browser) :
  never_full b -> NoDup (_getCacheIndex b) ->
  _getCacheIndex b = (front ++ key :: rest)%list -> k ∉ front -> k <> key ->
  let b' := setCache k v ttlMs now b in
  never_full b' /\ NoDup (_getCacheIndex b') /\
  if decide (length front < 9)%nat
  then (exists rest', _getCacheIndex b' = ((k :: front) ++ key :: rest')%list) /\
       entries b' !! key = entries b !! key
  else entries b' !! key = None.
Proof.
  intros Hr Hn E Hf Hk. cbv zeta.
  destruct (setCache_room k v ttlMs now b (Hr _) (Hr _)) as (Ei & Er & _ & Ee).
  pose proof (pushed_behind key k front rest b E Hf Hk) as Ep.
  split; [intros n; rewrite Er; apply Hr|].
  split; [rewrite Ei; eapply sublist_NoDup; [apply pushed_NoDup, Hn | apply sublist_take]|].
  rewrite Ei, Ee, Ep, lookup_insert_ne by congruence.
  assert (Hrest : key ∉ filter (fun x => x <> k) rest).
  { rewrite E in Hn. apply NoDup_app in Hn as (_ & _ & Hn).
    apply NoDup_cons in Hn as [Hn _]. rewrite list_elem_of_filter. tauto. }
  unfold MAX_CACHE. destruct (decide (length front < 9)%nat) as [Hl|Hl].
  - split.
    + rewrite take_app, take_ge by (cbn [length]; lia).
      cbn [length]. destruct (10 - S (length front))%nat as [|m] eqn:Em; [lia|].
      cbn [take]. eauto.
    + rewrite decide_False; [reflexivity|].
      rewrite drop_app, drop_ge by (cbn [length]; lia).
      cbn [length]. destruct (10 - S (length front))%nat as [|m] eqn:Em; [lia|].
      cbn [drop app]. intros Hin. apply Hrest. eapply subseteq_drop, Hin.
  - rewrite decide_True; [reflexivity|].
    apply (list_elem_of_lookup_2 _ (S (length front) - 10)).
    rewrite lookup_drop.
    replace (10 + (S (length front) - 10))%nat with (length (k :: front)) by (cbn [length]; lia).
    apply list_lookup_middle. reflexivity.
Qed.

Lemma setCache_keeps_gone (key k : string) (v : Value) (ttlMs now : Z) (b : Browser) :
  never_full b -> NoDup (_getCacheIndex b) -> k <> key -> entries b !! key = None ->
  let b' := setCache k v ttlMs now b in
  never_full b' /\ NoDup (_getCacheIndex b') /\ entries b' !! key = None.
Proof.
  intros Hr Hn Hk E. cbv zeta.
  destruct (setCache_room k v ttlMs now b (Hr _) (Hr _)) as (Ei & Er & _ & Ee).
  split; [intros n; rewrite Er; apply Hr|].
  split; [rewrite Ei; eapply sublist_NoDup; [apply pushed_NoDup, Hn | apply sublist_take]|].
  rewrite Ee, lookup_insert_ne by congruence.
  destruct (decide _); [reflexivity | exact E].
Qed.

Lemma set_each_gone (key : string) (items : list (string * Value * Z * Z)) :
  forall b : Browser,
  never_full b -> NoDup (_getCacheIndex b) ->
  (forall i, i ∈ items -> i.1.1.1 <> key) ->
  entries b !! key = None ->
  entries (set_each items b) !! key = None.
Proof.
  induction items as [|[[[k v] ttl] now] items IH]; intros b Hr Hn Hi He; [exact He|].
  unfold set_each; cbn [fold_left fst snd].
  destruct (setCache_keeps_gone key k v ttl now b Hr Hn) as (Hr' & Hn' & He'); auto.
  { apply (Hi (k, v, ttl, now)). left. }
  apply IH; auto. intros i Hin. apply Hi. right. exact Hin.
Qed.

Lemma set_each_behind (key : string) (e : Read Entry) (items : list (string * Value * Z * Z)) :
  forall (front rest : list string) (b : Browser),
  never_full b -> NoDup (_getCacheIndex b) ->
  _getCacheIndex b = (front ++ key :: rest)%list -> (length front < 10)%nat ->
  NoDup (List.map (fun i => i.1.1.1) items) ->
  (forall i, i ∈ items -> i.1.1.1 <> key /\ i.1.1.1 ∉ front) ->
  entries b !! key = Some e ->
  entries (set_each items b) !! key =
  if decide (length front + length items < 10)%nat then Some e else None.
Proof.
  induction items as [|[[[k v] ttl] now] items IH]; intros front rest b Hr Hn E Hl Hd Hi He.
  - cbn [set_each fold_left length]. rewrite He, decide_True by lia. reflexivity.
  - unfold set_each; cbn [fold_left fst snd].
    change (fold_left _ items ?b0) with (set_each items b0).
    destruct (Hi (k, v, ttl, now)) as [Hk Hf]; [left|]. cbn [fst snd] in Hk, Hf.
    change (NoDup (k :: List.map (fun i => i.1.1.1) items)) in Hd.
    apply NoDup_cons in Hd as [Hk' Hd].
    pose proof (setCache_pushes_back key k v ttl now front rest b Hr Hn E Hf Hk) as (Hr' & Hn' & H).
    assert (Hi' : forall i, i ∈ items -> i.1.1.1 <> key).
    { intros i Hin. apply Hi. right. exact Hin. }
    destruct (decide (length front < 9)%nat) as [Hlt|Hge].
    + destruct H as [[rest' E'] He'].
      rewrite (IH (k :: front) rest' _ Hr' Hn' E'); cbn [length]; try lia; try assumption.
      * destruct (decide (S (length front) + length items < 10)%nat),
                 (decide (length front + S (length items) < 10)%nat); try lia; reflexivity.
      * intros i Hin. split; [apply Hi'; exact Hin|].
        intros [Heq|Hin']%elem_of_cons.
        -- apply Hk'. rewrite <- Heq.
           apply list_elem_of_In, (in_map (fun i => i.1.1.1)), list_elem_of_In, Hin.
        -- destruct (Hi i) as [_ Hnf]; [right; exact Hin | contradiction].
      * congruence.
    + rewrite decide_False by (cbn [length]; lia).
      apply set_each_gone; assumption.
Qed.

(** X22.  The cache keeps the ten keys written last: an entry is still
    there after up to nine other keys have been written, and is gone once
    ten other keys have been. *)
Theorem cache_keeps_ten_latest_writes (key : string) (v : Value) (ttlMs now : Z)
        (others : list (string * Value * Z * Z)) (b : Browser) :
  never_full b -> NoDup (_getCacheIndex b) ->
  NoDup (key :: List.map (fun i => i.1.1.1) others) ->
  entries (set_each others (setCache key v ttlMs now b)) !! key =
  if decide (length others < 10)%nat
  then Some (Parsed (mkCached (Json.roundtrip v) (now + ttlMs)))
  else None.
Proof.
  intros Hr Hn Hd. apply NoDup_cons in Hd as [Hk Hd].
  destruct (setCache_room key v ttlMs now b (Hr _) (Hr _)) as (Ei & Er & _ & Ee).
  rewrite (set_each_behind key (Parsed (mkCached (Json.roundtrip v) (now + ttlMs)))
             others [] (take 9 (filter (fun k => k <> key) (_getCacheIndex b)))).
  - reflexivity.
  - intros n. rewrite Er. apply Hr.
  - rewrite Ei. eapply sublist_NoDup; [apply pushed_NoDup, Hn | apply sublist_take].
  - rewrite Ei. reflexivity.
  - cbn; lia.
  - exact Hd.
  - intros i Hin. split; [|apply not_elem_of_nil].
    intros Heq. apply Hk. rewrite <- Heq.
    apply list_elem_of_In, (in_map (fun i => i.1.1.1)), list_elem_of_In, Hin.
  - rewrite Ee, lookup_insert_eq. rewrite decide_False; [reflexivity|].
    change MAX_CACHE with (S 9). unfold pushed. cbn [drop].
    intros Hin. apply (subseteq_drop 9), list_elem_of_filter in Hin.
    destruct Hin; congruence.
Qed.

Lemma cache_keeps_ten_latest_writes_witness :
  entries (set_each [("1", Null, 5, 0); ("2", Null, 5, 0); ("3", Null, 5, 0); ("4", Null, 5, 0);
                     ("5", Null, 5, 0); ("6", Null, 5, 0); ("7", Null, 5, 0); ("8", Null, 5, 0);
                     ("9", Null, 5, 0); ("10", Null, 5, 0)]
             (setCache "0" (Int 7) 5 0 (Cache.empty (fun _ => true)))) !! "0" = None.
Proof.
  apply (cache_keeps_ten_latest_writes "0" (Int 7) 5 0
           [("1", Null, 5, 0); ("2", Null, 5, 0); ("3", Null, 5, 0); ("4", Null, 5, 0);
            ("5", Null, 5, 0); ("6", Null, 5, 0); ("7", Null, 5, 0); ("8", Null, 5, 0);
            ("9", Null, 5, 0); ("10", Null, 5, 0)] (Cache.empty (fun _ => true))).
  - intros n. reflexivity.
  - apply NoDup_nil_2.
  - apply (bool_decide_unpack _). vm_compute. exact I.
Defined.

(** X23.  When the browser has no room for the entry, [setCache] leaves
    the cache empty.  When it has room for the entry and none for the index,
    the cache is emptied as well, except that an entry written under a key
    that was not in the index stays, unlisted. *)
Theorem setCache_without_room (key : string) (v : Value) (ttlMs now : Z) (b : Browser) :
  tidy b ->
  let b' := setCache key v ttlMs now b in
  (room b (writes b) = false ->
   _getCacheIndex b' = [] /\ forall k, entries b' !! k = None) /\
  (room b (writes b) = true -> room b (S (writes b)) = false ->
   _getCacheIndex b' = [] /\
   forall k, entries b' !! k =
             if decide (k = key /\ key ∉ _getCacheIndex b)
             then Some (Parsed (mkCached (Json.roundtrip v) (now + ttlMs)))
             else None).
Proof.
  intros [Hn Hl Hi]. cbv zeta. split.
  - intros H. unfold setCache, setItem. rewrite H.
    match goal with |- context [clearAllCache ?b0] =>
      destruct (clearAllCache_spec b0) as (Ei & _ & _ & Ee) end.
    split; [exact Ei|]. intros k. rewrite Ee.
    cbn [_getCacheIndex entries index].
    destruct (decide _) as [|Hout]; [reflexivity|].
    destruct (entries b !! k) eqn:Ek; [|reflexivity].
    destruct Hout. apply Hi. rewrite Ek. eauto.
  - intros H1 H2. rewrite (setCache_stored _ _ _ _ _ H1).
    destruct (updateCacheIndex_full key (stored key v (now + ttlMs) b) H2)
      as (-> & Ei & _ & _ & Ee).
    match goal with |- context [clearAllCache ?b0] =>
      destruct (clearAllCache_spec b0) as (Ei' & _ & _ & Ee') end.
    assert (Eg : _getCacheIndex (_updateCacheIndex key (stored key v (now + ttlMs) b)).2
                 = _getCacheIndex b) by (unfold _getCacheIndex; rewrite Ei; reflexivity).
    split; [exact Ei'|]. intros k. rewrite Ee', Ee, Eg.
    change (pushed key (stored key v (now + ttlMs) b)) with (pushed key b).
    cbn [stored entries].
    destruct (decide (k ∈ _getCacheIndex b)) as [Hin|Hout].
    + rewrite decide_False; [reflexivity|]. intros [-> ?]. contradiction.
    + destruct (decide (k = key)) as [->|Hne].
      * rewrite lookup_insert_eq. rewrite (decide_True (P := key = key /\ _)) by auto.
        rewrite decide_False; [reflexivity|].
        change MAX_CACHE with (S 9). unfold pushed. cbn [drop].
        intros Hin. apply (subseteq_drop 9), list_elem_of_filter in Hin.
        destruct Hin; congruence.
      * rewrite lookup_insert_ne by congruence.
        rewrite (decide_False (P := k = key /\ _)) by tauto.
        destruct (decide _); [reflexivity|].
        destruct (entries b !! k) eqn:Ek; [|reflexivity].
        destruct Hout. apply Hi. rewrite Ek. eauto.
Qed.

Lemma setCache_without_room_witness :
  let b := Cache.empty (fun n => match n with O => true | _ => false end) in
  let b' := setCache "repo" (Int 7) 5 0 b in
  (room b (writes b) = false ->
   _getCacheIndex b' = [] /\ forall k, entries b' !! k = None) /\
  (room b (writes b) = true -> room b (S (writes b)) = false ->
   _getCacheIndex b' = [] /\
   forall k, entries b' !! k =
             if decide (k = "repo" /\ "repo" ∉ _getCacheIndex b)
             then Some (Parsed (mkCached (Json.roundtrip (Int 7)) (0 + 5)))
             else None).
Proof.
  apply (setCache_without_room "repo" (Int 7) 5 0
           (Cache.empty (fun n => match n with O => true | _ => false end))).
  apply tidy_empty.
Defined.

End CacheProps.

(** ** The notes of the score *)

Section ScoreProps.
Import Score.

Lemma indexOf_root (r : string) : r ∈ Music.ROOTS -> 0 <= indexOf (Some r) < 12.
Proof.
  intros H. unfold Music.ROOTS in H.
  repeat (apply elem_of_cons in H as [->|H]; [vm_compute; split; congruence|]).
  inversion H.
Qed.

Lemma note_pitch (rootIdx i oct : Z) :
  0 <= rootIdx < 12 -> 0 <= i -> pitch oct (note rootIdx (Some i) oct).
Proof.
  intros Hr Hi. unfold note, JS.rem. cbn [mbind option_bind].
  pose proof (Z.rem_bound_pos (rootIdx + i) 12 ltac:(lia) ltac:(lia)) as Hb.
  unfold Music.at_index. destruct (Z.ltb_spec (Z.rem (rootIdx + i) 12) 0) as [|_]; [lia|].
  destruct (Music.ROOTS !! Z.to_nat (Z.rem (rootIdx + i) 12)) as [name|] eqn:E.
  - exists name. split; [eapply list_elem_of_lookup_2, E | reflexivity].
  - apply lookup_ge_None in E. cbn [length Music.ROOTS] in E. lia.
Qed.

Lemma octaves_range (lo hi oct : Z) : oct ∈ octaves lo hi -> lo <= oct <= hi.
Proof.
  unfold octaves. intros H. apply list_elem_of_In, in_map_iff in H as (i & <- & Hi).
  apply in_seq in Hi. lia.
Qed.

Lemma length_flat_map_const {A B : Type} (f : A -> list B) (n : nat) (l : list A) :
  (forall x, length (f x) = n) -> length (flat_map f l) = (n * length l)%nat.
Proof.
  intros H. induction l as [|x l IH]; cbn [flat_map length]; [lia|].
  rewrite length_app, H, IH. lia.
Qed.

(** X24.  For a root among [ROOTS] and a scale whose intervals are not
    negative, the note pool holds one note per interval and octave of the
    range, and every note is one of the twelve pitch classes followed by an
    octave of the range. *)
Theorem notePool_holds_pitches (r : string) (scale : list Z) (baseOctave lo hi : Z) :
  r ∈ Music.ROOTS -> Forall (fun i => 0 <= i) scale ->
  let pool := buildNotePool (Some r) scale baseOctave (lo, hi) in
  length pool = (length scale * Z.to_nat (hi - lo + 1))%nat /\
  Forall (fun n => exists oct, lo <= oct <= hi /\ pitch oct n) pool.
Proof.
  intros Hr Hs. cbv zeta. unfold buildNotePool. cbn [fst snd]. split.
  - rewrite (length_flat_map_const _ (length scale)) by (intros; apply length_map).
    unfold octaves. rewrite length_map, length_seq. reflexivity.
  - apply Forall_forall. intros n Hn.
    apply list_elem_of_In, in_flat_map in Hn as (oct & Ho & Hn).
    apply in_map_iff in Hn as (i & <- & Hi).
    exists oct. split; [apply octaves_range, list_elem_of_In, Ho|].
    apply note_pitch; [apply indexOf_root, Hr|].
    rewrite Forall_forall in Hs. apply Hs, list_elem_of_In, Hi.
Qed.

Lemma notePool_holds_pitches_witness :
  let pool := buildNotePool (Some "A") (SCALES minor) 4 (3, 5) in
  length pool = (length (SCALES minor) * Z.to_nat (5 - 3 + 1))%nat /\
  Forall (fun n => exists oct, 3 <= oct <= 5 /\ pitch oct n) pool.
Proof.
  apply (notePool_holds_pitches "A" (SCALES minor) 4 3 5).
  - apply (bool_decide_unpack _). vm_compute. exact I.
  - apply (bool_decide_unpack _). vm_compute. exact I.
Defined.

Lemma scale_interval (scale : list Z) (i : Z) :
  Forall (fun i => 0 <= i) scale -> 0 <= i < Z.of_nat (length scale) ->
  exists v, Music.at_index scale i = Some v /\ 0 <= v.
Proof.
  intros Hs Hi. unfold Music.at_index.
  destruct (Z.ltb_spec i 0) as [|_]; [lia|].
  destruct (scale !! Z.to_nat i) as [v|] eqn:E.
  - exists v. split; [reflexivity|].
    rewrite Forall_forall in Hs. eapply Hs, list_elem_of_lookup_2, E.
  - apply lookup_ge_None in E. lia.
Qed.

Lemma chord_pitches (rootIdx octave degree : Z) (scale : list Z) :
  0 <= rootIdx < 12 -> Forall (fun i => 0 <= i) scale ->
  0 <= degree < Z.of_nat (length scale) ->
  Forall (pitch octave)
         (List.map (fun interval => note rootIdx interval octave)
                   [Music.at_index scale degree;
                    Music.at_index scale (JS.rem (degree + 2) (Z.of_nat (length scale)));
                    Music.at_index scale (JS.rem (degree + 4) (Z.of_nat (length scale)))]).
Proof.
  intros Hr Hs Hd. unfold JS.rem.
  pose proof (Z.rem_bound_pos (degree + 2) (Z.of_nat (length scale)) ltac:(lia) ltac:(lia)).
  pose proof (Z.rem_bound_pos (degree + 4) (Z.of_nat (length scale)) ltac:(lia) ltac:(lia)).
  destruct (scale_interval scale degree Hs Hd) as (v1 & -> & ?).
  destruct (scale_interval scale _ Hs H) as (v2 & -> & ?).
  destruct (scale_interval scale _ Hs H0) as (v3 & -> & ?).
  cbn [List.map]. repeat (apply Forall_cons_2; [apply note_pitch; assumption|]).
  apply Forall_nil_2.
Qed.

(** X25.  For a root among [ROOTS] and a scale of at least seven
    intervals, none negative, [buildChords] gives its chord pattern twice,
    six chords for [horror] and eight otherwise, every chord being three
    pitch names of the octave asked for. *)
Theorem chords_hold_pitches (r : string) (scale : list Z) (octave : Z) (style : Style) :
  r ∈ Music.ROOTS -> Forall (fun i => 0 <= i) scale -> (7 <= length scale)%nat ->
  let chords := buildChords (Some r) scale octave style in
  length chords = (if style is horror then 6 else 8)%nat /\
  Forall (fun chord => length chord = 3%nat /\ Forall (pitch octave) chord) chords.
Proof.
  intros Hr Hs Hl. cbv zeta. unfold buildChords.
  pose proof (indexOf_root r Hr) as Hi.
  split; [destruct style; reflexivity|].
  apply Forall_app_2; destruct style; cbn [List.map];
    repeat (apply Forall_cons_2;
            [split; [reflexivity | apply chord_pitches; (assumption || lia)]|]);
    apply Forall_nil_2.
Qed.

Lemma chords_hold_pitches_witness :
  let chords := buildChords (Some "F#") (SCALES diminished) 3 horror in
  length chords = 6%nat /\
  Forall (fun chord => length chord = 3%nat /\ Forall (pitch 3) chord) chords.
Proof.
  apply (chords_hold_pitches "F#" (SCALES diminished) 3 horror).
  - apply (bool_decide_unpack _). vm_compute. exact I.
  - apply (bool_decide_unpack _). vm_compute. exact I.
  - vm_compute. lia.
Defined.

End ScoreProps.

(** ** The history of visits *)

Section HistoryProps.
Import History.

Lemma json_object_idem (m : gmap string Value) :
  Settings.json_object (Settings.json_object m) = Settings.json_object m.
Proof.
  apply map_eq. intros k. unfold Settings.json_object. rewrite !lookup_omap.
  destruct (m !! k) as [v|]; [|reflexivity]. cbn.
  destruct (undefined_or_not v) as [->|Hv]; [reflexivity|].
  assert (E : match v with Undefined => None | _ => Some (Json.roundtrip v) end
              = Some (Json.roundtrip v)) by (destruct v; congruence).
  rewrite E. cbn.
  pose proof (roundtrip_not_undefined v Hv) as Hr.
  rewrite roundtrip_idem. destruct (Json.roundtrip v); congruence.
Qed.

Lemma map_clean (l : list (gmap string Value)) :
  Forall (fun e => Settings.json_object e = e) l -> List.map Settings.json_object l = l.
Proof. induction 1 as [|e l He _ IH]; [reflexivity|]. cbn. rewrite He, IH. reflexivity. Qed.

Lemma take_app_take {A : Type} (l l' : list A) :
  forall n m : nat, (n <= m)%nat -> take n (l ++ take m l') = take n (l ++ l').
Proof.
  induction l as [|x l IH]; intros n m Hnm; cbn [app].
  - rewrite take_take. f_equal. lia.
  - destruct n as [|n]; [reflexivity|]. cbn [take]. f_equal. apply IH. lia.
Qed.

Lemma addToHistory_kept (entry : gmap string Value) (now : Z) (it : Item) :
  kept it ->
  kept (addToHistory entry now it) /\
  getHistory (addToHistory entry now it)
  = take 20 (Settings.json_object (stamped entry now) :: getHistory it).
Proof.
  intros [Hc Hl]. unfold kept, addToHistory. cbn [getHistory].
  assert (E : List.map Settings.json_object (take 20 (stamped entry now :: getHistory it))
              = take 20 (Settings.json_object (stamped entry now) :: getHistory it)).
  { change 20%nat with (S 19). cbn [take List.map]. f_equal.
    apply map_clean, Forall_take, Hc. }
  rewrite E. split; [|reflexivity]. split.
  - apply Forall_take. apply Forall_cons_2; [apply json_object_idem | exact Hc].
  - rewrite length_take. lia.
Qed.

Lemma add_each_kept (calls : list (gmap string Value * Z)) :
  forall it, kept it ->
  kept (add_each calls it) /\
  getHistory (add_each calls it)
  = take 20 (rev (List.map (fun c => Settings.json_object (stamped c.1 c.2)) calls)
               ++ getHistory it)%list.
Proof.
  induction calls as [|[e t] calls IH]; intros it Hk.
  - split; [exact Hk|]. cbn. symmetry. apply take_ge, Hk.
  - unfold add_each; cbn [fold_left fst snd].
    change (fold_left _ calls ?i) with (add_each calls i).
    destruct (addToHistory_kept e t it Hk) as [Hk' E].
    destruct (IH _ Hk') as [Hk'' E']. split; [exact Hk''|].
    rewrite E', E. cbn [List.map rev fst snd].
    rewrite take_app_take by lia. rewrite <- app_assoc. reflexivity.
Qed.

(** X26.  The history keeps the twenty visits added last, the newest first, each
    as JSON reads it back with the time it was added; what was there before
    follows as far as there is room. *)
Theorem history_keeps_twenty_latest (calls : list (gmap string Value * Z)) (it : Item) :
  kept it ->
  getHistory (add_each calls it)
  = take 20 (rev (List.map (fun c => Settings.json_object (stamped c.1 c.2)) calls)
               ++ getHistory it)%list /\
  (length (getHistory (add_each calls it)) <= 20)%nat /\
  kept (add_each calls it).
Proof.
  intros Hk. destruct (add_each_kept calls it Hk) as [Hk' E].
  split; [exact E|]. split; [apply Hk'|exact Hk'].
Qed.

Lemma history_keeps_twenty_latest_witness :
  getHistory (add_each [({["repo" := Str "deno"]}, 7%Z); ({["repo" := Str "ollama"]}, 9%Z)] Unreadable)
  = take 20 (rev (List.map (fun c => Settings.json_object (stamped c.1 c.2))
                           [({["repo" := Str "deno"]}, 7%Z); ({["repo" := Str "ollama"]}, 9%Z)])
               ++ getHistory Unreadable)%list /\
  (length (getHistory (add_each [({["repo" := Str "deno"]}, 7%Z); ({["repo" := Str "ollama"]}, 9%Z)]
                                Unreadable)) <= 20)%nat /\
  kept (add_each [({["repo" := Str "deno"]}, 7%Z); ({["repo" := Str "ollama"]}, 9%Z)] Unreadable).
Proof.
  apply (history_keeps_twenty_latest
           [({["repo" := Str "deno"]}, 7%Z); ({["repo" := Str "ollama"]}, 9%Z)] Unreadable).
  split; [apply Forall_nil_2 | cbn; lia].
Defined.

End HistoryProps.

(** ** The address of the page *)

Section RoutingProps.
Import Response RepoInput Routing.

Lemma split_last (a : string) : no_slash a = true -> split a = [a].
Proof.
  induction a as [|c a IH]; [reflexivity|]. cbn [no_slash split]. intros H.
  apply andb_prop in H as [Hc H]. apply negb_true_iff in Hc. rewrite Hc, (IH H). reflexivity.
Qed.

Lemma split_name (a r : string) :
  no_slash a = true -> split (a ++ String "/" r) = a :: split r.
Proof.
  induction a as [|c a IH]; [reflexivity|]. cbn [no_slash]. intros H.
  apply andb_prop in H as [Hc H]. apply negb_true_iff in Hc.
  rewrite append_cons. cbn [split]. rewrite Hc, (IH H). reflexivity.
Qed.

Lemma parts_two (o p : string) :
  name_like o -> name_like p -> parts ("/" ++ o ++ "/" ++ p) = [o; p].
Proof.
  intros [Ho1 Ho2] [Hp1 Hp2]. unfold parts.
  change (drop_first_slash ("/" ++ o ++ "/" ++ p)) with (o ++ "/" ++ p).
  rewrite (drop_final_slash_app o) by discriminate.
  rewrite (drop_final_slash_app "/" p Hp1), (no_slash_drop p Hp2).
  change (o ++ "/" ++ p) with (o ++ String "/" p).
  rewrite (split_name o p Ho2), (split_last p Hp2).
  rewrite filter_cons_True by exact Ho1. rewrite filter_cons_True by exact Hp1. reflexivity.
Qed.

Lemma parts_three (o p st : string) :
  name_like o -> name_like p -> name_like st ->
  parts ("/" ++ o ++ "/" ++ p ++ "/" ++ st) = [o; p; st].
Proof.
  intros [Ho1 Ho2] [Hp1 Hp2] [Hs1 Hs2]. unfold parts.
  change (drop_first_slash ("/" ++ o ++ "/" ++ p ++ "/" ++ st))
    with (o ++ "/" ++ p ++ "/" ++ st).
  rewrite (drop_final_slash_app o) by discriminate.
  rewrite (drop_final_slash_app "/") by (destruct p; discriminate).
  rewrite (drop_final_slash_app p) by discriminate.
  rewrite (drop_final_slash_app "/" st Hs1), (no_slash_drop st Hs2).
  change (o ++ "/" ++ p ++ "/" ++ st) with (o ++ String "/" (p ++ String "/" st)).
  rewrite (split_name o _ Ho2), (split_name p _ Hp2), (split_last st Hs2).
  rewrite !filter_cons_True by assumption. reflexivity.
Qed.

Lemma startWithRepo_short (o p : string) (autoStyle : option string) :
  name_like o -> name_like p -> Github.trim_start o = o -> trim_end p = p ->
  startWithRepo (o ++ "/" ++ p) autoStyle
  = match autoStyle with
    | Some st => if bool_decide (st = "") then ChooseStyle (mkRepo o p) else Begin (mkRepo o p) st
    | None => ChooseStyle (mkRepo o p)
    end.
Proof.
  intros Ho Hp Hos Hpe. unfold startWithRepo, parseRepoInput.
  rewrite (short_form_kept o p Ho Hp Hos Hpe).
  destruct (short_form_matches o p Ho Hp) as [-> ->]. reflexivity.
Qed.

Lemma unreserved_plain (c : ascii) :
  unreserved c = true -> is_slash c = false /\ Github.is_space c = false.
Proof.
  destruct c as [[] [] [] [] [] [] [] []]; intros H; vm_compute in H; try discriminate H;
    split; vm_compute; reflexivity.
Qed.

Lemma unreserved_no_slash (a : string) : unreserved_only a = true -> no_slash a = true.
Proof.
  induction a as [|c a IH]; [reflexivity|]. cbn [unreserved_only no_slash]. intros H.
  apply andb_prop in H as [Hc H].
  rewrite (proj1 (unreserved_plain c Hc)), (IH H). reflexivity.
Qed.

Lemma unreserved_trim_start (a : string) :
  unreserved_only a = true -> Github.trim_start a = a.
Proof.
  destruct a as [|c a]; [reflexivity|]. cbn [unreserved_only Github.trim_start]. intros H.
  apply andb_prop in H as [Hc _].
  rewrite (proj2 (unreserved_plain c Hc)). reflexivity.
Qed.

Lemma unreserved_trim_end (a : string) : unreserved_only a = true -> trim_end a = a.
Proof.
  induction a as [|c a IH]; [reflexivity|]. cbn [unreserved_only trim_end]. intros H.
  apply andb_prop in H as [Hc H]. rewrite (IH H).
  destruct a; [|reflexivity].
  rewrite (proj2 (unreserved_plain c Hc)). reflexivity.
Qed.

Lemma kept_segment_unreserved (a : string) :
  kept_segment a = true -> unreserved_only a = true.
Proof.
  unfold kept_segment. intros H.
  apply andb_prop in H as [H _]. apply andb_prop in H as [H _]. exact H.
Qed.

(** X27.  The address that [pushURL] writes leads back: read by
    [handleURLRouting], the path of an owner and a repository shows the
    style screen for that repository, the path with one of the three styles
    begins the adventure in that style, and with anything else in the place
    of the style it shows the style screen.  This is for names and styles
    that [window.location.pathname] gives back as [pushState] received
    them: made of ASCII letters, digits, [-], [.], [_] and [~], and neither
    [.] nor [..]. *)
Theorem pushed_address_leads_back (o p : string) (style : option string) :
  o <> "" -> p <> "" -> kept_segment o = true -> kept_segment p = true ->
  (forall st, style = Some st -> kept_segment st = true) ->
  handleURLRouting (pushURL o p style)
  = match style with
    | Some st => if bool_decide (st ∈ STYLES) then Begin (mkRepo o p) st
                 else ChooseStyle (mkRepo o p)
    | None => ChooseStyle (mkRepo o p)
    end.
Proof.
  intros Ho0 Hp0 Hok Hpk Hst.
  apply kept_segment_unreserved in Hok, Hpk.
  assert (Ho : name_like o) by (split; [exact Ho0|apply unreserved_no_slash, Hok]).
  assert (Hp : name_like p) by (split; [exact Hp0|apply unreserved_no_slash, Hpk]).
  pose proof (unreserved_trim_start o Hok) as Hos.
  pose proof (unreserved_trim_end p Hpk) as Hpe.
  unfold handleURLRouting, pushURL.
  destruct style as [st|].
  - destruct (bool_decide (st = "")) eqn:E.
    + apply bool_decide_eq_true in E. subst st.
      rewrite (parts_two o p Ho Hp). cbn [head].
      rewrite (startWithRepo_short o p None Ho Hp Hos Hpe).
      rewrite bool_decide_eq_false_2; [reflexivity|].
      unfold STYLES. intros H.
      repeat (apply elem_of_cons in H as [H|H]; [discriminate|]). inversion H.
    + apply bool_decide_eq_false in E.
      assert (Hs : name_like st).
      { split; [exact E|]. apply unreserved_no_slash, kept_segment_unreserved, Hst.
        reflexivity. }
      rewrite (parts_three o p st Ho Hp Hs). cbn [head].
      destruct (bool_decide (st ∈ STYLES)).
      * rewrite (startWithRepo_short o p (Some st) Ho Hp Hos Hpe).
        rewrite bool_decide_eq_false_2 by exact E. reflexivity.
      * apply (startWithRepo_short o p None Ho Hp Hos Hpe).
  - rewrite (parts_two o p Ho Hp). cbn [head].
    apply (startWithRepo_short o p None Ho Hp Hos Hpe).
Qed.

Lemma pushed_address_leads_back_witness :
  handleURLRouting (pushURL "denoland" "deno" (Some "scifi"))
  = Begin (mkRepo "denoland" "deno") "scifi" /\
  handleURLRouting (pushURL "YogliB" "git-quest_2.js" (Some "noir"))
  = ChooseStyle (mkRepo "YogliB" "git-quest_2.js").
Proof.
  split.
  - apply (pushed_address_leads_back "denoland" "deno" (Some "scifi"));
      try discriminate; try reflexivity.
    intros st [= <-]. reflexivity.
  - apply (pushed_address_leads_back "YogliB" "git-quest_2.js" (Some "noir"));
      try discriminate; try reflexivity.
    intros st [= <-]. reflexivity.
Defined.

(** A path with fewer than two segments shows the landing screen, whatever
    slashes it holds. *)
Example landing_paths :
  handleURLRouting "/" = Landing /\ handleURLRouting "" = Landing /\
  handleURLRouting "//denoland//" = Landing /\
  handleURLRouting "/denoland//deno/horror/x" = Begin (mkRepo "denoland" "deno") "horror".
Proof. vm_compute. auto. Qed.

End RoutingProps.

(** ** The text of a commit *)

Section CommitTextProps.
Import Response CommitText.

Lemma split_lines_last (a : string) : one_line a = true -> split_lines a = [a].
Proof.
  induction a as [|c a IH]; [reflexivity|]. cbn [one_line split_lines]. intros H.
  apply andb_prop in H as [Hc H]. apply negb_true_iff in Hc. rewrite Hc, (IH H). reflexivity.
Qed.

Lemma split_lines_line (a r : string) :
  one_line a = true -> split_lines (a ++ nl ++ r) = a :: split_lines r.
Proof.
  induction a as [|c a IH].
  - intros _. change ("" ++ nl ++ r) with (String LF r). cbn [split_lines].
    rewrite bool_decide_eq_true_2 by reflexivity. reflexivity.
  - cbn [one_line]. intros H. apply andb_prop in H as [Hc H]. apply negb_true_iff in Hc.
    rewrite append_cons. cbn [split_lines]. rewrite Hc, (IH H). reflexivity.
Qed.

Lemma split_lines_cons (s : string) : exists x xs, split_lines s = x :: xs.
Proof.
  induction s as [|c s (x & xs & E)]; cbn [split_lines]; [eauto|].
  destruct (bool_decide (c = LF)); [eauto|]. rewrite E. eauto.
Qed.

Lemma join_split (s : string) : join_lines (split_lines s) = s.
Proof.
  induction s as [|c s IH]; [reflexivity|]. cbn [split_lines].
  destruct (bool_decide (c = LF)) eqn:Ec.
  - apply bool_decide_eq_true in Ec. subst c.
    destruct (split_lines_cons s) as (x & xs & E). rewrite E in *.
    change (join_lines ("" :: x :: xs)) with ("" ++ nl ++ join_lines (x :: xs)).
    rewrite IH. reflexivity.
  - destruct (split_lines_cons s) as (x & xs & E). rewrite E in *.
    destruct xs as [|y ys].
    + cbn [join_lines] in *. rewrite IH. reflexivity.
    + change (join_lines (String c x :: y :: ys))
        with (String c (x ++ nl ++ join_lines (y :: ys))).
      change (join_lines (x :: y :: ys)) with (x ++ nl ++ join_lines (y :: ys)) in IH.
      rewrite IH. reflexivity.
Qed.

Lemma one_line_head (s : string) :
  one_line (default "" (head (split_lines s))) = true.
Proof.
  induction s as [|c s IH]; [reflexivity|]. cbn [split_lines].
  destruct (bool_decide (c = LF)) eqn:Ec; [reflexivity|].
  destruct (split_lines_cons s) as (x & xs & E). rewrite E in *.
  change (one_line x = true) in IH.
  change (negb (bool_decide (c = LF)) && one_line x = true).
  rewrite Ec, IH. reflexivity.
Qed.

Lemma one_line_slice0 (n : nat) (s : string) :
  one_line s = true -> one_line (Str.slice0 n s) = true.
Proof.
  unfold Str.slice0. revert n. induction s as [|c s IH]; intros n H.
  - destruct n; reflexivity.
  - destruct n as [|n]; [reflexivity|]. cbn [one_line] in H.
    apply andb_prop in H as [Hc H]. cbn [substring one_line]. rewrite Hc, (IH n H). reflexivity.
Qed.

Lemma length_slice0 (n : nat) (s : string) : (String.length (Str.slice0 n s) <= n)%nat.
Proof.
  unfold Str.slice0. revert n. induction s as [|c s IH]; intros n.
  - destruct n; cbn; lia.
  - destruct n as [|n]; [cbn; lia|]. cbn [substring String.length]. specialize (IH n). lia.
Qed.

(** X28.  The subject that [parseCommit] gives a commit is the first line of
    its message, cut to 120 characters, and the body is the text from the
    third line on, trimmed: the second line is in neither.  A message of one
    line has an empty body, and a missing message gives an empty subject and
    an empty body. *)
Theorem parseCommit_subject_and_body :
  (forall message,
      one_line (subject_of message) = true /\
      (String.length (subject_of message) <= 120)%nat) /\
  subject_of None = "" /\ body_of None = "" /\
  (forall s, one_line s = true ->
             subject_of (Some s) = Str.slice0 120 s /\ body_of (Some s) = "") /\
  (forall s second rest,
      one_line s = true -> one_line second = true ->
      subject_of (Some (s ++ nl ++ second ++ nl ++ rest)) = Str.slice0 120 s /\
      body_of (Some (s ++ nl ++ second ++ nl ++ rest)) = trim rest).
Proof.
  split; [|split; [reflexivity|split; [reflexivity|split]]].
  - intros message. split; [|apply length_slice0].
    apply one_line_slice0, one_line_head.
  - intros s Hs. unfold subject_of, body_of.
    change (default "" (Some s)) with s.
    rewrite (split_lines_last s Hs). split; reflexivity.
  - intros s second rest Hs H2. unfold subject_of, body_of.
    change (default "" (Some ?m)) with m.
    rewrite (split_lines_line s _ Hs), (split_lines_line second _ H2).
    change (drop 2 (s :: second :: ?l)) with l.
    rewrite join_split. split; reflexivity.
Qed.

End CommitTextProps.
